(** * ModernRoboticsCpp: a shallow embedding of [modern_robotics.cpp]

    The library computes with Eigen vectors and matrices of [float].  The
    embedding keeps the shapes the code documents (3-vectors, 3x3 rotations,
    4x4 homogeneous transforms, 6-vectors, 6x6 adjoint and inertia matrices,
    and lists indexed by joint) and replaces [float] by exact arithmetic:
    scalars are real numbers, so every statement below is about the
    formulas the code evaluates, not about rounding.

    The purely algebraic routines (everything built from [+], [-], [*]) are
    written once over an abstract scalar type, [Scalar]; they are used at
    the reals for the model itself and at fixed-point intervals to bound the
    value the recursive Newton-Euler routine takes on the test fixture. *)

From Stdlib Require Import Reals Lra Lia Psatz List ZArith Bool.
From Stdlib Require NsatzTactic RNsatz.
Import ListNotations.

Set Implicit Arguments.

(** ** Scalars *)

Class Scalar (S : Type) : Type := {
  s0 : S;
  s1 : S;
  sadd : S -> S -> S;
  ssub : S -> S -> S;
  smul : S -> S -> S;
  sopp : S -> S
}.

Declare Scope scalar_scope.
Delimit Scope scalar_scope with sc.
Infix "+" := sadd : scalar_scope.
Infix "-" := ssub : scalar_scope.
Infix "*" := smul : scalar_scope.
Notation "- x" := (sopp x) : scalar_scope.

#[export] Instance R_scalar : Scalar R :=
  {| s0 := 0%R; s1 := 1%R; sadd := Rplus; ssub := Rminus; smul := Rmult; sopp := Ropp |}.

(** ** Fixed-size vectors and matrices *)

Section Algebra.
Context {S : Type} {SS : Scalar S}.
Local Open Scope scalar_scope.

(** [Eigen::Vector3f]: entries (0), (1), (2). *)
Record Vec3 : Type := mkVec3 { v0 : S; v1 : S; v2 : S }.

(** [Eigen::Matrix3f]: entry (i, j) is field [aij]. *)
Record Mat3 : Type := mkMat3 {
  a00 : S; a01 : S; a02 : S;
  a10 : S; a11 : S; a12 : S;
  a20 : S; a21 : S; a22 : S }.

(** A 6-vector: entries 0..2 ([ang]) and 3..5 ([lin]). *)
Record Vec6 : Type := mkVec6 { ang : Vec3; lin : Vec3 }.

(** A 6x6 matrix by its four 3x3 corners, as the code assembles them
    ([topLeftCorner], [topRightCorner], [bottomLeftCorner],
    [bottomRightCorner]). *)
Record Mat6 : Type := mkMat6 { tl : Mat3; tr : Mat3; bl : Mat3; br : Mat3 }.

(** A 4x4 matrix: [rot] is the block (0..2, 0..2), [pos] the column
    (0..2, 3), [bot] the row (3, 0..2) and [crn] the entry (3, 3). *)
Record Mat4 : Type := mkMat4 { rot : Mat3; pos : Vec3; bot : Vec3; crn : S }.

Definition v3zero : Vec3 := mkVec3 s0 s0 s0.
Definition v3add (a b : Vec3) : Vec3 :=
  mkVec3 (v0 a + v0 b) (v1 a + v1 b) (v2 a + v2 b).
Definition v3sub (a b : Vec3) : Vec3 :=
  mkVec3 (v0 a - v0 b) (v1 a - v1 b) (v2 a - v2 b).
Definition v3opp (a : Vec3) : Vec3 := mkVec3 (- v0 a) (- v1 a) (- v2 a).
Definition v3scale (k : S) (a : Vec3) : Vec3 :=
  mkVec3 (k * v0 a) (k * v1 a) (k * v2 a).
Definition dot3 (a b : Vec3) : S := v0 a * v0 b + v1 a * v1 b + v2 a * v2 b.
Definition cross3 (a b : Vec3) : Vec3 :=
  mkVec3 (v1 a * v2 b - v2 a * v1 b)
         (v2 a * v0 b - v0 a * v2 b)
         (v0 a * v1 b - v1 a * v0 b).

Definition m3zero : Mat3 := mkMat3 s0 s0 s0 s0 s0 s0 s0 s0 s0.
Definition m3id : Mat3 := mkMat3 s1 s0 s0 s0 s1 s0 s0 s0 s1.
Definition m3add (A B : Mat3) : Mat3 :=
  mkMat3 (a00 A + a00 B) (a01 A + a01 B) (a02 A + a02 B)
         (a10 A + a10 B) (a11 A + a11 B) (a12 A + a12 B)
         (a20 A + a20 B) (a21 A + a21 B) (a22 A + a22 B).
Definition m3sub (A B : Mat3) : Mat3 :=
  mkMat3 (a00 A - a00 B) (a01 A - a01 B) (a02 A - a02 B)
         (a10 A - a10 B) (a11 A - a11 B) (a12 A - a12 B)
         (a20 A - a20 B) (a21 A - a21 B) (a22 A - a22 B).
Definition m3scale (k : S) (A : Mat3) : Mat3 :=
  mkMat3 (k * a00 A) (k * a01 A) (k * a02 A)
         (k * a10 A) (k * a11 A) (k * a12 A)
         (k * a20 A) (k * a21 A) (k * a22 A).
Definition m3trans (A : Mat3) : Mat3 :=
  mkMat3 (a00 A) (a10 A) (a20 A)
         (a01 A) (a11 A) (a21 A)
         (a02 A) (a12 A) (a22 A).
Definition row0 (A : Mat3) : Vec3 := mkVec3 (a00 A) (a01 A) (a02 A).
Definition row1 (A : Mat3) : Vec3 := mkVec3 (a10 A) (a11 A) (a12 A).
Definition row2 (A : Mat3) : Vec3 := mkVec3 (a20 A) (a21 A) (a22 A).
Definition col0 (A : Mat3) : Vec3 := mkVec3 (a00 A) (a10 A) (a20 A).
Definition col1 (A : Mat3) : Vec3 := mkVec3 (a01 A) (a11 A) (a21 A).
Definition col2 (A : Mat3) : Vec3 := mkVec3 (a02 A) (a12 A) (a22 A).
(** Matrix times column vector. *)
Definition m3vec (A : Mat3) (x : Vec3) : Vec3 :=
  mkVec3 (dot3 (row0 A) x) (dot3 (row1 A) x) (dot3 (row2 A) x).
(** Row vector times matrix. *)
Definition vec3m (x : Vec3) (A : Mat3) : Vec3 :=
  mkVec3 (dot3 x (col0 A)) (dot3 x (col1 A)) (dot3 x (col2 A)).
Definition m3mul (A B : Mat3) : Mat3 :=
  mkMat3 (dot3 (row0 A) (col0 B)) (dot3 (row0 A) (col1 B)) (dot3 (row0 A) (col2 B))
         (dot3 (row1 A) (col0 B)) (dot3 (row1 A) (col1 B)) (dot3 (row1 A) (col2 B))
         (dot3 (row2 A) (col0 B)) (dot3 (row2 A) (col1 B)) (dot3 (row2 A) (col2 B)).
(** Column vector times row vector. *)
Definition outer3 (x y : Vec3) : Mat3 :=
  mkMat3 (v0 x * v0 y) (v0 x * v1 y) (v0 x * v2 y)
         (v1 x * v0 y) (v1 x * v1 y) (v1 x * v2 y)
         (v2 x * v0 y) (v2 x * v1 y) (v2 x * v2 y).
Definition trace3 (A : Mat3) : S := a00 A + a11 A + a22 A.
Definition det3 (A : Mat3) : S :=
  a00 A * (a11 A * a22 A - a12 A * a21 A)
  - a01 A * (a10 A * a22 A - a12 A * a20 A)
  + a02 A * (a10 A * a21 A - a11 A * a20 A).

Definition v6zero : Vec6 := mkVec6 v3zero v3zero.
Definition v6add (a b : Vec6) : Vec6 :=
  mkVec6 (v3add (ang a) (ang b)) (v3add (lin a) (lin b)).
Definition v6sub (a b : Vec6) : Vec6 :=
  mkVec6 (v3sub (ang a) (ang b)) (v3sub (lin a) (lin b)).
Definition v6scale (k : S) (a : Vec6) : Vec6 :=
  mkVec6 (v3scale k (ang a)) (v3scale k (lin a)).
Definition dot6 (a b : Vec6) : S := dot3 (ang a) (ang b) + dot3 (lin a) (lin b).

Definition m6zero : Mat6 := mkMat6 m3zero m3zero m3zero m3zero.
Definition m6trans (A : Mat6) : Mat6 :=
  mkMat6 (m3trans (tl A)) (m3trans (bl A)) (m3trans (tr A)) (m3trans (br A)).
Definition m6vec (A : Mat6) (x : Vec6) : Vec6 :=
  mkVec6 (v3add (m3vec (tl A) (ang x)) (m3vec (tr A) (lin x)))
         (v3add (m3vec (bl A) (ang x)) (m3vec (br A) (lin x))).

Definition m4id : Mat4 := mkMat4 m3id v3zero v3zero s1.
Definition m4zero : Mat4 := mkMat4 m3zero v3zero v3zero s0.
Definition m4scale (k : S) (A : Mat4) : Mat4 :=
  mkMat4 (m3scale k (rot A)) (v3scale k (pos A)) (v3scale k (bot A)) (k * crn A).
(** The 4x4 product, written on the blocks. *)
Definition m4mul (A B : Mat4) : Mat4 :=
  mkMat4 (m3add (m3mul (rot A) (rot B)) (outer3 (pos A) (bot B)))
         (v3add (m3vec (rot A) (pos B)) (v3scale (crn B) (pos A)))
         (v3add (vec3m (bot A) (rot B)) (v3scale (crn A) (bot B)))
         (dot3 (bot A) (pos B) + crn A * crn B).

(** ** Algebraic routines of the library *)

(** [VecToso3]: the skew-symmetric matrix of an angular velocity. *)
Definition VecToso3 (omg : Vec3) : Mat3 :=
  mkMat3 s0 (- v2 omg) (v1 omg)
         (v2 omg) s0 (- v0 omg)
         (- v1 omg) (v0 omg) s0.

(** [so3ToVec]: reads entries (2,1), (0,2), (1,0). *)
Definition so3ToVec (so3mat : Mat3) : Vec3 :=
  mkVec3 (a21 so3mat) (a02 so3mat) (a10 so3mat).

(** [RpToTrans]: [[R, p], [0, 0, 0, 1]]. *)
Definition RpToTrans (Rm : Mat3) (p : Vec3) : Mat4 := mkMat4 Rm p v3zero s1.

(** [TransToRp]: the block (0..2, 0..2) and the entries (0..2, 3). *)
Definition TransToRp (T : Mat4) : Mat3 * Vec3 := (rot T, pos T).

(** [VecTose3]: [[VecToso3(V(0..2)), V(3..5)], [0, 0, 0, 0]]. *)
Definition VecTose3 (V : Vec6) : Mat4 :=
  mkMat4 (VecToso3 (ang V)) (lin V) v3zero s0.

(** [se3ToVec]: T(2,1), T(0,2), T(1,0), T(0,3), T(1,3), T(2,3). *)
Definition se3ToVec (T : Mat4) : Vec6 :=
  mkVec6 (mkVec3 (a21 (rot T)) (a02 (rot T)) (a10 (rot T))) (pos T).

(** [Adjoint]: [[R, 0], [VecToso3(p) R, R]]. *)
Definition Adjoint (T : Mat4) : Mat6 :=
  let (Rm, p) := TransToRp T in
  mkMat6 Rm m3zero (m3mul (VecToso3 p) Rm) Rm.

(** [ad]: [[omgmat, 0], [VecToso3(V(3..5)), omgmat]]. *)
Definition ad (V : Vec6) : Mat6 :=
  let omgmat := VecToso3 (ang V) in
  mkMat6 omgmat m3zero (VecToso3 (lin V)) omgmat.

(** [TransInv]: [[Rt, -(Rt p)], [0, 0, 0, 1]]. *)
Definition TransInv (transform : Mat4) : Mat4 :=
  let (Rm, p) := TransToRp transform in
  let Rt := m3trans Rm in
  let t := v3opp (m3vec Rt p) in
  mkMat4 Rt t v3zero s1.

Definition RotInv (rotMatrix : Mat3) : Mat3 := m3trans rotMatrix.

(** [ScrewToAxis]: [s; q x s + h s]. *)
Definition ScrewToAxis (q s : Vec3) (h : S) : Vec6 :=
  mkVec6 s (v3add (cross3 q s) (v3scale h s)).

End Algebra.

Arguments Vec3 S : clear implicits.
Arguments Mat3 S : clear implicits.
Arguments Vec6 S : clear implicits.
Arguments Mat6 S : clear implicits.
Arguments Mat4 S : clear implicits.

(** ** Joint-indexed data

    Vectors of joint values ([Eigen::VectorXf] of size n) are lists, a
    6 x n matrix of screw axes is the list of its columns, the lists
    [Mlist] and [Glist] are lists of matrices, and an n x n matrix is the
    list of its columns.  The code never checks an index: a read outside a
    list is modelled by a default value and a write outside it by no
    write. *)

Section Indexed.
Context {A : Type}.

(** The in-place write [l(i) = x]. *)
Fixpoint upd (i : nat) (x : A) (l : list A) : list A :=
  match l, i with
  | [], _ => []
  | _ :: t, O => x :: t
  | h :: t, S j => h :: upd j x t
  end.

(** Entry by entry combination of two vectors of the same size. *)
Fixpoint map2 (f : A -> A -> A) (l1 l2 : list A) : list A :=
  match l1, l2 with
  | h1 :: t1, h2 :: t2 => f h1 h2 :: map2 f t1 t2
  | _, _ => []
  end.
End Indexed.

Section JointVectors.
Context {S : Type} {SS : Scalar S}.
Local Open Scope scalar_scope.

Definition vnzero (n : nat) : list S := repeat s0 n.
Definition vnadd (a b : list S) : list S := map2 sadd a b.
Definition vnsub (a b : list S) : list S := map2 ssub a b.
Definition vnscale (k : S) (a : list S) : list S := map (smul k) a.
Definition vndot (a b : list S) : S := fold_right sadd s0 (map2 smul a b).

(** Sum of [f 0 .. f (n-1)]. *)
Definition sum_upto (n : nat) (f : nat -> S) : S :=
  fold_right sadd s0 (map f (seq 0 n)).

(** Entry (r, c) of a matrix given by its columns. *)
Definition entry (M : list (list S)) (r c : nat) : S := nth r (nth c M []) s0.

(** A square matrix, given by its columns, times a vector. *)
Definition mat_vec (M : list (list S)) (x : list S) : list S :=
  map (fun r => sum_upto (length M) (fun c => entry M r c * nth c x s0))
      (seq 0 (length M)).
End JointVectors.

(** ** Dynamics, over any scalar type

    [InverseDynamics] and the routines built on it use the matrix
    exponential [MatrixExp6] and, for [ForwardDynamics], Eigen's [ldlt]
    solver.  Both are taken as parameters here: [exp6] is instantiated by
    [MatrixExp6] below, and the solver, which is Eigen's and not this
    library's, stays a parameter of the model. *)

Section DynamicsOver.
Context {S : Type} {SS : Scalar S}.
Local Open Scope scalar_scope.

Variable exp6 : Mat4 S -> Mat4 S.
Variable ldlt_solve : list (list S) -> list S -> list S.

(** The local arrays of [InverseDynamics]. *)
Record NEState : Type := mkNEState {
  Mi : Mat4 S;
  Ai : list (Vec6 S);
  AdTi : list (Mat6 S);
  Vi : list (Vec6 S);
  Vdi : list (Vec6 S) }.

Section Pass.
Variables thetalist dthetalist ddthetalist : list S.
Variable g : Vec3 S.
Variable Ftip : Vec6 S.
Variable Mlist : list (Mat4 S).
Variable Glist : list (Mat6 S).
Variable Slist : list (Vec6 S).

(** The arrays before the forward pass: all zero, but for
    [Vdi.block(3, 0, 3, 1) = -g] and
    [AdTi[n] = Adjoint(TransInv(Mlist[n]))]. *)
Definition NE_init (n : nat) : NEState :=
  mkNEState m4id
    (repeat v6zero n)
    (upd n (Adjoint (TransInv (nth n Mlist m4zero))) (repeat m6zero (n + 1)))
    (repeat v6zero (n + 1))
    (upd 0 (mkVec6 v3zero (v3opp g)) (repeat v6zero (n + 1))).

(** One iteration of the forward pass. *)
Definition NE_forward_step (st : NEState) (i : nat) : NEState :=
  let Mi' := m4mul (Mi st) (nth i Mlist m4zero) in
  let A := m6vec (Adjoint (TransInv Mi')) (nth i Slist v6zero) in
  let AdT := Adjoint (m4mul (exp6 (VecTose3 (v6scale (- nth i thetalist s0) A)))
                            (TransInv (nth i Mlist m4zero))) in
  let V := v6add (m6vec AdT (nth i (Vi st) v6zero))
                 (v6scale (nth i dthetalist s0) A) in
  let Vd := v6add (v6add (m6vec AdT (nth i (Vdi st) v6zero))
                         (v6scale (nth i ddthetalist s0) A))
                  (v6scale (nth i dthetalist s0) (m6vec (ad V) A)) in
  mkNEState Mi' (upd i A (Ai st)) (upd i AdT (AdTi st))
            (upd (i + 1) V (Vi st)) (upd (i + 1) Vd (Vdi st)).

Definition NE_forward (n : nat) : NEState :=
  fold_left NE_forward_step (seq 0 n) (NE_init n).

(** One iteration of the backward pass, on [(Fi, taulist)]. *)
Definition NE_backward_step (st : NEState) (acc : Vec6 S * list S) (i : nat)
  : Vec6 S * list S :=
  let Fi := fst acc in
  let G := nth i Glist m6zero in
  let V := nth (i + 1) (Vi st) v6zero in
  let Fi' := v6sub (v6add (m6vec (m6trans (nth (i + 1) (AdTi st) m6zero)) Fi)
                          (m6vec G (nth (i + 1) (Vdi st) v6zero)))
                   (m6vec (m6trans (ad V)) (m6vec G V)) in
  (Fi', upd i (dot6 Fi' (nth i (Ai st) v6zero)) (snd acc)).

(** [InverseDynamics]: forward pass for i = 0 .. n-1, then backward
    pass for i = n-1 .. 0. *)
Definition InverseDynamics_over : list S :=
  let n := length thetalist in
  let st := NE_forward n in
  snd (fold_left (NE_backward_step st) (rev (seq 0 n)) (Ftip, vnzero n)).
End Pass.

Definition GravityForces_over (thetalist : list S) (g : Vec3 S)
    (Mlist : list (Mat4 S)) (Glist : list (Mat6 S)) (Slist : list (Vec6 S)) : list S :=
  let n := length thetalist in
  let dummylist := vnzero n in
  let dummyForce := v6zero in
  InverseDynamics_over thetalist dummylist dummylist g dummyForce Mlist Glist Slist.

(** The unit vector [ddthetalist = Zero(n); ddthetalist(i) = 1]. *)
Definition unit_vector (n i : nat) : list S := upd i s1 (vnzero n).

(** [MassMatrix]: [M = Zero(n, n)], then column i is written with the
    result of [InverseDynamics] on the i-th unit acceleration. *)
Definition MassMatrix_over (thetalist : list S)
    (Mlist : list (Mat4 S)) (Glist : list (Mat6 S)) (Slist : list (Vec6 S))
    : list (list S) :=
  let n := length thetalist in
  let dummylist := vnzero n in
  let dummyg := v3zero in
  let dummyforce := v6zero in
  fold_left
    (fun M i =>
       let ddthetalist := unit_vector n i in
       upd i (InverseDynamics_over thetalist dummylist ddthetalist
                dummyg dummyforce Mlist Glist Slist) M)
    (seq 0 n) (repeat (vnzero n) n).

Definition VelQuadraticForces_over (thetalist dthetalist : list S)
    (Mlist : list (Mat4 S)) (Glist : list (Mat6 S)) (Slist : list (Vec6 S)) : list S :=
  let n := length thetalist in
  let dummylist := vnzero n in
  let dummyg := v3zero in
  let dummyforce := v6zero in
  InverseDynamics_over thetalist dthetalist dummylist dummyg dummyforce Mlist Glist Slist.

Definition EndEffectorForces_over (thetalist : list S) (Ftip : Vec6 S)
    (Mlist : list (Mat4 S)) (Glist : list (Mat6 S)) (Slist : list (Vec6 S)) : list S :=
  let n := length thetalist in
  let dummylist := vnzero n in
  let dummyg := v3zero in
  InverseDynamics_over thetalist dummylist dummylist dummyg Ftip Mlist Glist Slist.

(** [ForwardDynamics]: [M.ldlt().solve(totalForce)]. *)
Definition ForwardDynamics_over (thetalist dthetalist taulist : list S)
    (g : Vec3 S) (Ftip : Vec6 S)
    (Mlist : list (Mat4 S)) (Glist : list (Mat6 S)) (Slist : list (Vec6 S)) : list S :=
  let totalForce :=
    vnsub (vnsub (vnsub taulist
                    (VelQuadraticForces_over thetalist dthetalist Mlist Glist Slist))
                 (GravityForces_over thetalist g Mlist Glist Slist))
          (EndEffectorForces_over thetalist Ftip Mlist Glist Slist) in
  let M := MassMatrix_over thetalist Mlist Glist Slist in
  ldlt_solve M totalForce.

(** [ComputedTorque]; the gains are scalars. *)
Definition ComputedTorque_over (thetalist dthetalist eint : list S) (g : Vec3 S)
    (Mlist : list (Mat4 S)) (Glist : list (Mat6 S)) (Slist : list (Vec6 S))
    (thetalistd dthetalistd ddthetalistd : list S) (Kp Ki Kd : S) : list S :=
  let e := vnsub thetalistd thetalist in
  let tau_feedforward :=
    mat_vec (MassMatrix_over thetalist Mlist Glist Slist)
      (vnadd (vnadd (vnscale Kp e) (vnscale Ki (vnadd eint e)))
             (vnscale Kd (vnsub dthetalistd dthetalist))) in
  let Ftip := v6zero in
  let tau_inversedyn :=
    InverseDynamics_over thetalist dthetalist ddthetalistd g Ftip Mlist Glist Slist in
  let tau_computed := vnadd tau_feedforward tau_inversedyn in
  tau_computed.

(** [EulerStep]: both in/out vectors, returned as a pair. *)
Definition EulerStep_over (thetalist dthetalist ddthetalist : list S) (dt : S)
    : list S * list S :=
  (vnadd thetalist (vnscale dt dthetalist),
   vnadd dthetalist (vnscale dt ddthetalist)).
End DynamicsOver.

(** ** The library over the reals *)

Local Open Scope R_scope.

Definition Rltb (x y : R) : bool := if Rlt_dec x y then true else false.
Definition Rleb (x y : R) : bool := if Rle_dec x y then true else false.

(** [# define M_PI 3.14159265358979323846] *)
Definition M_PI : R := 3.14159265358979323846.

(** [NearZero]: [std::abs(val) < .000001]. *)
Definition NearZero (val : R) : bool := Rltb (Rabs val) 0.000001.

(** Eigen's [norm()]: the square root of the sum of the squared entries. *)
Definition norm3 (v : Vec3 R) : R := sqrt (dot3 v v).
Definition fnorm3 (A : Mat3 R) : R :=
  sqrt (dot3 (row0 A) (row0 A) + dot3 (row1 A) (row1 A) + dot3 (row2 A) (row2 A)).
Definition fnorm4 (A : Mat4 R) : R :=
  sqrt (dot3 (row0 (rot A)) (row0 (rot A)) + dot3 (row1 (rot A)) (row1 (rot A))
        + dot3 (row2 (rot A)) (row2 (rot A)) + dot3 (pos A) (pos A)
        + dot3 (bot A) (bot A) + crn A * crn A).

(** [Normalize], on a 3-vector: Eigen's [normalize()] divides by the norm
    when the squared norm is positive and leaves the vector as it is
    otherwise. *)
Definition Normalize (V : Vec3 R) : Vec3 R :=
  if Rltb 0 (dot3 V V) then v3scale (/ norm3 V) V else V.

(** [AxisAng3]: [[Normalize(expc3), expc3.norm()]], the 4-vector as a pair. *)
Definition AxisAng3 (expc3 : Vec3 R) : Vec3 R * R := (Normalize expc3, norm3 expc3).

(** [MatrixExp3]: Rodrigues' formula. *)
Definition MatrixExp3 (so3mat : Mat3 R) : Mat3 R :=
  let omgtheta := so3ToVec so3mat in
  let m_ret := m3id in
  if NearZero (fnorm3 so3mat) then m_ret
  else
    let theta := snd (AxisAng3 omgtheta) in
    let omgmat := m3scale (1 / theta) so3mat in
    m3add (m3add m_ret (m3scale (sin theta) omgmat))
          (m3scale (1 - cos theta) (m3mul omgmat omgmat)).

(** [MatrixLog3].  Over the reals the square root of a negative number
    and a quotient by zero are 0, where [std::sqrt] returns NaN and the
    division an infinity: the branch for a half turn is that of the code
    when the radicand [2 * (1 + R(i, i))] it meets is positive
    ([MatrixLog3_in_domain] below), as it is for every rotation matrix. *)
Definition MatrixLog3 (Rm : Mat3 R) : Mat3 R :=
  let acosinput := (trace3 Rm - 1) / 2 in
  if Rleb 1 acosinput then m3zero
  else if Rleb acosinput (-1) then
    let omg :=
      if negb (NearZero (1 + a22 Rm)) then
        v3scale (1 / sqrt (2 * (1 + a22 Rm))) (mkVec3 (a02 Rm) (a12 Rm) (1 + a22 Rm))
      else if negb (NearZero (1 + a11 Rm)) then
        v3scale (1 / sqrt (2 * (1 + a11 Rm))) (mkVec3 (a01 Rm) (1 + a11 Rm) (a21 Rm))
      else
        v3scale (1 / sqrt (2 * (1 + a00 Rm))) (mkVec3 (1 + a00 Rm) (a10 Rm) (a20 Rm)) in
    VecToso3 (v3scale M_PI omg)
  else
    let theta := acos acosinput in
    m3scale (theta / 2 / sin theta) (m3sub Rm (m3trans Rm)).

(** [MatrixExp6]. *)
Definition MatrixExp6 (se3mat : Mat4 R) : Mat4 R :=
  let se3mat_cut := rot se3mat in
  let omgtheta := so3ToVec se3mat_cut in
  if NearZero (norm3 omgtheta) then
    mkMat4 m3id (pos se3mat) v3zero 1
  else
    let theta := snd (AxisAng3 omgtheta) in
    let omgmat := m3scale (/ theta) (rot se3mat) in
    let expExpand :=
      m3add (m3add (m3scale theta m3id) (m3scale (1 - cos theta) omgmat))
            (m3scale (theta - sin theta) (m3mul omgmat omgmat)) in
    let linear := pos se3mat in
    let GThetaV := v3scale (/ theta) (m3vec expExpand linear) in
    mkMat4 (MatrixExp3 se3mat_cut) GThetaV v3zero 1.

(** [MatrixLog6].  [acos] over the reals has a value for every argument,
    where [std::acos] returns NaN outside [-1, 1], and [MatrixLog3] lets
    an argument below -1 through to the last branch: that branch is that
    of the code when [(trace - 1) / 2 >= -1] ([clear_of_half_turn] below
    is the strict form of this condition). *)
Definition MatrixLog6 (T : Mat4 R) : Mat4 R :=
  let rp := TransToRp T in
  let omgmat := MatrixLog3 (fst rp) in
  if NearZero (fnorm3 omgmat) then
    mkMat4 m3zero (snd rp) v3zero 0
  else
    let theta := acos ((trace3 (fst rp) - 1) / 2) in
    let logExpand1 := m3sub m3id (m3scale (/ 2) omgmat) in
    let logExpand2 :=
      m3scale (/ theta)
        (m3scale (1 / theta - 1 / tan (theta / 2) / 2) (m3mul omgmat omgmat)) in
    let logExpand := m3add logExpand1 logExpand2 in
    mkMat4 omgmat (m3vec logExpand (snd rp)) v3zero 0.

(** Column i of a 6 x n matrix of screw axes, and entry i of a vector. *)
Definition col (Slist : list (Vec6 R)) (i : nat) : Vec6 R := nth i Slist v6zero.
Definition at_ (v : list R) (i : nat) : R := nth i v 0.

(** [FKinSpace]: [for (i = size - 1; i > -1; i--) T = MatrixExp6(...) * T]. *)
Definition FKinSpace (M : Mat4 R) (Slist : list (Vec6 R)) (thetaList : list R) : Mat4 R :=
  fold_left
    (fun T i => m4mul (MatrixExp6 (VecTose3 (v6scale (at_ thetaList i) (col Slist i)))) T)
    (rev (seq 0 (length thetaList))) M.

(** [FKinBody]: [for (i = 0; i < size; i++) T = T * MatrixExp6(...)]. *)
Definition FKinBody (M : Mat4 R) (Blist : list (Vec6 R)) (thetaList : list R) : Mat4 R :=
  fold_left
    (fun T i => m4mul T (MatrixExp6 (VecTose3 (v6scale (at_ thetaList i) (col Blist i)))))
    (seq 0 (length thetaList)) M.

(** [JacobianSpace]: [for (i = 1; i < size; i++)]. *)
Definition JacobianSpace (Slist : list (Vec6 R)) (thetaList : list R) : list (Vec6 R) :=
  snd (fold_left
         (fun (st : Mat4 R * list (Vec6 R)) i =>
            let sListTemp := v6scale (at_ thetaList (i - 1)) (col Slist (i - 1)) in
            let T := m4mul (fst st) (MatrixExp6 (VecTose3 sListTemp)) in
            (T, upd i (m6vec (Adjoint T) (col Slist i)) (snd st)))
         (seq 1 (length thetaList - 1)) (m4id, Slist)).

(** [JacobianBody]: [for (i = size - 2; i >= 0; i--)]. *)
Definition JacobianBody (Blist : list (Vec6 R)) (thetaList : list R) : list (Vec6 R) :=
  snd (fold_left
         (fun (st : Mat4 R * list (Vec6 R)) i =>
            let bListTemp := v6scale (at_ thetaList (i + 1)) (col Blist (i + 1)) in
            let T := m4mul (fst st) (MatrixExp6 (VecTose3 (v6scale (-1) bListTemp))) in
            (T, upd i (m6vec (Adjoint T) (col Blist i)) (snd st)))
         (rev (seq 0 (length thetaList - 1))) (m4id, Blist)).

(** [AxisAng6]: [[expc6 / theta, theta]], the 7-vector as a pair.  The
    six quotients are those of the code when [theta] is not zero;
    [AxisAng6_quotients] below keeps what the code computes when it is. *)
Definition AxisAng6 (expc6 : Vec6 R) : Vec6 R * R :=
  let theta := norm3 (ang expc6) in
  let theta := if NearZero theta then norm3 (lin expc6) else theta in
  (mkVec6 (mkVec3 (v0 (ang expc6) / theta) (v1 (ang expc6) / theta) (v2 (ang expc6) / theta))
          (mkVec3 (v0 (lin expc6) / theta) (v1 (lin expc6) / theta) (v2 (lin expc6) / theta)),
   theta).

(** [DistanceToSO3]. *)
Definition DistanceToSO3 (M : Mat3 R) : R :=
  if Rltb 0 (det3 M) then fnorm3 (m3sub (m3mul (m3trans M) M) m3id)
  else 1.0e9.

(** [DistanceToSE3]. *)
Definition DistanceToSE3 (T : Mat4 R) : R :=
  let matR := rot T in
  if Rltb 0 (det3 matR) then
    fnorm4 (mkMat4 (m3sub (m3mul (m3trans matR) matR) m3id) v3zero (bot T) (crn T - 1))
  else 1.0e9.

(** [TestIfSO3], [TestIfSE3]. *)
Definition TestIfSO3 (M : Mat3 R) : bool := Rltb (Rabs (DistanceToSO3 M)) 1e-3.
Definition TestIfSE3 (T : Mat4 R) : bool := Rltb (Rabs (DistanceToSE3 T)) 1e-3.

(** [CubicTimeScaling], [QuinticTimeScaling]. *)
Definition CubicTimeScaling (Tf t : R) : R :=
  let timeratio := 1.0 * t / Tf in
  3 * timeratio ^ 2 - 2 * timeratio ^ 3.

Definition QuinticTimeScaling (Tf t : R) : R :=
  let timeratio := 1.0 * t / Tf in
  10 * timeratio ^ 3 - 15 * timeratio ^ 4 + 6 * timeratio ^ 5.

(** ** Inverse kinematics

    [Jb.bdcSvd(ComputeThinU | ComputeThinV).solve(Vb)] is Eigen's least
    squares solve; it is a parameter of the model. *)

Section InverseKinematics.
Variable bdcSvd_solve : list (Vec6 R) -> Vec6 R -> list R.

Definition maxiterations : nat := 20.

(** The variables the iteration updates: the in/out parameter
    [thetalist], the error twist, the flag [err] and the counter [i]. *)
Record IKState : Type := mkIKState {
  ik_thetalist : list R;
  ik_V : Vec6 R;
  ik_err : bool;
  ik_i : nat }.

(** [angular.norm() > eomg || linear.norm() > ev].  The flag is that of
    the code when the error twist is a number; on a NaN the comparisons
    of the code are false, so that [err] is false whatever the
    tolerances. *)
Definition twist_err (V : Vec6 R) (eomg ev : R) : bool :=
  Rltb eomg (norm3 (ang V)) || Rltb ev (norm3 (lin V)).

Section Body.
Variables (Blist : list (Vec6 R)) (M T : Mat4 R) (eomg ev : R).

Definition Vb_of (thetalist : list R) : Vec6 R :=
  let Tfk := FKinBody M Blist thetalist in
  let Tdiff := m4mul (TransInv Tfk) T in
  se3ToVec (MatrixLog6 Tdiff).

Definition IKinBody_start (thetalist : list R) : IKState :=
  let Vb := Vb_of thetalist in
  mkIKState thetalist Vb (twist_err Vb eomg ev) 0.

(** The body of the [while] loop. *)
Definition IKinBody_step (st : IKState) : IKState :=
  let Jb := JacobianBody Blist (ik_thetalist st) in
  let thetalist := vnadd (ik_thetalist st) (bdcSvd_solve Jb (ik_V st)) in
  let Vb := Vb_of thetalist in
  mkIKState thetalist Vb (twist_err Vb eomg ev) (ik_i st + 1).

(** [while (err && i < maxiterations)], with [k] the number of
    iterations that [i < maxiterations] still allows. *)
Fixpoint IKinBody_loop (k : nat) (st : IKState) : IKState :=
  match k with
  | O => st
  | S k' => if ik_err st then IKinBody_loop k' (IKinBody_step st) else st
  end.

Definition IKinBody_final (thetalist : list R) : IKState :=
  IKinBody_loop maxiterations (IKinBody_start thetalist).

(** [IKinBody]: the returned flag [!err] and the final content of the
    in/out parameter [thetalist]. *)
Definition IKinBody (thetalist : list R) : bool * list R :=
  let st := IKinBody_final thetalist in
  (negb (ik_err st), ik_thetalist st).
End Body.

Section Space.
Variables (Slist : list (Vec6 R)) (M T : Mat4 R) (eomg ev : R).

Definition Vs_of (thetalist : list R) : Vec6 R :=
  let Tfk := FKinSpace M Slist thetalist in
  let Tdiff := m4mul (TransInv Tfk) T in
  m6vec (Adjoint Tfk) (se3ToVec (MatrixLog6 Tdiff)).

Definition IKinSpace_start (thetalist : list R) : IKState :=
  let Vs := Vs_of thetalist in
  mkIKState thetalist Vs (twist_err Vs eomg ev) 0.

Definition IKinSpace_step (st : IKState) : IKState :=
  let Js := JacobianSpace Slist (ik_thetalist st) in
  let thetalist := vnadd (ik_thetalist st) (bdcSvd_solve Js (ik_V st)) in
  let Vs := Vs_of thetalist in
  mkIKState thetalist Vs (twist_err Vs eomg ev) (ik_i st + 1).

Fixpoint IKinSpace_loop (k : nat) (st : IKState) : IKState :=
  match k with
  | O => st
  | S k' => if ik_err st then IKinSpace_loop k' (IKinSpace_step st) else st
  end.

Definition IKinSpace_final (thetalist : list R) : IKState :=
  IKinSpace_loop maxiterations (IKinSpace_start thetalist).

Definition IKinSpace (thetalist : list R) : bool * list R :=
  let st := IKinSpace_final thetalist in
  (negb (ik_err st), ik_thetalist st).
End Space.
End InverseKinematics.

(** ** Dynamics and control over the reals *)

Section Dynamics.
(** Eigen's [M.ldlt().solve(b)]. *)
Variable ldlt_solve : list (list R) -> list R -> list R.

Definition InverseDynamics := InverseDynamics_over MatrixExp6.
Definition GravityForces := GravityForces_over MatrixExp6.
Definition MassMatrix := MassMatrix_over MatrixExp6.
Definition VelQuadraticForces := VelQuadraticForces_over MatrixExp6.
Definition EndEffectorForces := EndEffectorForces_over MatrixExp6.
Definition ForwardDynamics := ForwardDynamics_over MatrixExp6 ldlt_solve.
Definition ComputedTorque := ComputedTorque_over MatrixExp6.
Definition EulerStep := @EulerStep_over R _.

(** The inner loop of [SimulateControl]:
    [for (j = 0; j < intRes; ++j) { ForwardDynamics; EulerStep }]. *)
Fixpoint integrate (intRes : nat) (thetacurrent dthetacurrent taulist : list R)
    (g : Vec3 R) (Ftip : Vec6 R) (Mlist : list (Mat4 R)) (Glist : list (Mat6 R))
    (Slist : list (Vec6 R)) (h : R) : list R * list R :=
  match intRes with
  | O => (thetacurrent, dthetacurrent)
  | S j =>
      let ddthetalist :=
        ForwardDynamics thetacurrent dthetacurrent taulist g Ftip Mlist Glist Slist in
      let st := EulerStep thetacurrent dthetacurrent ddthetalist h in
      integrate j (fst st) (snd st) taulist g Ftip Mlist Glist Slist h
  end.

(** The variables [SimulateControl] updates. *)
Record SimState : Type := mkSimState {
  thetacurrent : list R;
  dthetacurrent : list R;
  eint : list R;
  taumatT : list (list R);
  thetamatT : list (list R) }.

Section Simulate.
Variables (g : Vec3 R) (Ftipmat : list (Vec6 R)).
Variables (Mlist : list (Mat4 R)) (Glist : list (Mat6 R)) (Slist : list (Vec6 R)).
(** Row i of each N x n matrix is the reference at step i. *)
Variables thetamatd dthetamatd ddthetamatd : list (list R).
Variables (gtilde : Vec3 R) (Mtildelist : list (Mat4 R)) (Gtildelist : list (Mat6 R)).
Variables (Kp Ki Kd dt : R) (intRes : nat).

(** One iteration of the outer loop. *)
Definition SimulateControl_step (st : SimState) (i : nat) : SimState :=
  let taulist :=
    ComputedTorque (thetacurrent st) (dthetacurrent st) (eint st)
      gtilde Mtildelist Gtildelist Slist
      (nth i thetamatd []) (nth i dthetamatd []) (nth i ddthetamatd [])
      Kp Ki Kd in
  let cur :=
    integrate intRes (thetacurrent st) (dthetacurrent st) taulist g
      (nth i Ftipmat v6zero) Mlist Glist Slist (dt / INR intRes) in
  mkSimState (fst cur) (snd cur)
    (vnadd (eint st) (vnscale dt (vnsub (nth i thetamatd []) (fst cur))))
    (upd i taulist (taumatT st))
    (upd i (fst cur) (thetamatT st)).

(** The state after the first [k] control steps. *)
Definition SimulateControl_run (thetalist dthetalist : list R) (k : nat) : SimState :=
  let m := length (nth 0 thetamatd []) in
  let n := length thetamatd in
  fold_left SimulateControl_step (seq 0 k)
    (mkSimState thetalist dthetalist (vnzero m)
       (repeat (vnzero m) n) (repeat (vnzero m) n)).

(** [SimulateControl]: [[taumat, thetamat]], each by rows. *)
Definition SimulateControl (thetalist dthetalist : list R)
  : list (list R) * list (list R) :=
  let st := SimulateControl_run thetalist dthetalist (length thetamatd) in
  (taumatT st, thetamatT st).
End Simulate.
End Dynamics.

(** ** Definitions used to state the properties *)

(** The diagonal index [MatrixLog3] builds the axis from when
    [acosinput <= -1]: the first of 2, 1, 0 (in that order) whose
    [1 + R(i, i)] is not [NearZero], and 0 when none is. *)
Definition MatrixLog3_pivot (Rm : Mat3 R) : nat :=
  if negb (NearZero (1 + a22 Rm)) then 2%nat
  else if negb (NearZero (1 + a11 Rm)) then 1%nat
  else 0%nat.

(** The diagonal entry [R(i, i)], for i = 0, 1, 2. *)
Definition diag3 (Rm : Mat3 R) (i : nat) : R :=
  match i with O => a00 Rm | S O => a11 Rm | _ => a22 Rm end.

(** Column i of [I + R]. *)
Definition col_I_plus (Rm : Mat3 R) (i : nat) : Vec3 R :=
  match i with
  | O => mkVec3 (1 + a00 Rm) (a10 Rm) (a20 Rm)
  | S O => mkVec3 (a01 Rm) (1 + a11 Rm) (a21 Rm)
  | _ => mkVec3 (a02 Rm) (a12 Rm) (1 + a22 Rm)
  end.

(** The unit axis built from column i of [I + R], with its divisor
    [sqrt (2 (1 + R(i, i)))]. *)
Definition pi_divisor (Rm : Mat3 R) (i : nat) : R := sqrt (2 * (1 + diag3 Rm i)).
Definition pi_axis (Rm : Mat3 R) (i : nat) : Vec3 R :=
  v3scale (1 / pi_divisor Rm i) (col_I_plus Rm i).

(** Rotation by the angle pi about the unit axis (0.8, 0, 0.6). *)
Definition R_half_turn : Mat3 R :=
  mkMat3 0.28 0 0.96
         0 (-1) 0
         0.96 0 (-0.28).

(** The exponential of joint i in the forward kinematics:
    [MatrixExp6(VecTose3(Slist.col(i) * thetaList(i)))]. *)
Definition joint_exp (Slist : list (Vec6 R)) (thetaList : list R) (i : nat) : Mat4 R :=
  MatrixExp6 (VecTose3 (v6scale (at_ thetaList i) (col Slist i))).

(** The product [E_0 E_1 ... E_(n-1)] of the joint exponentials: the
    first joint is the leftmost factor. *)
Definition poe_first_leftmost (Slist : list (Vec6 R)) (thetaList : list R) : Mat4 R :=
  fold_right (fun i P => m4mul (joint_exp Slist thetaList i) P) m4id
    (seq 0 (length thetaList)).

(** The product [E_(n-1) ... E_1 E_0], as the spec writes the space-frame
    formula: the last joint is the leftmost factor. *)
Definition poe_last_leftmost (Slist : list (Vec6 R)) (thetaList : list R) : Mat4 R :=
  fold_left (fun P i => m4mul (joint_exp Slist thetaList i) P)
    (seq 0 (length thetaList)) m4id.

(** A two-joint chain: a prismatic joint along x, then a revolute joint
    about z. *)
Definition Slist_PR : list (Vec6 R) :=
  [mkVec6 v3zero (mkVec3 1 0 0); mkVec6 (mkVec3 0 0 1) v3zero].
Definition thetalist_PR : list R := [1; 1].

(** One Newton-Raphson update of the joint angles,
    [thetalist += J.bdcSvd(...).solve(V)], in the body and in the space
    form. *)
Definition newton_body (solve : list (Vec6 R) -> Vec6 R -> list R)
    (Blist : list (Vec6 R)) (M T : Mat4 R) (thetalist : list R) : list R :=
  vnadd thetalist (solve (JacobianBody Blist thetalist) (Vb_of Blist M T thetalist)).

Definition newton_space (solve : list (Vec6 R) -> Vec6 R -> list R)
    (Slist : list (Vec6 R)) (M T : Mat4 R) (thetalist : list R) : list R :=
  vnadd thetalist (solve (JacobianSpace Slist thetalist) (Vs_of Slist M T thetalist)).

(** The error twist is within the tolerances. *)
Definition within_tolerance (V : Vec6 R) (eomg ev : R) : Prop :=
  norm3 (ang V) <= eomg /\ norm3 (lin V) <= ev.

(** The control law as the spec writes it: the integral gain weighs the
    passed-in integral error alone. *)
Definition ComputedTorque_as_claimed (thetalist dthetalist eint : list R) (g : Vec3 R)
    (Mlist : list (Mat4 R)) (Glist : list (Mat6 R)) (Slist : list (Vec6 R))
    (thetalistd dthetalistd ddthetalistd : list R) (Kp Ki Kd : R) : list R :=
  let e := vnsub thetalistd thetalist in
  vnadd
    (mat_vec (MassMatrix thetalist Mlist Glist Slist)
       (vnadd (vnadd (vnscale Kp e) (vnscale Ki eint))
              (vnscale Kd (vnsub dthetalistd dthetalist))))
    (InverseDynamics thetalist dthetalist ddthetalistd g v6zero Mlist Glist Slist).

(** A one-joint chain: a revolute joint about the z axis of the base,
    every home transform the identity, and the identity as spatial inertia. *)
Definition m6id : Mat6 R := mkMat6 m3id m3zero m3zero m3id.
Definition Mlist_1 : list (Mat4 R) := [m4id; m4id].
Definition Glist_1 : list (Mat6 R) := [m6id].
Definition Slist_1 : list (Vec6 R) := [mkVec6 (mkVec3 0 0 1) v3zero].

(** ** The Newton-Euler recursion as recurrences

    What the two passes of [InverseDynamics] compute, joint by joint, from
    the screw axes [A i] in the link frames, the adjoint maps [AdT i] and
    the inertias [G i]: link twists and accelerations from the base
    outwards, wrenches from the tip inwards.  These are used in proofs
    only; [InverseDynamics_recurrence] relates them to the code. *)

Section Recurrence.
Variables (A : nat -> Vec6 R) (AdT : nat -> Mat6 R) (G : nat -> Mat6 R).
Variables (dth ddth : nat -> R) (g : Vec3 R) (Ftip : Vec6 R).

(** [Vi.col(i)]. *)
Fixpoint twist (i : nat) : Vec6 R :=
  match i with
  | O => v6zero
  | S j => v6add (m6vec (AdT j) (twist j)) (v6scale (dth j) (A j))
  end.

(** [Vdi.col(i)]. *)
Fixpoint accel (i : nat) : Vec6 R :=
  match i with
  | O => mkVec6 v3zero (v3opp g)
  | S j =>
      v6add (v6add (m6vec (AdT j) (accel j)) (v6scale (ddth j) (A j)))
            (v6scale (dth j) (m6vec (ad (twist (S j))) (A j)))
  end.

(** [Fi] once joint [j] is done, [k] being the number of joints from [j]
    to the tip. *)
Fixpoint wrench (k j : nat) : Vec6 R :=
  match k with
  | O => Ftip
  | S k' =>
      v6sub (v6add (m6vec (m6trans (AdT (j + 1))) (wrench k' (j + 1)))
                   (m6vec (G j) (accel (j + 1))))
            (m6vec (m6trans (ad (twist (j + 1)))) (m6vec (G j) (twist (j + 1))))
  end.

(** [taulist(i)] for a chain of [n] joints. *)
Definition torque (n i : nat) : R := dot6 (wrench (n - i) i) (A i).
End Recurrence.

(** The data of the recurrences for a given chain and configuration. *)
Section Frames.
Variable exp6 : Mat4 R -> Mat4 R.
Variables (thetalist : list R) (Mlist : list (Mat4 R)) (Slist : list (Vec6 R)).

(** [Mi] after [k] iterations: the product of the first [k] home transforms. *)
Definition Mi_at (k : nat) : Mat4 R :=
  fold_left (fun T i => m4mul T (nth i Mlist m4zero)) (seq 0 k) m4id.

(** [Ai.col(i)]. *)
Definition A_at (i : nat) : Vec6 R :=
  m6vec (Adjoint (TransInv (Mi_at (S i)))) (nth i Slist v6zero).

(** [AdTi[i]], for i <= n. *)
Definition AdT_at (i : nat) : Mat6 R :=
  if (i <? length thetalist)%nat then
    Adjoint (m4mul (exp6 (VecTose3 (v6scale (- nth i thetalist 0) (A_at i))))
                   (TransInv (nth i Mlist m4zero)))
  else if (i =? length thetalist)%nat then
    Adjoint (TransInv (nth (length thetalist) Mlist m4zero))
  else m6zero.
End Frames.

(** The sum of [f j .. f (j + k - 1)]. *)
Definition sum_from (j k : nat) (f : nat -> R) : R :=
  fold_right Rplus 0 (map f (seq j k)).

(** The unit sequence: 1 at index [c], 0 elsewhere. *)
Definition delta (c i : nat) : R := if (i =? c)%nat then 1 else 0.

(** A homogeneous transform of SE(3): the rotation block is orthonormal
    with determinant 1 and the bottom row is (0, 0, 0, 1). *)
Definition is_SE3 (T : Mat4 R) : Prop :=
  m3mul (m3trans (rot T)) (rot T) = m3id /\
  m3mul (rot T) (m3trans (rot T)) = m3id /\
  det3 (rot T) = 1 /\
  bot T = v3zero /\ crn T = 1.

(** A symmetric positive-definite 6x6 matrix. *)
Definition symmetric6 (G : Mat6 R) : Prop := m6trans G = G.
Definition pos_def6 (G : Mat6 R) : Prop :=
  forall v : Vec6 R, v <> v6zero -> 0 < dot6 v (m6vec G v).

(** A symmetric, and a positive-definite, square matrix given by its
    columns. *)
Definition symmetricN (M : list (list R)) : Prop :=
  forall r c, (r < length M)%nat -> (c < length M)%nat -> entry M r c = entry M c r.
Definition pos_defN (M : list (list R)) : Prop :=
  forall x : list R, length x = length M -> x <> vnzero (length M) ->
                     0 < vndot x (mat_vec M x).

(** The spatial inertia of a unit point mass at the origin of the link
    frame: no rotational inertia, mass 1.  It is symmetric and positive
    semidefinite. *)
Definition G_point_mass : Mat6 R := mkMat6 m3zero m3zero m3zero m3id.
Definition Glist_pm : list (Mat6 R) := [G_point_mass].

(** An exact solver for 1 x 1 systems. *)
Definition solve_1x1 (M : list (list R)) (b : list R) : list R :=
  [at_ b 0 / entry M 0 0].

(** The difference of two 4x4 matrices. *)
Definition m4sub (A B : Mat4 R) : Mat4 R :=
  mkMat4 (m3sub (rot A) (rot B)) (v3sub (pos A) (pos B)) (v3sub (bot A) (bot B))
         (crn A - crn B).


(** Rodrigues' formula [I + s K + (1 - c) K^2] on [K = t [omg]]. *)
Definition rodrigues (x y z t s c : R) : Mat3 R :=
  let K := m3scale t (VecToso3 (mkVec3 x y z)) in
  m3add (m3add m3id (m3scale s K)) (m3scale (1 - c) (m3mul K K)).

(** For a unit axis and [s^2 + c^2 = 1] it gives a rotation matrix. *)
Definition rodrigues_rotation_statement (x y z t s c : R) : Prop :=
  t * t * (x * x + y * y + z * z) = 1 -> s * s + c * c = 1 ->
  m3mul (m3trans (rodrigues x y z t s c)) (rodrigues x y z t s c) = m3id /\
  m3mul (rodrigues x y z t s c) (m3trans (rodrigues x y z t s c)) = m3id /\
  det3 (rodrigues x y z t s c) = 1.

(** The transform [T] of [JacobianSpace] when column [i] is written:
    the product [E_0 ... E_(i-1)] of the exponentials of the joints
    before joint [i]. *)
Definition poe_upto (Slist : list (Vec6 R)) (thetaList : list R) (i : nat) : Mat4 R :=
  fold_left (fun T j => m4mul T (joint_exp Slist thetaList j)) (seq 0 i) m4id.

(** The exponential of joint [j] backwards:
    [MatrixExp6(VecTose3(-1 * Blist.col(j) * thetaList(j)))]. *)
Definition joint_exp_back (Blist : list (Vec6 R)) (thetaList : list R) (j : nat) : Mat4 R :=
  MatrixExp6 (VecTose3 (v6scale (-1) (v6scale (at_ thetaList j) (col Blist j)))).

(** The transform [T] of [JacobianBody] when column [i] is written: the
    product [E'_(n-1) ... E'_(i+1)] of the backward exponentials of the
    joints after joint [i], the last joint leftmost. *)
Definition poe_down_to (Blist : list (Vec6 R)) (thetaList : list R) (i : nat) : Mat4 R :=
  fold_left (fun T j => m4mul T (joint_exp_back Blist thetaList (j + 1)))
    (rev (seq i (length thetaList - 1 - i))) m4id.

(** ** Trajectories

    [N] and [method] are C++ [int]s.  A trajectory is the list of its [N]
    points in time order: the rows of the matrix [JointTrajectory]
    returns, the elements of the vector the other two return.  Every
    point is written once, by the loop iteration of its index. *)

(** [JointTrajectory]: row [i] is [st * thetaend + (1 - st) * thetastart]. *)
Definition JointTrajectory (thetastart thetaend : list R) (Tf : R) (N : nat) (method : Z)
    : list (list R) :=
  let timegap := Tf / IZR (Z.of_nat N - 1) in
  map (fun i =>
         let st := if (method =? 3)%Z then CubicTimeScaling Tf (timegap * INR i)
                   else QuinticTimeScaling Tf (timegap * INR i) in
         vnadd (vnscale st thetaend) (vnscale (1 - st) thetastart))
      (seq 0 N).

(** [ScrewTrajectory]: point [i] is
    [Xstart * MatrixExp6(MatrixLog6(TransInv(Xstart) * Xend) * st)].
    [timegap] is a quotient by [N - 1] and the time scaling one by [Tf]:
    the points are those of the code for [N >= 2] and [Tf > 0], when
    [MatrixLog6] is in its domain; at [N = 1] or [Tf = 0] the code
    divides by zero. *)
Definition ScrewTrajectory (Xstart Xend : Mat4 R) (Tf : R) (N : nat) (method : Z)
    : list (Mat4 R) :=
  let timegap := Tf / IZR (Z.of_nat N - 1) in
  map (fun i =>
         let st := if (method =? 3)%Z then CubicTimeScaling Tf (timegap * INR i)
                   else QuinticTimeScaling Tf (timegap * INR i) in
         let Ttemp := MatrixLog6 (m4mul (TransInv Xstart) Xend) in
         m4mul Xstart (MatrixExp6 (m4scale st Ttemp)))
      (seq 0 N).

(** [CartesianTrajectory]: the rotation follows the geodesic from
    [Rstart] to [Rend], the origin the straight line from [pstart] to
    [pend].  As for [ScrewTrajectory], the points are those of the code
    for [N >= 2] and [Tf > 0], when [MatrixLog3] is in its domain. *)
Definition CartesianTrajectory (Xstart Xend : Mat4 R) (Tf : R) (N : nat) (method : Z)
    : list (Mat4 R) :=
  let timegap := Tf / IZR (Z.of_nat N - 1) in
  let Rpstart := TransToRp Xstart in
  let Rpend := TransToRp Xend in
  let Rstart := fst Rpstart in
  let pstart := snd Rpstart in
  let Rend := fst Rpend in
  let pend := snd Rpend in
  map (fun i =>
         let st := if (method =? 3)%Z then CubicTimeScaling Tf (timegap * INR i)
                   else QuinticTimeScaling Tf (timegap * INR i) in
         let Ri := m3mul Rstart
                     (MatrixExp3 (m3scale st (MatrixLog3 (m3mul (m3trans Rstart) Rend)))) in
         let pi := v3add (v3scale st pend) (v3scale (1 - st) pstart) in
         mkMat4 Ri pi v3zero 1)
      (seq 0 N).

(** For a rotation matrix [Rm], the square of [Rm - Rmt] is
    [(tr Rm + 1) (Rm + Rmt - 2 I)], and the squared length of the axis
    vector of [Rm - Rmt] is [(3 - tr Rm) (1 + tr Rm)]. *)
Definition rotation_skew_part_statement (Rm : Mat3 R) : Prop :=
  m3mul (m3trans Rm) Rm = m3id -> det3 Rm = 1 ->
  m3mul (m3trans (m3trans Rm)) (m3trans Rm) = m3id /\
  m3mul (m3sub Rm (m3trans Rm)) (m3sub Rm (m3trans Rm))
  = m3scale (trace3 Rm + 1) (m3sub (m3add Rm (m3trans Rm)) (m3scale 2 m3id)) /\
  dot3 (so3ToVec (m3sub Rm (m3trans Rm))) (so3ToVec (m3sub Rm (m3trans Rm)))
  = (3 - trace3 Rm) * (1 + trace3 Rm).

(** The matrix [expExpand] of [MatrixExp6] and the matrix [logExpand] of
    [MatrixLog6], for a matrix [W] of so(3) of angle [th], with the
    inverses [ith] of [th], [it] of [tan (th / 2)] and [h] of 2. *)
Definition expExpand_of (W : Mat3 R) (th ith s c : R) : Mat3 R :=
  m3add (m3add (m3scale th m3id) (m3scale (1 - c) (m3scale ith W)))
        (m3scale (th - s) (m3mul (m3scale ith W) (m3scale ith W))).

Definition logExpand_of (W : Mat3 R) (ith it h : R) : Mat3 R :=
  m3add (m3sub m3id (m3scale h W))
        (m3scale ith (m3scale (1 * ith - 1 * it * h) (m3mul W W))).

(** The two are inverse to each other, up to the factor [ith] the code
    applies to [expExpand]. *)
Definition expExpand_logExpand_statement (w p : Vec3 R) (th ith s c t it h : R) : Prop :=
  dot3 w w = th * th -> th * ith = 1 -> t * it = 1 -> 2 * h = 1 ->
  s * s + c * c = 1 -> t * s = 1 - c -> t * (1 + c) = s ->
  v3scale ith (m3vec (expExpand_of (VecToso3 w) th ith s c)
                     (m3vec (logExpand_of (VecToso3 w) ith it h) p)) = p /\
  m3vec (logExpand_of (VecToso3 w) ith it h)
        (v3scale ith (m3vec (expExpand_of (VecToso3 w) th ith s c) p)) = p.

(** Rotation by a quarter turn about the z axis. *)
Definition R_quarter_turn : Mat3 R :=
  mkMat3 0 (-1) 0
         1 0 0
         0 0 1.

(** ** Fixed-point intervals

    An interval [[ilo, ihi]] of integers stands for the real numbers [r]
    with [ilo <= r * scale <= ihi].  Sums and differences are exact;
    products, quotients and roots are rounded outwards. *)

Definition scale : Z := Eval cbv in (10 ^ 20)%Z.

Record itv : Type := mkItv { ilo : Z; ihi : Z }.

Definition encloses (x : itv) (r : R) : Prop :=
  IZR (ilo x) <= r * IZR scale <= IZR (ihi x).

(** Division rounded up. *)
Definition cdiv (a b : Z) : Z := (- ((- a) / b))%Z.

Definition iZ (z : Z) : itv := mkItv (z * scale) (z * scale).

Definition iQ (q : QArith_base.Q) : itv :=
  mkItv (QArith_base.Qnum q * scale / Zpos (QArith_base.Qden q))
        (cdiv (QArith_base.Qnum q * scale) (Zpos (QArith_base.Qden q))).

Definition iadd (x y : itv) : itv := mkItv (ilo x + ilo y) (ihi x + ihi y).
Definition isub (x y : itv) : itv := mkItv (ilo x - ihi y) (ihi x - ilo y).
Definition iopp (x : itv) : itv := mkItv (- ihi x) (- ilo x).

Definition imul (x y : itv) : itv :=
  let p1 := (ilo x * ilo y)%Z in
  let p2 := (ilo x * ihi y)%Z in
  let p3 := (ihi x * ilo y)%Z in
  let p4 := (ihi x * ihi y)%Z in
  mkItv (Z.min (Z.min p1 p2) (Z.min p3 p4) / scale)
        (cdiv (Z.max (Z.max p1 p2) (Z.max p3 p4)) scale).

(** The inverse of an interval of positive numbers. *)
Definition iinv (x : itv) : itv :=
  mkItv (scale * scale / ihi x) (cdiv (scale * scale) (ilo x)).

(** The square root; a negative lower bound counts as zero. *)
Definition isqrt (x : itv) : itv :=
  mkItv (Z.sqrt (Z.max 0 (ilo x) * scale)) (Z.sqrt (ihi x * scale) + 1).

#[export] Instance itv_scalar : Scalar itv :=
  {| s0 := iZ 0; s1 := iZ 1; sadd := iadd; ssub := isub; smul := imul; sopp := iopp |}.

(** Sine and cosine on [0, 1], between the Taylor polynomials of degree
    7 and 9, respectively 6 and 8, in Horner form. *)
Definition ifrac (k : positive) : itv := iQ (QArith_base.Qmake 1 k).

Definition isin_lb (x : itv) : itv :=
  imul x (isub (iZ 1) (imul (imul x x) (isub (ifrac 6)
    (imul (imul x x) (isub (ifrac 120) (imul (imul x x) (ifrac 5040))))))).

Definition isin_ub (x : itv) : itv :=
  imul x (isub (iZ 1) (imul (imul x x) (isub (ifrac 6)
    (imul (imul x x) (isub (ifrac 120)
       (imul (imul x x) (isub (ifrac 5040) (imul (imul x x) (ifrac 362880))))))))).

Definition icos_lb (x : itv) : itv :=
  isub (iZ 1) (imul (imul x x) (isub (ifrac 2)
    (imul (imul x x) (isub (ifrac 24) (imul (imul x x) (ifrac 720)))))).

Definition icos_ub (x : itv) : itv :=
  isub (iZ 1) (imul (imul x x) (isub (ifrac 2)
    (imul (imul x x) (isub (ifrac 24)
       (imul (imul x x) (isub (ifrac 720) (imul (imul x x) (ifrac 40320)))))))).

Definition isin (x : itv) : itv := mkItv (ilo (isin_lb x)) (ihi (isin_ub x)).
Definition icos (x : itv) : itv := mkItv (ilo (icos_lb x)) (ihi (icos_ub x)).

(** An interval vector or matrix encloses a real one entry by entry. *)
Definition enc3 (x : Vec3 itv) (r : Vec3 R) : Prop :=
  encloses (v0 x) (v0 r) /\ encloses (v1 x) (v1 r) /\ encloses (v2 x) (v2 r).

Definition encM3 (x : Mat3 itv) (r : Mat3 R) : Prop :=
  enc3 (row0 x) (row0 r) /\ enc3 (row1 x) (row1 r) /\ enc3 (row2 x) (row2 r).

Definition enc6 (x : Vec6 itv) (r : Vec6 R) : Prop :=
  enc3 (ang x) (ang r) /\ enc3 (lin x) (lin r).

Definition encM6 (x : Mat6 itv) (r : Mat6 R) : Prop :=
  encM3 (tl x) (tl r) /\ encM3 (tr x) (tr r) /\ encM3 (bl x) (bl r) /\ encM3 (br x) (br r).

Definition encM4 (x : Mat4 itv) (r : Mat4 R) : Prop :=
  encM3 (rot x) (rot r) /\ enc3 (pos x) (pos r) /\ enc3 (bot x) (bot r)
  /\ encloses (crn x) (crn r).

(** ** The exponentials on intervals *)

Definition norm3I (v : Vec3 itv) : itv := isqrt (dot3 v v).

Definition fnorm3I (A : Mat3 itv) : itv :=
  isqrt (iadd (iadd (dot3 (row0 A) (row0 A)) (dot3 (row1 A) (row1 A)))
              (dot3 (row2 A) (row2 A))).

Definition MatrixExp3I (so3mat : Mat3 itv) : Mat3 itv :=
  let omgtheta := so3ToVec so3mat in
  let theta := norm3I omgtheta in
  let omgmat := m3scale (imul (iZ 1) (iinv theta)) so3mat in
  m3add (m3add m3id (m3scale (isin theta) omgmat))
        (m3scale (isub (iZ 1) (icos theta)) (m3mul omgmat omgmat)).

Definition MatrixExp6I (se3mat : Mat4 itv) : Mat4 itv :=
  let se3mat_cut := rot se3mat in
  let omgtheta := so3ToVec se3mat_cut in
  let theta := norm3I omgtheta in
  let omgmat := m3scale (iinv theta) (rot se3mat) in
  let expExpand :=
    m3add (m3add (m3scale theta m3id) (m3scale (isub (iZ 1) (icos theta)) omgmat))
          (m3scale (isub theta (isin theta)) (m3mul omgmat omgmat)) in
  let linear := pos se3mat in
  let GThetaV := v3scale (iinv theta) (m3vec expExpand linear) in
  mkMat4 (MatrixExp3I se3mat_cut) GThetaV v3zero (iZ 1).

(** The rotation angle is at least 1e-6, so that neither exponential
    takes its [NearZero] branch, and at most 1, where [isin] and [icos]
    are sound. *)
Definition exp6_ok (se3mat : Mat4 itv) : bool :=
  let theta := norm3I (so3ToVec (rot se3mat)) in
  (100000000000000 <=? ilo theta)%Z && (ihi theta <=? scale)%Z
  && (100000000000000 <=? ilo (fnorm3I (rot se3mat)))%Z.

(** ** The Newton-Euler recurrences on intervals *)

Section RecurrenceI.
Variables (A : nat -> Vec6 itv) (AdT : nat -> Mat6 itv) (G : nat -> Mat6 itv).
Variables (dth ddth : nat -> itv) (g : Vec3 itv) (Ftip : Vec6 itv).

Fixpoint twistI (i : nat) : Vec6 itv :=
  match i with
  | O => v6zero
  | S j => v6add (m6vec (AdT j) (twistI j)) (v6scale (dth j) (A j))
  end.

Fixpoint accelI (i : nat) : Vec6 itv :=
  match i with
  | O => mkVec6 v3zero (v3opp g)
  | S j =>
      v6add (v6add (m6vec (AdT j) (accelI j)) (v6scale (ddth j) (A j)))
            (v6scale (dth j) (m6vec (ad (twistI (S j))) (A j)))
  end.

Fixpoint wrenchI (k j : nat) : Vec6 itv :=
  match k with
  | O => Ftip
  | S k' =>
      v6sub (v6add (m6vec (m6trans (AdT (j + 1))) (wrenchI k' (j + 1)))
                   (m6vec (G j) (accelI (j + 1))))
            (m6vec (m6trans (ad (twistI (j + 1)))) (m6vec (G j) (twistI (j + 1))))
  end.

Definition torqueI (n i : nat) : itv := dot6 (wrenchI (n - i) i) (A i).
End RecurrenceI.

Section FramesI.
Variables (thetalist : list itv) (Mlist : list (Mat4 itv)) (Slist : list (Vec6 itv)).

Definition Mi_atI (k : nat) : Mat4 itv :=
  fold_left (fun T i => m4mul T (nth i Mlist m4zero)) (seq 0 k) m4id.

Definition A_atI (i : nat) : Vec6 itv :=
  m6vec (Adjoint (TransInv (Mi_atI (S i)))) (nth i Slist v6zero).

Definition AdT_atI (i : nat) : Mat6 itv :=
  if (i <? length thetalist)%nat then
    Adjoint (m4mul (MatrixExp6I (VecTose3 (v6scale (iopp (nth i thetalist (iZ 0))) (A_atI i))))
                   (TransInv (nth i Mlist m4zero)))
  else if (i =? length thetalist)%nat then
    Adjoint (TransInv (nth (length thetalist) Mlist m4zero))
  else m6zero.
End FramesI.

(** ** The fixture of [MRTest.InverseDynamicsTest]

    The inputs of the test, as [lib_test.cpp] writes them. *)
Definition fixture_thetalist : list R := [0.1; 0.1; 0.1].
Definition fixture_dthetalist : list R := [0.1; 0.2; 0.3].
Definition fixture_ddthetalist : list R := [2; 1.5; 1].
Definition fixture_g : Vec3 R := mkVec3 0 0 (-9.8).
Definition fixture_Ftip : Vec6 R := mkVec6 (mkVec3 1 1 1) (mkVec3 1 1 1).

Definition fixture_M01 : Mat4 R :=
  mkMat4 (mkMat3 1 0 0
                 0 1 0
                 0 0 1) (mkVec3 0 0 0.089159) (mkVec3 0 0 0) 1.
Definition fixture_M12 : Mat4 R :=
  mkMat4 (mkMat3 0 0 1
                 0 1 0
                 (-1) 0 0) (mkVec3 0.28 0.13585 0) (mkVec3 0 0 0) 1.
Definition fixture_M23 : Mat4 R :=
  mkMat4 (mkMat3 1 0 0
                 0 1 0
                 0 0 1) (mkVec3 0 (-0.1197) 0.395) (mkVec3 0 0 0) 1.
Definition fixture_M34 : Mat4 R :=
  mkMat4 (mkMat3 1 0 0
                 0 1 0
                 0 0 1) (mkVec3 0 0 0.14225) (mkVec3 0 0 0) 1.
Definition fixture_Mlist : list (Mat4 R) :=
  [fixture_M01; fixture_M12; fixture_M23; fixture_M34].

(** [G.asDiagonal()] for a 6-vector [G]. *)
Definition asDiagonal {S : Type} {SS : Scalar S} (d0 d1 d2 d3 d4 d5 : S) : Mat6 S :=
  mkMat6 (mkMat3 d0 s0 s0 s0 d1 s0 s0 s0 d2) m3zero
         m3zero (mkMat3 d3 s0 s0 s0 d4 s0 s0 s0 d5).

Definition fixture_Glist : list (Mat6 R) :=
  [asDiagonal 0.010267 0.010267 0.00666 3.7 3.7 3.7;
   asDiagonal 0.22689 0.22689 0.0151074 8.393 8.393 8.393;
   asDiagonal 0.0494433 0.0494433 0.004095 2.275 2.275 2.275].

(** The columns of [Slist], that is the rows of [SlistT]. *)
Definition fixture_Slist : list (Vec6 R) :=
  [mkVec6 (mkVec3 1 0 1) (mkVec3 0 1 0);
   mkVec6 (mkVec3 0 1 0) (mkVec3 (-0.089) 0 0);
   mkVec6 (mkVec3 0 1 0) (mkVec3 (-0.089) 0 0.425)].

(** The vector the test compares the torques with. *)
Definition fixture_result : list R := [74.6962; -33.0677; -3.23057].

(** [b] is [a] within the relative tolerance [tol]. *)
Definition within_relative (tol a b : R) : Prop := Rabs (b - a) <= tol * Rabs a.

(** The same inputs as intervals. *)
Module FixtureI.
Import QArith_base.

Definition thetalist : list itv := [iQ 0.1; iQ 0.1; iQ 0.1].
Definition dthetalist : list itv := [iQ 0.1; iQ 0.2; iQ 0.3].
Definition ddthetalist : list itv := [iZ 2; iQ 1.5; iZ 1].
Definition g : Vec3 itv := mkVec3 (iZ 0) (iZ 0) (iQ (-9.8)).
Definition Ftip : Vec6 itv :=
  mkVec6 (mkVec3 (iZ 1) (iZ 1) (iZ 1)) (mkVec3 (iZ 1) (iZ 1) (iZ 1)).

Definition M01 : Mat4 itv :=
  mkMat4 (mkMat3 (iZ 1) (iZ 0) (iZ 0)
                 (iZ 0) (iZ 1) (iZ 0)
                 (iZ 0) (iZ 0) (iZ 1))
         (mkVec3 (iZ 0) (iZ 0) (iQ 0.089159)) (mkVec3 (iZ 0) (iZ 0) (iZ 0)) (iZ 1).
Definition M12 : Mat4 itv :=
  mkMat4 (mkMat3 (iZ 0) (iZ 0) (iZ 1)
                 (iZ 0) (iZ 1) (iZ 0)
                 (iZ (-1)) (iZ 0) (iZ 0))
         (mkVec3 (iQ 0.28) (iQ 0.13585) (iZ 0)) (mkVec3 (iZ 0) (iZ 0) (iZ 0)) (iZ 1).
Definition M23 : Mat4 itv :=
  mkMat4 (mkMat3 (iZ 1) (iZ 0) (iZ 0)
                 (iZ 0) (iZ 1) (iZ 0)
                 (iZ 0) (iZ 0) (iZ 1))
         (mkVec3 (iZ 0) (iQ (-0.1197)) (iQ 0.395)) (mkVec3 (iZ 0) (iZ 0) (iZ 0)) (iZ 1).
Definition M34 : Mat4 itv :=
  mkMat4 (mkMat3 (iZ 1) (iZ 0) (iZ 0)
                 (iZ 0) (iZ 1) (iZ 0)
                 (iZ 0) (iZ 0) (iZ 1))
         (mkVec3 (iZ 0) (iZ 0) (iQ 0.14225)) (mkVec3 (iZ 0) (iZ 0) (iZ 0)) (iZ 1).
Definition Mlist : list (Mat4 itv) := [M01; M12; M23; M34].

Definition Glist : list (Mat6 itv) :=
  [asDiagonal (iQ 0.010267) (iQ 0.010267) (iQ 0.00666) (iQ 3.7) (iQ 3.7) (iQ 3.7);
   asDiagonal (iQ 0.22689) (iQ 0.22689) (iQ 0.0151074) (iQ 8.393) (iQ 8.393) (iQ 8.393);
   asDiagonal (iQ 0.0494433) (iQ 0.0494433) (iQ 0.004095) (iQ 2.275) (iQ 2.275) (iQ 2.275)].

Definition Slist : list (Vec6 itv) :=
  [mkVec6 (mkVec3 (iZ 1) (iZ 0) (iZ 1)) (mkVec3 (iZ 0) (iZ 1) (iZ 0));
   mkVec6 (mkVec3 (iZ 0) (iZ 1) (iZ 0)) (mkVec3 (iQ (-0.089)) (iZ 0) (iZ 0));
   mkVec6 (mkVec3 (iZ 0) (iZ 1) (iZ 0)) (mkVec3 (iQ (-0.089)) (iZ 0) (iQ 0.425))].

(** The argument of the exponential of joint [i]. *)
Definition exp6_arg (i : nat) : Mat4 itv :=
  VecTose3 (v6scale (iopp (nth i thetalist (iZ 0))) (A_atI Mlist Slist i)).

(** The screw axes and the adjoint maps of the chain, computed once. *)
Definition A_tab : list (Vec6 itv) :=
  Eval vm_compute in map (A_atI Mlist Slist) (seq 0 3).
Definition AdT_tab : list (Mat6 itv) :=
  Eval vm_compute in map (AdT_atI thetalist Mlist Slist) (seq 0 4).

Definition A (i : nat) : Vec6 itv :=
  match nth_error A_tab i with Some x => x | None => A_atI Mlist Slist i end.
Definition AdT (i : nat) : Mat6 itv :=
  match nth_error AdT_tab i with
  | Some x => x
  | None => AdT_atI thetalist Mlist Slist i
  end.

(** The enclosure of torque [i]. *)
Definition tau (i : nat) : itv :=
  torqueI A AdT (fun i => nth i Glist m6zero)
    (fun i => nth i dthetalist (iZ 0)) (fun i => nth i ddthetalist (iZ 0))
    g Ftip 3 i.

(** [x] lies within [tol] relative to the decimal [c], all three at the
    scale of the intervals. *)
Definition within (c tol : Z) (x : itv) : bool :=
  ((c - tol <=? ilo x) && (ihi x <=? c + tol))%Z.
End FixtureI.

(** ** The quotients of [AxisAng6] as [float] computes them *)

(** The value of a [float] quotient [x / y] whose divisor [y] is a norm,
    hence never negative: the real quotient when [y] is not zero; over a
    zero divisor IEEE 754 gives an infinity with the sign of the
    numerator, and NaN when the numerator is zero too. *)
Inductive quotient : Type :=
  | Finite (q : R)
  | Infinite (negative : bool)
  | NotANumber.

Definition finite (q : quotient) : bool :=
  match q with Finite _ => true | _ => false end.

Definition fdiv (x y : R) : quotient :=
  if Req_dec_T y 0 then
    if Req_dec_T x 0 then NotANumber else Infinite (Rltb x 0)
  else Finite (x / y).

Definition v3map {A B : Type} (f : A -> B) (a : Vec3 A) : Vec3 B :=
  mkVec3 (f (v0 a)) (f (v1 a)) (f (v2 a)).
Definition v6map {A B : Type} (f : A -> B) (a : Vec6 A) : Vec6 B :=
  mkVec6 (v3map f (ang a)) (v3map f (lin a)).
Definition v3forall {A : Type} (P : A -> Prop) (a : Vec3 A) : Prop :=
  P (v0 a) /\ P (v1 a) /\ P (v2 a).
Definition v6forall {A : Type} (P : A -> Prop) (a : Vec6 A) : Prop :=
  v3forall P (ang a) /\ v3forall P (lin a).

(** [AxisAng6] with the six quotients of [expc6 / theta] kept as the code
    computes them: no test of [theta] comes before the division. *)
Definition AxisAng6_quotients (expc6 : Vec6 R) : Vec6 quotient * R :=
  let theta := norm3 (ang expc6) in
  let theta := if NearZero theta then norm3 (lin expc6) else theta in
  (v6map (fun x => fdiv x theta) expc6, theta).

(** ** Where the logarithms leave the reals *)

(** The error transform of the inverse kinematics,
    [Tdiff = TransInv(Tfk) * T]. *)
Definition Tdiff_body (Blist : list (Vec6 R)) (M T : Mat4 R) (thetalist : list R)
    : Mat4 R :=
  m4mul (TransInv (FKinBody M Blist thetalist)) T.

Definition Tdiff_space (Slist : list (Vec6 R)) (M T : Mat4 R) (thetalist : list R)
    : Mat4 R :=
  m4mul (TransInv (FKinSpace M Slist thetalist)) T.

(** The argument [(trace - 1) / 2] that [MatrixLog3] and [MatrixLog6]
    pass to [std::acos] is above -1: the rotation block is clear of a
    half turn.  [MatrixLog3] then takes its first or its last branch, and
    [MatrixLog6] calls [std::acos] inside its domain, if at all.  At -1
    or below, [MatrixLog3] takes its branch for a half turn, and below -1
    the unguarded [std::acos] of [MatrixLog6] returns NaN, where [acos]
    over the reals still has a value. *)
Definition clear_of_half_turn (Rm : Mat3 R) : Prop := -1 < (trace3 Rm - 1) / 2.

(** A chain of one revolute joint about z, and a target half a turn
    about z from the home pose whose entry (1, 1) is off by 4e-4:
    [TestIfSE3] accepts it, and the trace of its rotation block is
    -1.0004. *)
Definition Blist_revolute : list (Vec6 R) := [mkVec6 (mkVec3 0 0 1) v3zero].

Definition T_half_turn : Mat4 R :=
  mkMat4 (mkMat3 (-1) 0 0
                 0 (-1.0004) 0
                 0 0 1)
         v3zero v3zero 1.

(** A chain of one prismatic joint along x, a target one unit along x
    from the home pose, and the least-squares solution of
    [Jb * dtheta = V] for the single column [Jb = (0, 0, 0, 1, 0, 0)]. *)
Definition Blist_prismatic : list (Vec6 R) := [mkVec6 v3zero (mkVec3 1 0 0)].

Definition T_slide : Mat4 R := RpToTrans m3id (mkVec3 1 0 0).

Definition solve_prismatic (J : list (Vec6 R)) (V : Vec6 R) : list R := [v0 (lin V)].

(** The radicand [2 * (1 + R(i, i))] under the square root of the branch
    of [MatrixLog3] for a half turn (lines 121-125) is positive, so that
    [std::sqrt] and the division by it have real values. *)
Definition MatrixLog3_in_domain (Rm : Mat3 R) : Prop :=
  (trace3 Rm - 1) / 2 <= -1 -> 0 < 2 * (1 + diag3 Rm (MatrixLog3_pivot Rm)).

(** * Properties *)

(** ** Comparisons and norms *)

Lemma Rltb_true (x y : R) : Rltb x y = true <-> x < y.
Proof. unfold Rltb. destruct (Rlt_dec x y); split; intros; auto; discriminate. Qed.

Lemma Rltb_false (x y : R) : Rltb x y = false <-> y <= x.
Proof.
  unfold Rltb. destruct (Rlt_dec x y); split; intros; auto; try discriminate; lra.
Qed.

Lemma Rleb_true (x y : R) : Rleb x y = true <-> x <= y.
Proof. unfold Rleb. destruct (Rle_dec x y); split; intros; auto; discriminate. Qed.

Lemma Rleb_false (x y : R) : Rleb x y = false <-> y < x.
Proof.
  unfold Rleb. destruct (Rle_dec x y); split; intros; auto; try discriminate; lra.
Qed.

Lemma NearZero_true (x : R) : NearZero x = true <-> Rabs x < 0.000001.
Proof. apply Rltb_true. Qed.

Lemma NearZero_false (x : R) : NearZero x = false <-> 0.000001 <= Rabs x.
Proof. apply Rltb_false. Qed.

Lemma NearZero_0 : NearZero 0 = true.
Proof. apply NearZero_true. rewrite Rabs_R0. lra. Qed.

Lemma dot3_nonneg (v : Vec3 R) : 0 <= dot3 v v.
Proof. destruct v as [a b c]. unfold dot3; simpl. nra. Qed.

Lemma norm3_nonneg (v : Vec3 R) : 0 <= norm3 v.
Proof. apply sqrt_pos. Qed.

Lemma norm3_zero : norm3 v3zero = 0.
Proof.
  unfold norm3, dot3; simpl.
  replace (0 * 0 + 0 * 0 + 0 * 0) with 0 by ring. apply sqrt_0.
Qed.

Lemma norm3_eq_0 (v : Vec3 R) : norm3 v = 0 -> v = v3zero.
Proof.
  intros Hn. unfold norm3 in Hn.
  apply sqrt_eq_0 in Hn; [| apply dot3_nonneg].
  destruct v as [a b c]. unfold dot3 in Hn; simpl in Hn.
  assert (a = 0) by nra. assert (b = 0) by nra. assert (c = 0) by nra.
  subst. reflexivity.
Qed.

Lemma fnorm3_nonneg (A : Mat3 R) : 0 <= fnorm3 A.
Proof. apply sqrt_pos. Qed.

(** ** Time scaling *)

(** C9.  For every [Tf > 0] both time scalings are 0 at [t = 0] and 1 at
    [t = Tf], and at every [t] they are the polynomials [3 r^2 - 2 r^3]
    and [10 r^3 - 15 r^4 + 6 r^5] in [r = t / Tf]. *)
Theorem time_scaling_boundary_values (Tf : R) :
  0 < Tf ->
  CubicTimeScaling Tf 0 = 0 /\ CubicTimeScaling Tf Tf = 1 /\
  QuinticTimeScaling Tf 0 = 0 /\ QuinticTimeScaling Tf Tf = 1 /\
  (forall t, CubicTimeScaling Tf t = 3 * (t / Tf) ^ 2 - 2 * (t / Tf) ^ 3) /\
  (forall t, QuinticTimeScaling Tf t
             = 10 * (t / Tf) ^ 3 - 15 * (t / Tf) ^ 4 + 6 * (t / Tf) ^ 5).
Proof.
  intros HTf.
  assert (Hr : forall t, 1.0 * t / Tf = t / Tf) by (intros t; lra).
  assert (H0 : 0 / Tf = 0) by (unfold Rdiv; ring).
  assert (H1 : Tf / Tf = 1) by (field; lra).
  unfold CubicTimeScaling, QuinticTimeScaling.
  repeat split; intros; rewrite ?Hr, ?H0, ?H1; try reflexivity; ring.
Qed.

Lemma time_scaling_boundary_values_witness :
  CubicTimeScaling 2 0 = 0 /\ CubicTimeScaling 2 2 = 1 /\
  QuinticTimeScaling 2 0 = 0 /\ QuinticTimeScaling 2 2 = 1.
Proof.
  destruct (time_scaling_boundary_values (Tf := 2)) as (A & B & C & D & _); [lra |].
  repeat split; assumption.
Defined.

(** ** Distance to SO(3) *)

(** C8.  With a determinant that is not positive [DistanceToSO3] returns
    the sentinel 1.0e9, which is at least 1e8, and [TestIfSO3] is false;
    with a positive determinant it returns the Frobenius norm of
    [Mt M - I], and [TestIfSO3] holds exactly when that distance is below
    1e-3. *)
Theorem DistanceToSO3_sentinel (M : Mat3 R) :
  (det3 M <= 0 ->
     DistanceToSO3 M = 1.0e9 /\ 1e8 <= DistanceToSO3 M /\ TestIfSO3 M = false) /\
  (0 < det3 M ->
     DistanceToSO3 M = fnorm3 (m3sub (m3mul (m3trans M) M) m3id) /\
     (TestIfSO3 M = true <-> DistanceToSO3 M < 1e-3)).
Proof.
  split; intros Hdet.
  - assert (Hd : DistanceToSO3 M = 1.0e9).
    { unfold DistanceToSO3. apply Rltb_false in Hdet. now rewrite Hdet. }
    split; [exact Hd |]. split; [rewrite Hd; lra |].
    unfold TestIfSO3. rewrite Hd. apply Rltb_false.
    rewrite Rabs_pos_eq; lra.
  - assert (Hd : DistanceToSO3 M = fnorm3 (m3sub (m3mul (m3trans M) M) m3id)).
    { unfold DistanceToSO3. apply Rltb_true in Hdet. now rewrite Hdet. }
    split; [exact Hd |].
    unfold TestIfSO3. rewrite Hd, Rabs_pos_eq by apply fnorm3_nonneg.
    apply Rltb_true.
Qed.

Lemma DistanceToSO3_sentinel_witness :
  (DistanceToSO3 m3zero = 1.0e9 /\ TestIfSO3 m3zero = false) /\
  DistanceToSO3 m3id = fnorm3 (m3sub (m3mul (m3trans m3id) m3id) m3id).
Proof.
  destruct (DistanceToSO3_sentinel m3zero) as [Hneg _].
  destruct (DistanceToSO3_sentinel m3id) as [_ Hpos].
  split.
  - destruct Hneg as (A & _ & B); [unfold det3; simpl; lra | now split].
  - apply Hpos. unfold det3; simpl; lra.
Defined.

(** ** Exponential coordinates *)

Lemma fdiv_nonzero (x y : R) : y <> 0 -> fdiv x y = Finite (x / y).
Proof. intros H. unfold fdiv. destruct (Req_dec_T y 0); [contradiction | reflexivity]. Qed.

Lemma fdiv_zero (x : R) : finite (fdiv x 0) = false.
Proof.
  unfold fdiv. destruct (Req_dec_T 0 0) as [_ | H]; [| now destruct H].
  now destruct (Req_dec_T x 0).
Qed.

Lemma fdiv_zero_zero : fdiv 0 0 = NotANumber.
Proof.
  unfold fdiv. destruct (Req_dec_T 0 0) as [_ | H]; [| now destruct H]. reflexivity.
Qed.

Lemma AxisAng6_theta (expc6 : Vec6 R) :
  (0.000001 <= norm3 (ang expc6) -> snd (AxisAng6 expc6) = norm3 (ang expc6)) /\
  (norm3 (ang expc6) < 0.000001 -> snd (AxisAng6 expc6) = norm3 (lin expc6)).
Proof.
  unfold AxisAng6; cbn [snd].
  destruct (NearZero (norm3 (ang expc6))) eqn:Hnz.
  - apply NearZero_true in Hnz.
    rewrite Rabs_pos_eq in Hnz by apply norm3_nonneg.
    split; [lra | reflexivity].
  - apply NearZero_false in Hnz.
    rewrite Rabs_pos_eq in Hnz by apply norm3_nonneg.
    split; [reflexivity | lra].
Qed.

(** C10.  [AxisAng6] returns as [theta] the norm of the angular part, or
    the norm of the linear part when the angular norm is below 1e-6, and
    divides each of the six entries by [theta] with no test of [theta]
    before the division.  When the angular norm is at least 1e-6 or the
    linear part is not zero, [theta] is not zero, the six quotients are
    real numbers and multiplying them by [theta] gives the input back.
    When the angular norm is below 1e-6 and the linear part is zero,
    [theta] is zero and none of the six quotients is a finite number: the
    three linear ones are NaN; for the zero 6-vector all six are. *)
Theorem AxisAng6_divisor (expc6 : Vec6 R) :
  let theta := snd (AxisAng6 expc6) in
  (snd (AxisAng6_quotients expc6) = theta
   /\ fst (AxisAng6_quotients expc6) = v6map (fun x => fdiv x theta) expc6)
  /\ (0.000001 <= norm3 (ang expc6) -> theta = norm3 (ang expc6))
  /\ (norm3 (ang expc6) < 0.000001 -> theta = norm3 (lin expc6))
  /\ (0.000001 <= norm3 (ang expc6) \/ lin expc6 <> v3zero ->
      theta <> 0
      /\ fst (AxisAng6_quotients expc6) = v6map Finite (fst (AxisAng6 expc6))
      /\ v6scale theta (fst (AxisAng6 expc6)) = expc6)
  /\ (norm3 (ang expc6) < 0.000001 -> lin expc6 = v3zero ->
      theta = 0
      /\ v6forall (fun q => finite q = false) (fst (AxisAng6_quotients expc6))
      /\ lin (fst (AxisAng6_quotients expc6)) = mkVec3 NotANumber NotANumber NotANumber)
  /\ AxisAng6_quotients v6zero
     = (mkVec6 (mkVec3 NotANumber NotANumber NotANumber)
               (mkVec3 NotANumber NotANumber NotANumber), 0).
Proof.
  cbv zeta.
  destruct (AxisAng6_theta expc6) as [Hbig Hsmall].
  assert (Hq : AxisAng6_quotients expc6
               = (v6map (fun x => fdiv x (snd (AxisAng6 expc6))) expc6, snd (AxisAng6 expc6)))
    by reflexivity.
  assert (Hnz : 0.000001 <= norm3 (ang expc6) \/ lin expc6 <> v3zero ->
                snd (AxisAng6 expc6) <> 0).
  { intros [Hb | Hl].
    - rewrite (Hbig Hb). lra.
    - destruct (Rlt_le_dec (norm3 (ang expc6)) 0.000001) as [Hs | Hb].
      + rewrite (Hsmall Hs). intros H0. apply Hl. now apply norm3_eq_0.
      + rewrite (Hbig Hb). lra. }
  split; [now rewrite Hq | ].
  split; [exact Hbig |].
  split; [exact Hsmall |].
  split; [| split].
  - intros Hdom. pose proof (Hnz Hdom) as Ht.
    split; [exact Ht |]. split.
    + rewrite Hq. cbn [fst]. unfold v6map, v3map.
      rewrite !(fdiv_nonzero _ Ht). reflexivity.
    + unfold AxisAng6 in *. cbn [fst snd] in *.
      destruct expc6 as [[w0 w1 w2] [x0 x1 x2]]. cbn [ang lin v0 v1 v2] in *.
      unfold v6scale, v3scale. cbn [ang lin v0 v1 v2 smul R_scalar].
      f_equal; f_equal; field; exact Ht.
  - intros Hs Hl.
    assert (Ht : snd (AxisAng6 expc6) = 0).
    { rewrite (Hsmall Hs), Hl. apply norm3_zero. }
    split; [exact Ht |].
    rewrite Hq, Ht. cbn [fst]. unfold v6map, v3map, v6forall, v3forall.
    cbn [ang lin v0 v1 v2]. rewrite Hl. cbn [v3zero v0 v1 v2 s0 R_scalar].
    rewrite !fdiv_zero, fdiv_zero_zero. repeat split; reflexivity.
  - unfold AxisAng6_quotients. cbn [ang lin v6zero].
    rewrite norm3_zero, NearZero_0.
    unfold v6map, v3map. cbn [ang lin v6zero v3zero v0 v1 v2 s0 R_scalar].
    rewrite fdiv_zero_zero. reflexivity.
Qed.

Lemma AxisAng6_divisor_witness :
  snd (AxisAng6 (mkVec6 v3zero (mkVec3 0 2 0))) = norm3 (mkVec3 0 2 0) /\
  v6scale (snd (AxisAng6 (mkVec6 v3zero (mkVec3 0 2 0))))
          (fst (AxisAng6 (mkVec6 v3zero (mkVec3 0 2 0))))
  = mkVec6 v3zero (mkVec3 0 2 0) /\
  snd (AxisAng6 (mkVec6 (mkVec3 0 0 0) v3zero)) = 0.
Proof.
  destruct (AxisAng6_divisor (mkVec6 v3zero (mkVec3 0 2 0)))
    as (_ & _ & Hsmall & Hnz & _).
  destruct (AxisAng6_divisor (mkVec6 (mkVec3 0 0 0) v3zero))
    as (_ & _ & _ & _ & Hz & _).
  cbn [ang lin] in *.
  assert (Hs : norm3 (@v3zero R _) < 0.000001) by (rewrite norm3_zero; lra).
  split; [exact (Hsmall Hs) |]. split.
  - apply Hnz. right. intros H. apply (f_equal (@v1 R)) in H. simpl in H. lra.
  - apply Hz; [exact Hs | reflexivity].
Defined.

(** ** Matrix logarithm of a rotation *)

Lemma MatrixLog3_pi_regime (Rm : Mat3 R) :
  (trace3 Rm - 1) / 2 <= -1 ->
  MatrixLog3 Rm = VecToso3 (v3scale M_PI (pi_axis Rm (MatrixLog3_pivot Rm))).
Proof.
  intros Hc. unfold MatrixLog3, MatrixLog3_pivot.
  replace (Rleb 1 ((trace3 Rm - 1) / 2)) with false
    by (symmetry; apply Rleb_false; lra).
  replace (Rleb ((trace3 Rm - 1) / 2) (-1)) with true
    by (symmetry; now apply Rleb_true).
  destruct (NearZero (1 + a22 Rm)); simpl; [| reflexivity].
  destruct (NearZero (1 + a11 Rm)); reflexivity.
Qed.

(** C4, as the code has it.  [MatrixLog3] returns the zero matrix when
    [(trace R - 1) / 2 >= 1]; [theta / (2 sin theta) (R - Rt)] with
    [theta = acos ((trace R - 1) / 2)] when that value is strictly between
    -1 and 1; and when it is at most -1 the axis is built from column i of
    [I + R], divided by [sqrt (2 (1 + R(i, i)))], where i is the first of
    2, 1, 0 whose [1 + R(i, i)] is not below 1e-6 in absolute value (and 0
    when all three are). *)
Theorem MatrixLog3_regimes (Rm : Mat3 R) :
  let c := (trace3 Rm - 1) / 2 in
  (1 <= c -> MatrixLog3 Rm = m3zero) /\
  (-1 < c < 1 ->
     MatrixLog3 Rm = m3scale (acos c / (2 * sin (acos c))) (m3sub Rm (m3trans Rm))) /\
  (c <= -1 ->
     let i := MatrixLog3_pivot Rm in
     MatrixLog3 Rm = VecToso3 (v3scale M_PI (pi_axis Rm i)) /\
     (i <= 2)%nat /\
     (forall j, (i < j <= 2)%nat -> Rabs (1 + diag3 Rm j) < 0.000001) /\
     (i <> 0%nat -> 0.000001 <= Rabs (1 + diag3 Rm i))).
Proof.
  cbv zeta. split; [| split].
  - intros Hc. unfold MatrixLog3. apply Rleb_true in Hc. now rewrite Hc.
  - intros [Hlo Hhi]. unfold MatrixLog3.
    replace (Rleb 1 ((trace3 Rm - 1) / 2)) with false
      by (symmetry; apply Rleb_false; lra).
    replace (Rleb ((trace3 Rm - 1) / 2) (-1)) with false
      by (symmetry; apply Rleb_false; lra).
    f_equal. unfold Rdiv. rewrite Rinv_mult. ring.
  - intros Hc. split; [now apply MatrixLog3_pi_regime |].
    unfold MatrixLog3_pivot.
    destruct (NearZero (1 + a22 Rm)) eqn:H2; simpl.
    + destruct (NearZero (1 + a11 Rm)) eqn:H1; simpl.
      * split; [lia |]. split; [| intros H; now elim H].
        intros j Hj.
        assert (Hj' : j = 1%nat \/ j = 2%nat) by lia.
        destruct Hj' as [-> | ->]; simpl; now apply NearZero_true.
      * split; [lia |]. split; [| intros _; now apply NearZero_false].
        intros j Hj. assert (j = 2%nat) as -> by lia. simpl. now apply NearZero_true.
    + split; [lia |]. split; [intros j Hj; lia |].
      intros _. now apply NearZero_false.
Qed.

Lemma MatrixLog3_regimes_witness :
  MatrixLog3 m3id = m3zero /\
  MatrixLog3 R_half_turn = VecToso3 (v3scale M_PI (pi_axis R_half_turn 2)).
Proof.
  destruct (MatrixLog3_regimes m3id) as (Hzero & _ & _).
  destruct (MatrixLog3_regimes R_half_turn) as (_ & _ & Hpi).
  split.
  - apply Hzero. unfold trace3; simpl. lra.
  - destruct Hpi as (Hlog & _).
    + unfold trace3; simpl. lra.
    + replace (MatrixLog3_pivot R_half_turn) with 2%nat in Hlog; [exact Hlog |].
      unfold MatrixLog3_pivot; simpl.
      replace (NearZero (1 + -0.28)) with false; [reflexivity |].
      symmetry. apply NearZero_false. rewrite Rabs_pos_eq; lra.
Defined.

(** C4, as the claim states it, fails: [R_half_turn] is a rotation matrix
    in the [acosinput <= -1] regime for which the code builds the axis
    from diagonal index 2, although [1 + R(0, 0)] is farther from zero and
    gives the larger divisor. *)
Lemma MatrixLog3_pivot_not_farthest :
  m3mul (m3trans R_half_turn) R_half_turn = m3id /\
  det3 R_half_turn = 1 /\
  (trace3 R_half_turn - 1) / 2 <= -1 /\
  MatrixLog3_pivot R_half_turn = 2%nat /\
  MatrixLog3 R_half_turn = VecToso3 (v3scale M_PI (pi_axis R_half_turn 2)) /\
  Rabs (1 + diag3 R_half_turn 2) < Rabs (1 + diag3 R_half_turn 0) /\
  pi_divisor R_half_turn 2 < pi_divisor R_half_turn 0.
Proof.
  assert (Hpiv : MatrixLog3_pivot R_half_turn = 2%nat).
  { unfold MatrixLog3_pivot; simpl.
    replace (NearZero (1 + -0.28)) with false; [reflexivity |].
    symmetry. apply NearZero_false. rewrite Rabs_pos_eq; lra. }
  assert (Hc : (trace3 R_half_turn - 1) / 2 <= -1) by (unfold trace3; simpl; lra).
  repeat split.
  - unfold m3mul, m3trans, m3id, dot3; simpl. f_equal; lra.
  - unfold det3; simpl. lra.
  - exact Hc.
  - exact Hpiv.
  - rewrite <- Hpiv. now apply MatrixLog3_pi_regime.
  - simpl. rewrite !Rabs_pos_eq; lra.
  - unfold pi_divisor; simpl. apply sqrt_lt_1_alt. lra.
Qed.

(** ** Algebra of the fixed-size matrices over the reals *)

Ltac break_records :=
  repeat match goal with
         | x : Mat4 R |- _ => destruct x
         | x : Mat6 R |- _ => destruct x
         | x : Vec6 R |- _ => destruct x
         | x : Mat3 R |- _ => destruct x
         | x : Vec3 R |- _ => destruct x
         end.

Ltac split_records :=
  repeat match goal with
         | |- mkMat4 _ _ _ _ = mkMat4 _ _ _ _ => f_equal
         | |- mkMat6 _ _ _ _ = mkMat6 _ _ _ _ => f_equal
         | |- mkVec6 _ _ = mkVec6 _ _ => f_equal
         | |- mkMat3 _ _ _ _ _ _ _ _ _ = mkMat3 _ _ _ _ _ _ _ _ _ => f_equal
         | |- mkVec3 _ _ _ = mkVec3 _ _ _ => f_equal
         end.

Ltac eval_algebra :=
  cbv beta iota zeta delta
    [m4mul m4id m4zero m4scale m6vec m6trans m6zero v6add v6sub v6scale
     v6zero dot6 m3mul m3vec vec3m outer3 m3add m3sub m3scale m3trans m3id
     m3zero row0 row1 row2 col0 col1 col2 v3add v3sub v3opp v3scale v3zero
     dot3 cross3 trace3 det3 VecToso3 so3ToVec VecTose3 se3ToVec Adjoint ad
     TransInv TransToRp RpToTrans RotInv
     rot pos bot crn v0 v1 v2 a00 a01 a02 a10 a11 a12 a20 a21 a22
     ang lin tl tr bl br fst snd sadd ssub smul sopp s0 s1 R_scalar].

(** Equations between records that hold entry by entry in every
    commutative ring. *)
Ltac record_ring := intros; break_records; eval_algebra; split_records; ring.

Lemma m4mul_assoc (A B C : Mat4 R) : m4mul (m4mul A B) C = m4mul A (m4mul B C).
Proof. record_ring. Qed.

Lemma m4mul_id_l (A : Mat4 R) : m4mul m4id A = A.
Proof. record_ring. Qed.

Lemma m4mul_id_r (A : Mat4 R) : m4mul A m4id = A.
Proof. record_ring. Qed.

Lemma v6scale_1 (v : Vec6 R) : v6scale 1 v = v.
Proof. record_ring. Qed.

(** ** Forward kinematics *)

Lemma MatrixExp6_no_rotation (m : Mat4 R) :
  so3ToVec (rot m) = v3zero -> MatrixExp6 m = mkMat4 m3id (pos m) v3zero 1.
Proof.
  intros H. unfold MatrixExp6. rewrite H, norm3_zero, NearZero_0. reflexivity.
Qed.

Lemma fold_right_poe (E : nat -> Mat4 R) (M : Mat4 R) (l : list nat) :
  fold_right (fun i T => m4mul (E i) T) M l
  = m4mul (fold_right (fun i P => m4mul (E i) P) m4id l) M.
Proof.
  induction l as [| i l IH]; simpl.
  - now rewrite m4mul_id_l.
  - now rewrite IH, m4mul_assoc.
Qed.

(** C3, as the code has it.  [FKinSpace(M, Slist, thetaList)] is
    [exp([S_1] theta_1) ... exp([S_n] theta_n) M]: the loop runs from the
    last joint to the first and multiplies on the left, so the
    exponential of the first joint's screw axis is the leftmost factor. *)
Theorem FKinSpace_product (M : Mat4 R) (Slist : list (Vec6 R)) (thetaList : list R) :
  FKinSpace M Slist thetaList = m4mul (poe_first_leftmost Slist thetaList) M.
Proof.
  unfold FKinSpace, poe_first_leftmost.
  rewrite <- fold_left_rev_right, rev_involutive.
  apply (fold_right_poe (joint_exp Slist thetaList)).
Qed.

(** The exponential of the prismatic joint: a translation along x. *)
Lemma joint_exp_PR_0 :
  joint_exp Slist_PR thetalist_PR 0 = mkMat4 m3id (mkVec3 1 0 0) v3zero 1.
Proof.
  unfold joint_exp, Slist_PR, thetalist_PR, col, at_; simpl nth.
  rewrite v6scale_1, MatrixExp6_no_rotation by reflexivity.
  reflexivity.
Qed.

(** The exponential of the revolute joint: the rotation by 1 about z. *)
Lemma joint_exp_PR_1 :
  joint_exp Slist_PR thetalist_PR 1
  = mkMat4 (mkMat3 (cos 1) (- sin 1) 0
                   (sin 1) (cos 1) 0
                   0 0 1) v3zero v3zero 1.
Proof.
  unfold joint_exp, Slist_PR, thetalist_PR, col, at_; simpl nth.
  rewrite v6scale_1.
  assert (Hn : norm3 (mkVec3 0 0 1) = 1).
  { unfold norm3, dot3; simpl.
    replace (0 * 0 + 0 * 0 + 1 * 1) with 1 by ring. apply sqrt_1. }
  assert (Hf : 1 <= fnorm3 (VecToso3 (mkVec3 0 0 1))).
  { unfold fnorm3, dot3; simpl. rewrite <- sqrt_1 at 1. apply sqrt_le_1_alt. lra. }
  unfold MatrixExp6, MatrixExp3, AxisAng3.
  change (so3ToVec (rot (VecTose3 (mkVec6 (mkVec3 0 0 1) v3zero)))) with (mkVec3 0 0 1).
  change (rot (VecTose3 (mkVec6 (mkVec3 0 0 1) v3zero))) with (VecToso3 (mkVec3 0 0 1)).
  replace (NearZero (norm3 (mkVec3 0 0 1))) with false
    by (symmetry; apply NearZero_false; rewrite Hn, Rabs_pos_eq; lra).
  replace (NearZero (fnorm3 (VecToso3 (mkVec3 0 0 1)))) with false
    by (symmetry; apply NearZero_false; rewrite Rabs_pos_eq; lra).
  cbv [snd]. rewrite Hn.
  eval_algebra. split_records; field.
Qed.

(** C3, as the claim states it, fails: on the chain [Slist_PR] the code's
    pose has position (1, 0, 0), and the product with the last joint
    leftmost has position (cos 1, sin 1, 0). *)
Lemma FKinSpace_not_last_leftmost :
  FKinSpace m4id Slist_PR thetalist_PR
  <> m4mul (poe_last_leftmost Slist_PR thetalist_PR) m4id.
Proof.
  assert (Hcode : v1 (pos (FKinSpace m4id Slist_PR thetalist_PR)) = 0).
  { unfold FKinSpace. simpl fold_left.
    fold (joint_exp Slist_PR thetalist_PR 0) (joint_exp Slist_PR thetalist_PR 1).
    rewrite joint_exp_PR_0, joint_exp_PR_1. eval_algebra. ring. }
  assert (Hspec : v1 (pos (m4mul (poe_last_leftmost Slist_PR thetalist_PR) m4id)) = sin 1).
  { unfold poe_last_leftmost. simpl fold_left.
    rewrite joint_exp_PR_0, joint_exp_PR_1. eval_algebra. ring. }
  intros Heq. rewrite Heq, Hspec in Hcode.
  assert (0 < sin 1); [| lra].
  apply sin_gt_0; [lra |]. pose proof PI2_1. lra.
Qed.

(** ** Inverse kinematics *)

Lemma twist_err_false (V : Vec6 R) (eomg ev : R) :
  twist_err V eomg ev = false <-> within_tolerance V eomg ev.
Proof.
  unfold twist_err, within_tolerance.
  rewrite orb_false_iff, !Rltb_false. reflexivity.
Qed.

Section IKinProperties.
Variable solve : list (Vec6 R) -> Vec6 R -> list R.

(** What the loop keeps true: the error twist and the flag are those of
    the current joint angles. *)
Definition ik_consistent (Vof : list R -> Vec6 R) (eomg ev : R) (st : IKState) : Prop :=
  ik_V st = Vof (ik_thetalist st) /\ ik_err st = twist_err (ik_V st) eomg ev.

Lemma IKinBody_loop_spec Blist M T eomg ev (k : nat) :
  forall st, ik_consistent (Vb_of Blist M T) eomg ev st ->
  let st' := IKinBody_loop solve Blist M T eomg ev k st in
  ik_consistent (Vb_of Blist M T) eomg ev st' /\
  (ik_i st <= ik_i st' <= ik_i st + k)%nat /\
  ik_thetalist st'
  = Nat.iter (ik_i st' - ik_i st) (newton_body solve Blist M T) (ik_thetalist st) /\
  (ik_err st' = true -> ik_i st' = (ik_i st + k)%nat).
Proof.
  induction k as [| k IH]; intros st Hc; simpl.
  - rewrite Nat.sub_diag, Nat.add_0_r. simpl. repeat split; auto; try apply Hc; lia.
  - destruct (ik_err st) eqn:Herr.
    + assert (Hc' : ik_consistent (Vb_of Blist M T) eomg ev
                      (IKinBody_step solve Blist M T eomg ev st))
        by (split; reflexivity).
      destruct (IH _ Hc') as (H1 & H2 & H3 & H4).
      simpl ik_i in *. simpl ik_thetalist in *.
      split; [exact H1 |]. split; [lia |]. split.
      * rewrite H3.
        replace (ik_i (IKinBody_loop solve Blist M T eomg ev k
                         (IKinBody_step solve Blist M T eomg ev st)) - ik_i st)%nat
          with (S (ik_i (IKinBody_loop solve Blist M T eomg ev k
                           (IKinBody_step solve Blist M T eomg ev st))
                   - (ik_i st + 1)))%nat by lia.
        rewrite Nat.iter_succ_r. destruct Hc as [HV _]. rewrite HV. reflexivity.
      * intros He. rewrite (H4 He). lia.
    + rewrite Nat.sub_diag. simpl.
      repeat split; auto; try apply Hc; try lia. congruence.
Qed.

Lemma IKinSpace_loop_spec Slist M T eomg ev (k : nat) :
  forall st, ik_consistent (Vs_of Slist M T) eomg ev st ->
  let st' := IKinSpace_loop solve Slist M T eomg ev k st in
  ik_consistent (Vs_of Slist M T) eomg ev st' /\
  (ik_i st <= ik_i st' <= ik_i st + k)%nat /\
  ik_thetalist st'
  = Nat.iter (ik_i st' - ik_i st) (newton_space solve Slist M T) (ik_thetalist st) /\
  (ik_err st' = true -> ik_i st' = (ik_i st + k)%nat).
Proof.
  induction k as [| k IH]; intros st Hc; simpl.
  - rewrite Nat.sub_diag, Nat.add_0_r. simpl. repeat split; auto; try apply Hc; lia.
  - destruct (ik_err st) eqn:Herr.
    + assert (Hc' : ik_consistent (Vs_of Slist M T) eomg ev
                      (IKinSpace_step solve Slist M T eomg ev st))
        by (split; reflexivity).
      destruct (IH _ Hc') as (H1 & H2 & H3 & H4).
      simpl ik_i in *. simpl ik_thetalist in *.
      split; [exact H1 |]. split; [lia |]. split.
      * rewrite H3.
        replace (ik_i (IKinSpace_loop solve Slist M T eomg ev k
                         (IKinSpace_step solve Slist M T eomg ev st)) - ik_i st)%nat
          with (S (ik_i (IKinSpace_loop solve Slist M T eomg ev k
                           (IKinSpace_step solve Slist M T eomg ev st))
                   - (ik_i st + 1)))%nat by lia.
        rewrite Nat.iter_succ_r. destruct Hc as [HV _]. rewrite HV. reflexivity.
      * intros He. rewrite (H4 He). lia.
    + rewrite Nat.sub_diag. simpl.
      repeat split; auto; try apply Hc; try lia. congruence.
Qed.

(** The loop over the reals: k <= 20 updates, the k-th iterate returned,
    the flag true exactly when the error twist of that iterate is within
    the tolerances, and a false flag only after 20 updates. *)
Lemma IKin_run (axes : list (Vec6 R)) (M T : Mat4 R) (eomg ev : R)
    (thetalist0 : list R) :
  (let k := ik_i (IKinBody_final solve axes M T eomg ev thetalist0) in
   let r := IKinBody solve axes M T eomg ev thetalist0 in
   (k <= 20)%nat /\
   snd r = Nat.iter k (newton_body solve axes M T) thetalist0 /\
   (fst r = true <-> within_tolerance (Vb_of axes M T (snd r)) eomg ev) /\
   (fst r = false -> k = 20%nat)) /\
  (let k := ik_i (IKinSpace_final solve axes M T eomg ev thetalist0) in
   let r := IKinSpace solve axes M T eomg ev thetalist0 in
   (k <= 20)%nat /\
   snd r = Nat.iter k (newton_space solve axes M T) thetalist0 /\
   (fst r = true <-> within_tolerance (Vs_of axes M T (snd r)) eomg ev) /\
   (fst r = false -> k = 20%nat)).
Proof.
  split; cbv zeta.
  - assert (Hc : ik_consistent (Vb_of axes M T) eomg ev
                   (IKinBody_start axes M T eomg ev thetalist0))
      by (split; reflexivity).
    destruct (IKinBody_loop_spec maxiterations Hc)
      as ((HV & HE) & Hi & Hth & Hfail).
    fold (IKinBody_final solve axes M T eomg ev thetalist0) in *.
    unfold IKinBody. simpl fst. simpl snd. simpl ik_i in *. simpl ik_thetalist in *.
    unfold maxiterations in *.
    split; [lia |]. split; [rewrite Hth; f_equal; lia |]. split.
    + rewrite negb_true_iff, HE, HV. apply twist_err_false.
    + rewrite negb_false_iff. intros He. rewrite (Hfail He). lia.
  - assert (Hc : ik_consistent (Vs_of axes M T) eomg ev
                   (IKinSpace_start axes M T eomg ev thetalist0))
      by (split; reflexivity).
    destruct (IKinSpace_loop_spec maxiterations Hc)
      as ((HV & HE) & Hi & Hth & Hfail).
    fold (IKinSpace_final solve axes M T eomg ev thetalist0) in *.
    unfold IKinSpace. simpl fst. simpl snd. simpl ik_i in *. simpl ik_thetalist in *.
    unfold maxiterations in *.
    split; [lia |]. split; [rewrite Hth; f_equal; lia |]. split.
    + rewrite negb_true_iff, HE, HV. apply twist_err_false.
    + rewrite negb_false_iff. intros He. rewrite (Hfail He). lia.
Qed.
End IKinProperties.

(** ** Arrays *)

Lemma upd_length {A : Type} (i : nat) (x : A) (l : list A) :
  length (upd i x l) = length l.
Proof.
  revert i; induction l as [| h t IH]; intros [| i]; simpl; auto.
Qed.

Lemma nth_upd_eq {A : Type} (i : nat) (x d : A) (l : list A) :
  (i < length l)%nat -> nth i (upd i x l) d = x.
Proof.
  revert i; induction l as [| h t IH]; intros [| i] Hi; simpl in *; try lia; auto.
  apply IH. lia.
Qed.

Lemma nth_upd_neq {A : Type} (i j : nat) (x d : A) (l : list A) :
  i <> j -> nth j (upd i x l) d = nth j l d.
Proof.
  revert i j; induction l as [| h t IH]; intros [| i] [| j] Hij; simpl; auto; try lia.
Qed.

Lemma nth_repeat_same {A : Type} (x : A) (n i : nat) : nth i (repeat x n) x = x.
Proof.
  revert i; induction n as [| n IH]; intros [| i]; simpl; auto.
Qed.

Lemma fold_left_seq_S {A : Type} (f : A -> nat -> A) (a : A) (k : nat) :
  fold_left f (seq 0 (S k)) a = f (fold_left f (seq 0 k) a) k.
Proof. rewrite seq_S, fold_left_app. reflexivity. Qed.

Lemma map2_length {A : Type} (f : A -> A -> A) (a b : list A) :
  length a = length b -> length (map2 f a b) = length a.
Proof.
  revert b; induction a as [| x a IH]; intros [| y b] H; simpl in *; try lia.
  f_equal. apply IH. lia.
Qed.

Lemma nth_map2 {A : Type} (f : A -> A -> A) (a b : list A) (d : A) (i : nat) :
  length a = length b -> (i < length a)%nat ->
  nth i (map2 f a b) d = f (nth i a d) (nth i b d).
Proof.
  revert b i; induction a as [| x a IH]; intros [| y b] [| i] H Hi;
    simpl in *; try lia; auto.
  apply IH; lia.
Qed.

Lemma map2_map_seq {A : Type} (f : A -> A -> A) (u v : nat -> A) (l : list nat) :
  map2 f (map u l) (map v l) = map (fun i => f (u i) (v i)) l.
Proof. induction l as [| i l IH]; simpl; [| rewrite IH]; reflexivity. Qed.

(** ** The forward pass computes the recurrences *)

Section ForwardPass.
Variable exp6 : Mat4 R -> Mat4 R.
Variables thetalist dthetalist ddthetalist : list R.
Variable g : Vec3 R.
Variable Mlist : list (Mat4 R).
Variable Slist : list (Vec6 R).

Let n := length thetalist.
Let A := A_at Mlist Slist.
Let AdT := AdT_at exp6 thetalist Mlist Slist.
Let dth := at_ dthetalist.
Let ddth := at_ ddthetalist.
Let step := NE_forward_step exp6 thetalist dthetalist ddthetalist Mlist Slist.
Let fwd (k : nat) := fold_left step (seq 0 k) (NE_init g Mlist n).

(** The arrays after [k] iterations of the forward pass. *)
Definition forward_inv (k : nat) (st : NEState) : Prop :=
  Mi st = Mi_at Mlist k /\
  length (Ai st) = n /\ length (AdTi st) = (n + 1)%nat /\
  length (Vi st) = (n + 1)%nat /\ length (Vdi st) = (n + 1)%nat /\
  (forall i, (i < k)%nat -> nth i (Ai st) v6zero = A i) /\
  (forall i, (i < k)%nat \/ i = n -> nth i (AdTi st) m6zero = AdT i) /\
  (forall i, (i <= k)%nat -> nth i (Vi st) v6zero = twist A AdT dth i) /\
  (forall i, (i <= k)%nat -> nth i (Vdi st) v6zero = accel A AdT dth ddth g i).

Lemma forward_inv_init : forward_inv 0 (NE_init g Mlist n).
Proof.
  unfold forward_inv, NE_init; cbn [Mi Ai AdTi Vi Vdi].
  rewrite !upd_length, !repeat_length.
  repeat apply conj; auto.
  - intros i Hi; lia.
  - intros i [Hi | ->]; [lia |].
    rewrite nth_upd_eq by (rewrite repeat_length; lia).
    unfold AdT, AdT_at. fold n. rewrite Nat.ltb_irrefl, Nat.eqb_refl. reflexivity.
  - intros i Hi. assert (i = 0%nat) as -> by lia.
    rewrite nth_repeat_same. reflexivity.
  - intros i Hi. assert (i = 0%nat) as -> by lia.
    rewrite nth_upd_eq by (rewrite repeat_length; lia). reflexivity.
Qed.

Lemma forward_inv_step (k : nat) (st : NEState) :
  (k < n)%nat -> forward_inv k st -> forward_inv (S k) (step st k).
Proof.
  intros Hk (HM & LA & LT & LV & LD & HA & HT & HV & HD).
  assert (HMk : m4mul (Mi st) (nth k Mlist m4zero) = Mi_at Mlist (S k)).
  { unfold Mi_at. rewrite fold_left_seq_S. fold (Mi_at Mlist k). now rewrite HM. }
  assert (HAk : m6vec (Adjoint (TransInv (m4mul (Mi st) (nth k Mlist m4zero))))
                  (nth k Slist v6zero) = A k)
    by (rewrite HMk; reflexivity).
  assert (HTk : Adjoint (m4mul (exp6 (VecTose3 (v6scale (- nth k thetalist 0) (A k))))
                          (TransInv (nth k Mlist m4zero))) = AdT k).
  { unfold AdT, AdT_at. fold n.
    replace (k <? n)%nat with true by (symmetry; apply Nat.ltb_lt; lia).
    reflexivity. }
  unfold forward_inv, step, NE_forward_step; cbn [Mi Ai AdTi Vi Vdi].
  change (@s0 R R_scalar) with 0. change (@sopp R R_scalar) with Ropp.
  rewrite !upd_length, HAk, HTk.
  repeat apply conj; auto.
  - intros i Hi. destruct (Nat.eq_dec i k) as [-> | Hne].
    + apply nth_upd_eq. lia.
    + rewrite nth_upd_neq by auto. apply HA. lia.
  - intros i Hi. destruct (Nat.eq_dec i k) as [-> | Hne].
    + apply nth_upd_eq. lia.
    + rewrite nth_upd_neq by auto. apply HT. lia.
  - intros i Hi. destruct (Nat.eq_dec i (k + 1)) as [-> | Hne].
    + rewrite nth_upd_eq by lia. rewrite Nat.add_1_r. simpl.
      rewrite HV by lia. reflexivity.
    + rewrite nth_upd_neq by auto. apply HV. lia.
  - intros i Hi. destruct (Nat.eq_dec i (k + 1)) as [-> | Hne].
    + rewrite nth_upd_eq by lia. rewrite Nat.add_1_r. simpl.
      rewrite HD, HV by lia. reflexivity.
    + rewrite nth_upd_neq by auto. apply HD. lia.
Qed.

Lemma forward_inv_fwd (k : nat) : (k <= n)%nat -> forward_inv k (fwd k).
Proof.
  induction k as [| k IH]; intros Hk.
  - apply forward_inv_init.
  - unfold fwd. rewrite fold_left_seq_S. apply forward_inv_step; [lia |].
    apply IH. lia.
Qed.

Lemma NE_forward_inv :
  forward_inv n (NE_forward exp6 thetalist dthetalist ddthetalist g Mlist Slist n).
Proof. apply (forward_inv_fwd (k := n)). lia. Qed.
End ForwardPass.

(** ** The backward pass computes the recurrences *)

Section BackwardPass.
Variable exp6 : Mat4 R -> Mat4 R.
Variables thetalist dthetalist ddthetalist : list R.
Variable g : Vec3 R.
Variable Ftip : Vec6 R.
Variable Mlist : list (Mat4 R).
Variable Glist : list (Mat6 R).
Variable Slist : list (Vec6 R).

Let n := length thetalist.
Let A := A_at Mlist Slist.
Let AdT := AdT_at exp6 thetalist Mlist Slist.
Let G := fun i => nth i Glist m6zero.
Let dth := at_ dthetalist.
Let ddth := at_ ddthetalist.
Let st := NE_forward exp6 thetalist dthetalist ddthetalist g Mlist Slist n.
Let bstep := NE_backward_step Glist st.
Let bwd (j : nat) := fold_left bstep (rev (seq j (n - j))) (Ftip, vnzero n).

Lemma bwd_step (j : nat) : (j < n)%nat -> bwd j = bstep (bwd (S j)) j.
Proof.
  intros Hj. unfold bwd.
  replace (n - j)%nat with (S (n - S j)) by lia.
  simpl seq. simpl rev. rewrite fold_left_app. reflexivity.
Qed.

(** [(Fi, taulist)] once the joints [n-1 .. n-k] are done. *)
Lemma backward_inv (k : nat) :
  (k <= n)%nat ->
  fst (bwd (n - k)) = wrench A AdT G dth ddth g Ftip k (n - k) /\
  length (snd (bwd (n - k))) = n /\
  (forall i, (n - k <= i < n)%nat ->
             nth i (snd (bwd (n - k))) 0 = torque A AdT G dth ddth g Ftip n i).
Proof.
  destruct (NE_forward_inv exp6 thetalist dthetalist ddthetalist g Mlist Slist)
    as (_ & LA & LT & LV & LD & HA & HT & HV & HD).
  fold n st A AdT dth ddth in LA, LT, LV, LD, HA, HT, HV, HD.
  induction k as [| k IH]; intros Hk.
  - rewrite Nat.sub_0_r. unfold bwd. rewrite Nat.sub_diag. simpl.
    repeat apply conj; auto.
    + unfold vnzero. apply repeat_length.
    + intros i Hi; lia.
  - destruct IH as (IHF & IHL & IHT); [lia |].
    assert (Hj : (n - S k < n)%nat) by lia.
    rewrite (bwd_step Hj).
    replace (S (n - S k)) with (n - k)%nat by lia.
    assert (HF : fst (bstep (bwd (n - k)) (n - S k))
                 = wrench A AdT G dth ddth g Ftip (S k) (n - S k)).
    { unfold bstep, NE_backward_step. cbn [fst].
      rewrite HT, HD, HV by lia. rewrite IHF. simpl wrench.
      replace (n - S k + 1)%nat with (n - k)%nat by lia. reflexivity. }
    repeat apply conj.
    + exact HF.
    + unfold bstep, NE_backward_step. cbn [snd]. now rewrite upd_length.
    + intros i Hi. destruct (Nat.eq_dec i (n - S k)) as [-> | Hne].
      * unfold torque. replace (n - (n - S k))%nat with (S k) by lia.
        rewrite <- HF. unfold bstep, NE_backward_step. cbn [fst snd].
        rewrite nth_upd_eq by lia. rewrite HA by lia. reflexivity.
      * unfold bstep, NE_backward_step. cbn [snd].
        rewrite nth_upd_neq by auto. apply IHT. lia.
Qed.

(** The bridge between the code and the recurrences: entry [i] of the
    result of [InverseDynamics] is [torque .. n i]. *)
Lemma InverseDynamics_recurrence :
  InverseDynamics_over exp6 thetalist dthetalist ddthetalist g Ftip Mlist Glist Slist
  = map (torque A AdT G dth ddth g Ftip n) (seq 0 n).
Proof.
  destruct (backward_inv (k := n)) as (_ & HL & HT); [lia |].
  rewrite Nat.sub_diag in HL, HT.
  assert (Hb : bwd 0 = fold_left bstep (rev (seq 0 n)) (Ftip, vnzero n))
    by (unfold bwd; rewrite Nat.sub_0_r; reflexivity).
  rewrite Hb in HL, HT.
  unfold InverseDynamics_over. fold n st bstep.
  apply (nth_ext _ _ 0 0).
  - now rewrite length_map, length_seq.
  - intros i Hi. rewrite HL in Hi. rewrite HT by lia.
    rewrite (nth_indep _ 0 (torque A AdT G dth ddth g Ftip n 0))
      by (rewrite length_map, length_seq; lia).
    rewrite map_nth, seq_nth by lia. reflexivity.
Qed.
End BackwardPass.

(** ** Finite sums *)

Lemma sum_upto_sum_from (n : nat) (f : nat -> R) : sum_upto n f = sum_from 0 n f.
Proof. reflexivity. Qed.

Lemma sum_from_S_l (j k : nat) (f : nat -> R) :
  sum_from j (S k) f = f j + sum_from (S j) k f.
Proof. reflexivity. Qed.

Lemma sum_from_S_r (j k : nat) (f : nat -> R) :
  sum_from j (S k) f = sum_from j k f + f (j + k)%nat.
Proof.
  unfold sum_from. rewrite seq_S, map_app, fold_right_app. simpl.
  generalize (f (j + k)%nat) as a. generalize (seq j k) as l.
  induction l as [| i l IH]; intros a; simpl; [ring | rewrite IH; ring].
Qed.

Lemma sum_from_ext (j k : nat) (f h : nat -> R) :
  (forall i, (j <= i < j + k)%nat -> f i = h i) -> sum_from j k f = sum_from j k h.
Proof.
  revert j; induction k as [| k IH]; intros j H; [reflexivity |].
  rewrite !sum_from_S_l, H by lia. f_equal. apply IH. intros i Hi. apply H. lia.
Qed.

Lemma sum_from_plus (j k : nat) (f h : nat -> R) :
  sum_from j k (fun i => f i + h i) = sum_from j k f + sum_from j k h.
Proof.
  revert j; induction k as [| k IH]; intros j.
  - unfold sum_from; simpl; ring.
  - rewrite !sum_from_S_l, IH. ring.
Qed.

Lemma sum_from_zero (j k : nat) (f : nat -> R) :
  (forall i, (j <= i < j + k)%nat -> f i = 0) -> sum_from j k f = 0.
Proof.
  revert j; induction k as [| k IH]; intros j H; [reflexivity |].
  rewrite sum_from_S_l, H, IH by (try intros i Hi; try apply H; lia). ring.
Qed.

Lemma sum_from_nonneg (j k : nat) (f : nat -> R) :
  (forall i, (j <= i < j + k)%nat -> 0 <= f i) -> 0 <= sum_from j k f.
Proof.
  revert j; induction k as [| k IH]; intros j H; [unfold sum_from; simpl; lra |].
  rewrite sum_from_S_l.
  assert (0 <= f j) by (apply H; lia).
  assert (0 <= sum_from (S j) k f) by (apply IH; intros i Hi; apply H; lia).
  lra.
Qed.

(** A sum of nonnegative terms that is zero has only zero terms. *)
Lemma sum_from_nonneg_zero (j k : nat) (f : nat -> R) :
  (forall i, (j <= i < j + k)%nat -> 0 <= f i) -> sum_from j k f = 0 ->
  forall i, (j <= i < j + k)%nat -> f i = 0.
Proof.
  revert j; induction k as [| k IH]; intros j H Hs i Hi; [lia |].
  rewrite sum_from_S_l in Hs.
  assert (0 <= f j) by (apply H; lia).
  assert (0 <= sum_from (S j) k f)
    by (apply sum_from_nonneg; intros m Hm; apply H; lia).
  destruct (Nat.eq_dec i j) as [-> | Hne]; [lra |].
  apply (IH (S j)); [intros m Hm; apply H; lia | lra | lia].
Qed.

Lemma sum_from_delta (x : nat -> R) (n r : nat) :
  sum_from 0 n (fun c => x c * delta c r) = if (r <? n)%nat then x r else 0.
Proof.
  induction n as [| n IH]; [reflexivity |].
  rewrite sum_from_S_r, IH. simpl. unfold delta.
  destruct (Nat.ltb_spec r n), (Nat.ltb_spec r (S n)), (Nat.eqb_spec r n);
    subst; try lia; ring.
Qed.

(** ** Superposition in the Newton-Euler recurrences *)

(** The sequence that is zero everywhere. *)
Definition zf : nat -> R := fun _ => 0.

Section RecurrenceAlgebra.
Variables (A : nat -> Vec6 R) (AdT : nat -> Mat6 R) (G : nat -> Mat6 R).

Ltac gen_opaque :=
  repeat match goal with
         | |- context [wrench ?a ?b ?c ?d ?e ?f ?g ?k ?j] =>
             generalize (wrench a b c d e f g k j); intro
         | |- context [accel ?a ?b ?c ?d ?e ?i] => generalize (accel a b c d e i); intro
         | |- context [twist ?a ?b ?c ?i] => generalize (twist a b c i); intro
         | |- context [AdT ?i] => generalize (AdT i); intro
         | |- context [G ?i] => generalize (G i); intro
         | |- context [A ?i] => generalize (A i); intro
         end.

Ltac vec_ring := gen_opaque; record_ring.

Lemma twist_ext (dth dth' : nat -> R) (i : nat) :
  (forall j, (j < i)%nat -> dth j = dth' j) -> twist A AdT dth i = twist A AdT dth' i.
Proof.
  induction i as [| i IH]; intros H; simpl; [reflexivity |].
  rewrite IH, H by (try intros j Hj; try apply H; lia). reflexivity.
Qed.

Lemma twist_zf (i : nat) : twist A AdT zf i = v6zero.
Proof.
  induction i as [| i IH]; simpl; [reflexivity |].
  rewrite IH. unfold zf. vec_ring.
Qed.

Lemma accel_ext (dth dth' ddth ddth' : nat -> R) (g : Vec3 R) (i : nat) :
  (forall j, (j < i)%nat -> dth j = dth' j) ->
  (forall j, (j < i)%nat -> ddth j = ddth' j) ->
  accel A AdT dth ddth g i = accel A AdT dth' ddth' g i.
Proof.
  induction i as [| i IH]; intros H H'; [reflexivity |].
  cbn [accel].
  rewrite IH, H, H', (twist_ext dth dth' (i := S i))
    by (try intros j Hj; try apply H; try apply H'; lia).
  reflexivity.
Qed.

Lemma wrench_ext (dth dth' ddth ddth' : nat -> R) (g : Vec3 R) (Ftip : Vec6 R)
    (k j : nat) :
  (forall i, (i < j + k)%nat -> dth i = dth' i) ->
  (forall i, (i < j + k)%nat -> ddth i = ddth' i) ->
  wrench A AdT G dth ddth g Ftip k j = wrench A AdT G dth' ddth' g Ftip k j.
Proof.
  revert j; induction k as [| k IH]; intros j H H'; [reflexivity |].
  cbn [wrench].
  rewrite (IH (j + 1)%nat), (accel_ext dth dth' ddth ddth' g (i := (j + 1)%nat)),
    (twist_ext dth dth' (i := (j + 1)%nat))
    by (intros i Hi; try apply H; try apply H'; lia).
  reflexivity.
Qed.

Lemma torque_ext (dth dth' ddth ddth' : nat -> R) (g : Vec3 R) (Ftip : Vec6 R)
    (n i : nat) :
  (i < n)%nat ->
  (forall j, (j < n)%nat -> dth j = dth' j) ->
  (forall j, (j < n)%nat -> ddth j = ddth' j) ->
  torque A AdT G dth ddth g Ftip n i = torque A AdT G dth' ddth' g Ftip n i.
Proof.
  intros Hi H H'. unfold torque. f_equal.
  apply wrench_ext; intros j Hj; [apply H | apply H']; lia.
Qed.

(** The acceleration is the sum of the acceleration due to the joint
    rates, the one due to the joint accelerations and the one due to
    gravity. *)
Lemma accel_split (dth ddth : nat -> R) (g : Vec3 R) (i : nat) :
  accel A AdT dth ddth g i
  = v6add (v6add (accel A AdT dth zf v3zero i) (accel A AdT zf ddth v3zero i))
          (accel A AdT zf zf g i).
Proof.
  induction i as [| i IH].
  - simpl. record_ring.
  - cbn [accel]. rewrite IH, !twist_zf. unfold zf. vec_ring.
Qed.

Lemma accel_zf (i : nat) : accel A AdT zf zf v3zero i = v6zero.
Proof.
  induction i as [| i IH].
  - simpl. record_ring.
  - cbn [accel]. rewrite IH, twist_zf. unfold zf. vec_ring.
Qed.

Lemma wrench_split (dth ddth : nat -> R) (g : Vec3 R) (Ftip : Vec6 R) (k j : nat) :
  wrench A AdT G dth ddth g Ftip k j
  = v6add (v6add (v6add (wrench A AdT G dth zf v3zero v6zero k j)
                        (wrench A AdT G zf ddth v3zero v6zero k j))
                 (wrench A AdT G zf zf g v6zero k j))
          (wrench A AdT G zf zf v3zero Ftip k j).
Proof.
  revert j; induction k as [| k IH]; intros j.
  - simpl. record_ring.
  - cbn [wrench]. rewrite IH, (accel_split dth ddth g), !twist_zf, accel_zf. vec_ring.
Qed.

(** Superposition of the joint torques. *)
Lemma torque_split (dth ddth : nat -> R) (g : Vec3 R) (Ftip : Vec6 R) (n i : nat) :
  torque A AdT G dth ddth g Ftip n i
  = torque A AdT G dth zf v3zero v6zero n i
    + torque A AdT G zf ddth v3zero v6zero n i
    + torque A AdT G zf zf g v6zero n i
    + torque A AdT G zf zf v3zero Ftip n i.
Proof.
  unfold torque. rewrite wrench_split. vec_ring.
Qed.
End RecurrenceAlgebra.

(** ** The torques are linear in the joint accelerations *)

Section LinearRun.
Variables (A : nat -> Vec6 R) (AdT : nat -> Mat6 R) (G : nat -> Mat6 R).

(** The run with zero joint rates, no gravity and no tip wrench. *)
Let aL (x : nat -> R) := accel A AdT zf x v3zero.
Let wL (x : nat -> R) := wrench A AdT G zf x v3zero v6zero.
Let tL (x : nat -> R) := torque A AdT G zf x v3zero v6zero.

Ltac gen_opaque :=
  repeat match goal with
         | |- context [wrench ?a ?b ?c ?d ?e ?f ?g ?k ?j] =>
             generalize (wrench a b c d e f g k j); intro
         | |- context [accel ?a ?b ?c ?d ?e ?i] => generalize (accel a b c d e i); intro
         | |- context [twist ?a ?b ?c ?i] => generalize (twist a b c i); intro
         | |- context [AdT ?i] => generalize (AdT i); intro
         | |- context [G ?i] => generalize (G i); intro
         | |- context [A ?i] => generalize (A i); intro
         end.

Ltac vec_ring := gen_opaque; record_ring.

Lemma aL_plus (x y : nat -> R) (i : nat) :
  aL (fun j => x j + y j) i = v6add (aL x i) (aL y i).
Proof.
  unfold aL. induction i as [| i IH].
  - simpl. record_ring.
  - cbn [accel]. rewrite IH, twist_zf. unfold zf. vec_ring.
Qed.

Lemma aL_scale (c : R) (x : nat -> R) (i : nat) :
  aL (fun j => c * x j) i = v6scale c (aL x i).
Proof.
  unfold aL. induction i as [| i IH].
  - simpl. record_ring.
  - cbn [accel]. rewrite IH, twist_zf. unfold zf. vec_ring.
Qed.

Lemma wL_plus (x y : nat -> R) (k j : nat) :
  wL (fun i => x i + y i) k j = v6add (wL x k j) (wL y k j).
Proof.
  unfold wL. revert j; induction k as [| k IH]; intros j.
  - simpl. record_ring.
  - cbn [wrench]. fold (aL (fun i => x i + y i)) (aL x) (aL y).
    rewrite IH, aL_plus, twist_zf. unfold aL. vec_ring.
Qed.

Lemma wL_scale (c : R) (x : nat -> R) (k j : nat) :
  wL (fun i => c * x i) k j = v6scale c (wL x k j).
Proof.
  unfold wL. revert j; induction k as [| k IH]; intros j.
  - simpl. record_ring.
  - cbn [wrench]. fold (aL (fun i => c * x i)) (aL x).
    rewrite IH, aL_scale, twist_zf. unfold aL. vec_ring.
Qed.

Lemma tL_plus (x y : nat -> R) (n i : nat) :
  tL (fun j => x j + y j) n i = tL x n i + tL y n i.
Proof.
  unfold tL, torque. fold (wL (fun j => x j + y j)) (wL x) (wL y).
  rewrite wL_plus. unfold wL. vec_ring.
Qed.

Lemma tL_scale (c : R) (x : nat -> R) (n i : nat) :
  tL (fun j => c * x j) n i = c * tL x n i.
Proof.
  unfold tL, torque. fold (wL (fun j => c * x j)) (wL x).
  rewrite wL_scale. unfold wL. vec_ring.
Qed.

Lemma wL_zf (k j : nat) : wL zf k j = v6zero.
Proof.
  unfold wL. revert j; induction k as [| k IH]; intros j; [reflexivity |].
  cbn [wrench]. rewrite IH, accel_zf, twist_zf. vec_ring.
Qed.

Lemma tL_zf (n i : nat) : tL zf n i = 0.
Proof.
  unfold tL, torque. fold (wL zf). rewrite wL_zf. vec_ring.
Qed.

Lemma tL_sum (x : nat -> R) (m n r : nat) :
  (r < n)%nat ->
  tL (fun i => sum_from 0 m (fun c => x c * delta c i)) n r
  = sum_from 0 m (fun c => x c * tL (delta c) n r).
Proof.
  intros Hr. induction m as [| m IH].
  - apply tL_zf.
  - rewrite sum_from_S_r, <- IH, <- tL_scale, <- tL_plus.
    apply torque_ext; auto. intros j _. apply sum_from_S_r.
Qed.

(** The torques of a linear run are the combination of the torques of
    the unit accelerations. *)
Lemma tL_decompose (x : nat -> R) (n r : nat) :
  (r < n)%nat -> tL x n r = sum_from 0 n (fun c => x c * tL (delta c) n r).
Proof.
  intros Hr. rewrite <- tL_sum by assumption.
  apply torque_ext; auto. intros j Hj.
  rewrite sum_from_delta. apply Nat.ltb_lt in Hj. now rewrite Hj.
Qed.

(** The telescoping identity behind the symmetry of the mass matrix. *)
Lemma m6vec_zero (M : Mat6 R) : m6vec M v6zero = v6zero.
Proof. record_ring. Qed.

Lemma dot6_m6trans (M : Mat6 R) (f v : Vec6 R) :
  dot6 (m6vec (m6trans M) f) v = dot6 f (m6vec M v).
Proof. record_ring. Qed.

Lemma aL_S (y : nat -> R) (j : nat) :
  aL y (S j) = v6add (m6vec (AdT j) (aL y j)) (v6scale (y j) (A j)).
Proof.
  unfold aL. cbn [accel]. rewrite twist_zf. unfold zf.
  generalize (m6vec (AdT j) (accel A AdT (fun _ => 0) y v3zero j)).
  intros. vec_ring.
Qed.

Lemma energy_from (x y : nat -> R) (k j : nat) :
  sum_from j k (fun i => y i * dot6 (wL x (j + k - i) i) (A i))
  = sum_from j k (fun i => dot6 (m6vec (G i) (aL x (S i))) (aL y (S i)))
    - dot6 (m6vec (m6trans (AdT j)) (wL x k j)) (aL y j).
Proof.
  revert j; induction k as [| k IH]; intros j.
  - unfold sum_from, wL. cbn [seq map fold_right wrench].
    rewrite m6vec_zero. generalize (aL y j). record_ring.
  - rewrite !sum_from_S_l.
    rewrite (@sum_from_ext (S j) k
               (fun i => y i * dot6 (wL x (j + S k - i) i) (A i))
               (fun i => y i * dot6 (wL x (S j + k - i) i) (A i)))
      by (intros i Hi; do 3 f_equal; lia).
    rewrite IH.
    replace (j + S k - j)%nat with (S k) by lia.
    generalize (sum_from (S j) k
                  (fun i => dot6 (m6vec (G i) (aL x (S i))) (aL y (S i)))).
    intros Q.
    rewrite !dot6_m6trans, (aL_S y j).
    unfold wL at 1 3. cbn [wrench]. rewrite Nat.add_1_r, twist_zf, !m6vec_zero.
    fold (wL x k (S j)) (aL x (S j)).
    rewrite <- (dot6_m6trans (AdT (S j)) (wL x k (S j))).
    generalize (m6vec (m6trans (AdT (S j))) (wL x k (S j))).
    generalize (m6vec (G j) (aL x (S j))).
    generalize (m6vec (AdT j) (aL y j)).
    generalize (A j). generalize (y j).
    clear. record_ring.
Qed.

Lemma energy_total (x y : nat -> R) (n : nat) :
  sum_from 0 n (fun i => y i * tL x n i)
  = sum_from 0 n (fun i => dot6 (m6vec (G i) (aL x (S i))) (aL y (S i))).
Proof.
  pose proof (energy_from x y n 0) as H. cbn [Nat.add] in H.
  unfold tL, torque. fold (wL x). rewrite H.
  unfold aL. cbn [accel]. vec_ring.
Qed.
End LinearRun.

(** ** The mass matrix and the joint torques of a chain *)

Lemma at_vnzero (n i : nat) : at_ (vnzero n) i = 0.
Proof. exact (nth_repeat_same 0 n i). Qed.

Lemma at_unit_vector (n c i : nat) :
  (c < n)%nat -> at_ (unit_vector n c) i = delta c i.
Proof.
  intros Hc. unfold at_, unit_vector, delta.
  destruct (Nat.eqb_spec i c) as [-> | Hne].
  - apply nth_upd_eq. unfold vnzero. rewrite repeat_length. exact Hc.
  - rewrite nth_upd_neq by auto. apply at_vnzero.
Qed.

Lemma delta_sym (c i : nat) : delta c i = delta i c.
Proof. unfold delta. rewrite Nat.eqb_sym. reflexivity. Qed.

Lemma vndot_map_seq (f : nat -> R) (x : list R) :
  forall s, vndot x (map f (seq s (length x)))
            = sum_from s (length x) (fun i => nth (i - s) x 0 * f i).
Proof.
  induction x as [| a x IH]; intros s; [reflexivity |].
  cbn [length seq map]. rewrite sum_from_S_l, Nat.sub_diag. cbn [nth].
  unfold vndot in *. cbn [map2 fold_right]. rewrite IH.
  change (@sadd R R_scalar) with Rplus. change (@smul R R_scalar) with Rmult.
  f_equal. apply sum_from_ext. intros i Hi.
  replace (i - s)%nat with (S (i - S s)) by lia. reflexivity.
Qed.

Section ChainDynamics.
Variable exp6 : Mat4 R -> Mat4 R.
Variable thetalist : list R.
Variable Mlist : list (Mat4 R).
Variable Glist : list (Mat6 R).
Variable Slist : list (Vec6 R).

Let n := length thetalist.
Let A := A_at Mlist Slist.
Let AdT := AdT_at exp6 thetalist Mlist Slist.
Let G := fun i => nth i Glist m6zero.
Let tL (x : nat -> R) := torque A AdT G zf x v3zero v6zero.
Let aL (x : nat -> R) := accel A AdT zf x v3zero.
Let M := MassMatrix_over exp6 thetalist Mlist Glist Slist.

(** [InverseDynamics] with zero joint rates, gravity and tip wrench. *)
Lemma InverseDynamics_linear (ddthetalist : list R) :
  InverseDynamics_over exp6 thetalist (vnzero n) ddthetalist v3zero v6zero
    Mlist Glist Slist
  = map (tL (at_ ddthetalist) n) (seq 0 n).
Proof.
  rewrite InverseDynamics_recurrence. fold n A AdT G.
  apply map_ext_in. intros i Hi. apply in_seq in Hi.
  apply torque_ext; [lia | | reflexivity].
  intros j _. apply at_vnzero.
Qed.

(** The columns of the mass matrix. *)
Lemma MassMatrix_columns :
  length M = n /\
  forall c, (c < n)%nat -> nth c M [] = map (tL (delta c) n) (seq 0 n).
Proof.
  unfold M, MassMatrix_over. fold n.
  set (col c := InverseDynamics_over exp6 thetalist (vnzero n) (unit_vector n c)
                  v3zero v6zero Mlist Glist Slist).
  assert (Hinv : forall k, (k <= n)%nat ->
            let Mk := fold_left (fun M i => upd i (col i) M) (seq 0 k)
                        (repeat (vnzero n) n) in
            length Mk = n /\ forall c, (c < k)%nat -> nth c Mk [] = col c).
  { induction k as [| k IH]; intros Hk; cbv zeta.
    - simpl. rewrite repeat_length. split; [reflexivity | intros c Hc; lia].
    - rewrite fold_left_seq_S. destruct IH as [IHl IHc]; [lia |].
      rewrite upd_length. split; [exact IHl |].
      intros c Hc. destruct (Nat.eq_dec c k) as [-> | Hne].
      + apply nth_upd_eq. lia.
      + rewrite nth_upd_neq by auto. apply IHc. lia. }
  destruct (Hinv n (Nat.le_refl n)) as [Hl Hc].
  split; [exact Hl |].
  intros c Hcn. transitivity (col c); [exact (Hc c Hcn) |]. unfold col.
  rewrite InverseDynamics_linear.
  apply map_ext_in. intros i Hi. apply in_seq in Hi.
  apply torque_ext; [lia | reflexivity |].
  intros j _. now apply at_unit_vector.
Qed.

Lemma MassMatrix_entry (r c : nat) :
  (r < n)%nat -> (c < n)%nat -> entry M r c = tL (delta c) n r.
Proof.
  intros Hr Hc. destruct MassMatrix_columns as [_ Hcol].
  unfold entry. rewrite (Hcol c Hc).
  rewrite (nth_indep _ _ (tL (delta c) n 0)) by (rewrite length_map, length_seq; lia).
  rewrite map_nth, seq_nth by lia. reflexivity.
Qed.

(** The mass matrix times a vector of joint accelerations is the vector
    of torques that produces them from rest, without gravity or tip
    wrench. *)
Lemma MassMatrix_mat_vec (x : list R) :
  mat_vec M x = map (tL (at_ x) n) (seq 0 n).
Proof.
  destruct MassMatrix_columns as [Hl _].
  unfold mat_vec. rewrite Hl.
  apply map_ext_in. intros r Hr. apply in_seq in Hr.
  rewrite sum_upto_sum_from.
  unfold tL. rewrite (tL_decompose A AdT G (at_ x) (n := n) (r := r)) by lia.
  apply sum_from_ext. intros c Hc.
  rewrite MassMatrix_entry by lia.
  change (@smul R R_scalar) with Rmult. change (@s0 R R_scalar) with 0.
  unfold tL, at_. ring.
Qed.

(** [taulist - c - grav - JTFtip], the right-hand side [ForwardDynamics]
    solves for, is the mass matrix times the accelerations the torques
    were computed for. *)
Lemma totalForce_of_InverseDynamics (dthetalist ddthetalist : list R)
    (g : Vec3 R) (Ftip : Vec6 R) :
  vnsub (vnsub (vnsub
    (InverseDynamics_over exp6 thetalist dthetalist ddthetalist g Ftip Mlist Glist Slist)
    (VelQuadraticForces_over exp6 thetalist dthetalist Mlist Glist Slist))
    (GravityForces_over exp6 thetalist g Mlist Glist Slist))
    (EndEffectorForces_over exp6 thetalist Ftip Mlist Glist Slist)
  = mat_vec M ddthetalist.
Proof.
  rewrite MassMatrix_mat_vec.
  unfold VelQuadraticForces_over, GravityForces_over, EndEffectorForces_over.
  rewrite !InverseDynamics_recurrence. fold n A AdT G.
  unfold vnsub. rewrite !map2_map_seq.
  apply map_ext_in. intros i Hi. apply in_seq in Hi.
  rewrite (torque_split A AdT G (at_ dthetalist) (at_ ddthetalist) g Ftip).
  rewrite (torque_ext A AdT G (at_ dthetalist) (at_ dthetalist) (at_ (vnzero n)) zf
             v3zero v6zero (n := n) (i := i))
    by (try lia; try reflexivity; intros; apply at_vnzero).
  rewrite (torque_ext A AdT G (at_ (vnzero n)) zf (at_ (vnzero n)) zf
             g v6zero (n := n) (i := i))
    by (try lia; intros; apply at_vnzero).
  rewrite (torque_ext A AdT G (at_ (vnzero n)) zf (at_ (vnzero n)) zf
             v3zero Ftip (n := n) (i := i))
    by (try lia; intros; apply at_vnzero).
  change (@ssub R R_scalar) with Rminus. unfold tL. ring.
Qed.
End ChainDynamics.

(** ** The one-joint chain *)

Lemma A_at_1joint : A_at Mlist_1 Slist_1 0 = mkVec6 (mkVec3 0 0 1) v3zero.
Proof.
  unfold A_at, Mi_at, Mlist_1, Slist_1. cbn [seq fold_left nth].
  eval_algebra. split_records; ring.
Qed.

Ltac eval_1joint exp6 th :=
  cbn [map seq length]; unfold torque; cbn [wrench accel twist Nat.sub Nat.add nth];
  rewrite A_at_1joint;
  generalize (AdT_at exp6 th Mlist_1 Slist_1 0);
  generalize (AdT_at exp6 th Mlist_1 Slist_1 1);
  unfold delta, zf, at_, G_point_mass, m6id; cbn [Nat.eqb nth];
  intros; break_records; eval_algebra.

(** With the identity as inertia the mass matrix is the 1 x 1 identity. *)
Lemma MassMatrix_1joint (exp6 : Mat4 R -> Mat4 R) (th : R) :
  MassMatrix_over exp6 [th] Mlist_1 Glist_1 Slist_1 = [[1]].
Proof.
  destruct (MassMatrix_columns exp6 [th] Mlist_1 Glist_1 Slist_1) as [Hl Hc].
  specialize (Hc 0%nat (Nat.lt_0_succ 0)).
  destruct (MassMatrix_over exp6 [th] Mlist_1 Glist_1 Slist_1) as [| m [| m' M']];
    simpl in Hl; try discriminate.
  cbn [nth] in Hc. rewrite Hc. cbn [length].
  unfold Glist_1. eval_1joint exp6 [th]. do 2 f_equal. ring.
Qed.

(** With a point mass on the joint axis no torque is needed, whatever
    the acceleration. *)
Lemma InverseDynamics_point_mass (exp6 : Mat4 R -> Mat4 R) (ddth : R) :
  InverseDynamics_over exp6 [0] [0] [ddth] v3zero v6zero Mlist_1 Glist_pm Slist_1 = [0].
Proof.
  rewrite InverseDynamics_recurrence. cbn [length].
  unfold Glist_pm. eval_1joint exp6 [0]. f_equal. ring.
Qed.

(** ** Forward dynamics undoes inverse dynamics *)

(** C1, as the code has it.  When the [ldlt] solve inverts the mass
    matrix of the configuration (as it does for a positive-definite mass
    matrix), [ForwardDynamics] applied to the torques of
    [InverseDynamics] returns the joint accelerations they were computed
    for, whatever the joint rates, gravity and tip wrench. *)
Theorem dynamics_duality (ldlt_solve : list (list R) -> list R -> list R)
    (thetalist dthetalist ddthetalist : list R) (g : Vec3 R) (Ftip : Vec6 R)
    (Mlist : list (Mat4 R)) (Glist : list (Mat6 R)) (Slist : list (Vec6 R)) :
  length ddthetalist = length thetalist ->
  (forall x : list R, length x = length thetalist ->
     ldlt_solve (MassMatrix thetalist Mlist Glist Slist)
                (mat_vec (MassMatrix thetalist Mlist Glist Slist) x) = x) ->
  ForwardDynamics ldlt_solve thetalist dthetalist
    (InverseDynamics thetalist dthetalist ddthetalist g Ftip Mlist Glist Slist)
    g Ftip Mlist Glist Slist
  = ddthetalist.
Proof.
  intros Hlen Hsolve.
  unfold ForwardDynamics, ForwardDynamics_over, InverseDynamics.
  rewrite totalForce_of_InverseDynamics.
  apply Hsolve. exact Hlen.
Qed.

Lemma dynamics_duality_witness :
  ForwardDynamics solve_1x1 [0.5] [0.3]
    (InverseDynamics [0.5] [0.3] [2] (mkVec3 0 0 (-9.8)) v6zero Mlist_1 Glist_1 Slist_1)
    (mkVec3 0 0 (-9.8)) v6zero Mlist_1 Glist_1 Slist_1
  = [2].
Proof.
  apply dynamics_duality; [reflexivity |].
  intros x Hx. unfold MassMatrix. rewrite MassMatrix_1joint.
  destruct x as [| a [| b x]]; simpl in Hx; try discriminate.
  unfold solve_1x1, mat_vec, sum_upto, entry, at_. cbn.
  f_equal. field.
Defined.

(** C1, as the claim states it, fails: it holds for every model only if
    every mass matrix can be inverted.  For the one-joint chain with a
    point mass on the joint axis the torque does not depend on the
    acceleration, so no solver can recover it. *)
Lemma dynamics_duality_fails_for_point_mass :
  ~ (exists ldlt_solve : list (list R) -> list R -> list R,
       forall ddth : R,
         ForwardDynamics ldlt_solve [0] [0]
           (InverseDynamics [0] [0] [ddth] v3zero v6zero Mlist_1 Glist_pm Slist_1)
           v3zero v6zero Mlist_1 Glist_pm Slist_1
         = [ddth]).
Proof.
  intros [solve H].
  pose proof (H 1) as H1. pose proof (H 2) as H2.
  unfold InverseDynamics in H1, H2.
  rewrite InverseDynamics_point_mass in H1, H2.
  rewrite H1 in H2. injection H2. lra.
Qed.

(** ** Computed-torque control *)

Lemma SimulateControl_run_S ldlt_solve g Ftipmat Mlist Glist Slist
    thetamatd dthetamatd ddthetamatd gtilde Mtildelist Gtildelist Kp Ki Kd dt intRes
    thetalist dthetalist (k : nat) :
  SimulateControl_run ldlt_solve g Ftipmat Mlist Glist Slist thetamatd dthetamatd
    ddthetamatd gtilde Mtildelist Gtildelist Kp Ki Kd dt intRes thetalist dthetalist (S k)
  = SimulateControl_step ldlt_solve g Ftipmat Mlist Glist Slist thetamatd dthetamatd
      ddthetamatd gtilde Mtildelist Gtildelist Kp Ki Kd dt intRes
      (SimulateControl_run ldlt_solve g Ftipmat Mlist Glist Slist thetamatd dthetamatd
         ddthetamatd gtilde Mtildelist Gtildelist Kp Ki Kd dt intRes thetalist dthetalist k)
      k.
Proof. unfold SimulateControl_run. apply fold_left_seq_S. Qed.

Lemma SimulateControl_run_length ldlt_solve g Ftipmat Mlist Glist Slist
    thetamatd dthetamatd ddthetamatd gtilde Mtildelist Gtildelist Kp Ki Kd dt intRes
    thetalist dthetalist (k : nat) :
  length (taumatT
            (SimulateControl_run ldlt_solve g Ftipmat Mlist Glist Slist thetamatd
               dthetamatd ddthetamatd gtilde Mtildelist Gtildelist Kp Ki Kd dt intRes
               thetalist dthetalist k))
  = length thetamatd.
Proof.
  induction k as [| k IH].
  - unfold SimulateControl_run. simpl. apply repeat_length.
  - rewrite SimulateControl_run_S. unfold SimulateControl_step. cbn [taumatT].
    rewrite upd_length. exact IH.
Qed.

(** C5, as the code has it.  [ComputedTorque] returns
    [MassMatrix(theta) (Kp e + Ki (eint + e) + Kd (dthetad - dtheta))
     + InverseDynamics(theta, dtheta, ddthetad, g, 0)] with
    [e = thetad - theta]: the integral gain weighs the passed-in integral
    error plus the current error.  [SimulateControl] starts from a zero
    integral error, computes the torque of control step k from the state
    and the integral error before the step, and then updates
    [eint <- eint + dt (thetad_k - theta)] with the joint angles reached
    at the end of the step. *)
Theorem ComputedTorque_law ldlt_solve
    (thetalist dthetalist eint0 : list R) (g : Vec3 R)
    (Mlist : list (Mat4 R)) (Glist : list (Mat6 R)) (Slist : list (Vec6 R))
    (thetalistd dthetalistd ddthetalistd : list R) (Kp Ki Kd : R)
    (Ftipmat : list (Vec6 R)) (thetamatd dthetamatd ddthetamatd : list (list R))
    (gtilde : Vec3 R) (Mtildelist : list (Mat4 R)) (Gtildelist : list (Mat6 R))
    (dt : R) (intRes : nat) :
  let e := vnsub thetalistd thetalist in
  let run := SimulateControl_run ldlt_solve g Ftipmat Mlist Glist Slist thetamatd
               dthetamatd ddthetamatd gtilde Mtildelist Gtildelist Kp Ki Kd dt intRes
               thetalist dthetalist in
  ComputedTorque thetalist dthetalist eint0 g Mlist Glist Slist
    thetalistd dthetalistd ddthetalistd Kp Ki Kd
  = vnadd
      (mat_vec (MassMatrix thetalist Mlist Glist Slist)
         (vnadd (vnadd (vnscale Kp e) (vnscale Ki (vnadd eint0 e)))
                (vnscale Kd (vnsub dthetalistd dthetalist))))
      (InverseDynamics thetalist dthetalist ddthetalistd g v6zero Mlist Glist Slist)
  /\ eint (run 0%nat) = vnzero (length (nth 0 thetamatd []))
  /\ forall k : nat,
       eint (run (S k))
       = vnadd (eint (run k))
           (vnscale dt (vnsub (nth k thetamatd []) (thetacurrent (run (S k)))))
       /\ ((k < length thetamatd)%nat ->
           nth k (taumatT (run (S k))) []
           = ComputedTorque (thetacurrent (run k)) (dthetacurrent (run k)) (eint (run k))
               gtilde Mtildelist Gtildelist Slist
               (nth k thetamatd []) (nth k dthetamatd []) (nth k ddthetamatd [])
               Kp Ki Kd).
Proof.
  cbv zeta. split; [reflexivity |]. split; [reflexivity |].
  intros k. rewrite SimulateControl_run_S. split; [reflexivity |].
  intros Hk. unfold SimulateControl_step at 1. cbn [taumatT].
  apply nth_upd_eq. now rewrite SimulateControl_run_length.
Qed.

(** C5, as the claim states it, fails: on the one-joint chain, with
    [Ki = 1], a zero integral error and a position error of 1, the code's
    torque and the torque of the stated law differ by the mass matrix
    times the position error. *)
Lemma ComputedTorque_not_as_claimed :
  ComputedTorque [0] [0] [0] v3zero Mlist_1 Glist_1 Slist_1 [1] [0] [0] 0 1 0
  <> ComputedTorque_as_claimed [0] [0] [0] v3zero Mlist_1 Glist_1 Slist_1
       [1] [0] [0] 0 1 0.
Proof.
  unfold ComputedTorque, ComputedTorque_as_claimed, ComputedTorque_over,
    MassMatrix, InverseDynamics.
  rewrite MassMatrix_1joint, InverseDynamics_recurrence.
  cbn [length seq map].
  generalize (torque (A_at Mlist_1 Slist_1) (AdT_at MatrixExp6 [0] Mlist_1 Slist_1)
                (fun i => nth i Glist_1 m6zero) (at_ [0]) (at_ [0]) v3zero v6zero 1 0).
  intros t H. cbv [vnadd vnsub vnscale mat_vec sum_upto entry map2 map seq length
                    fold_right nth sadd ssub smul s0 R_scalar] in H.
  injection H. lra.
Qed.

(** ** Rigid transforms and their adjoint maps *)

Lemma m3mul_assoc (A B C : Mat3 R) : m3mul (m3mul A B) C = m3mul A (m3mul B C).
Proof. record_ring. Qed.

Lemma m3mul_id_l (A : Mat3 R) : m3mul m3id A = A.
Proof. record_ring. Qed.

Lemma m3trans_mul (A B : Mat3 R) :
  m3trans (m3mul A B) = m3mul (m3trans B) (m3trans A).
Proof. record_ring. Qed.

Lemma det3_mul (A B : Mat3 R) : det3 (m3mul A B) = det3 A * det3 B.
Proof. intros; break_records; eval_algebra; ring. Qed.

Lemma m3vec_mul (A B : Mat3 R) (x : Vec3 R) :
  m3vec (m3mul A B) x = m3vec A (m3vec B x).
Proof. record_ring. Qed.

Lemma m3vec_id (x : Vec3 R) : m3vec m3id x = x.
Proof. record_ring. Qed.

Lemma m3vec_zero (A : Mat3 R) : m3vec A v3zero = v3zero.
Proof. record_ring. Qed.

Lemma m4mul_rigid_blocks (A B : Mat4 R) :
  bot A = v3zero -> crn A = 1 -> bot B = v3zero -> crn B = 1 ->
  rot (m4mul A B) = m3mul (rot A) (rot B) /\
  bot (m4mul A B) = v3zero /\ crn (m4mul A B) = 1.
Proof.
  destruct A as [RA pA bA cA], B as [RB pB bB cB]; simpl.
  intros -> -> -> ->. repeat apply conj; record_ring.
Qed.

Lemma is_SE3_id : is_SE3 m4id.
Proof. unfold is_SE3. repeat apply conj; simpl; try reflexivity; record_ring. Qed.

Lemma is_SE3_mul (A B : Mat4 R) : is_SE3 A -> is_SE3 B -> is_SE3 (m4mul A B).
Proof.
  intros (A1 & A2 & A3 & A4 & A5) (B1 & B2 & B3 & B4 & B5).
  destruct (m4mul_rigid_blocks A B A4 A5 B4 B5) as (Hr & Hb & Hc).
  unfold is_SE3. rewrite Hr, Hb, Hc, m3trans_mul, det3_mul, A3, B3.
  repeat apply conj; try reflexivity; try ring.
  - rewrite m3mul_assoc, <- (m3mul_assoc (m3trans (rot A))), A1, m3mul_id_l. exact B1.
  - rewrite m3mul_assoc, <- (m3mul_assoc (rot B)), B2, m3mul_id_l. exact A2.
Qed.

Lemma is_SE3_Mi_at (Mlist : list (Mat4 R)) (k : nat) :
  (forall i, (i < k)%nat -> is_SE3 (nth i Mlist m4zero)) -> is_SE3 (Mi_at Mlist k).
Proof.
  induction k as [| k IH]; intros H.
  - apply is_SE3_id.
  - unfold Mi_at. rewrite fold_left_seq_S. fold (Mi_at Mlist k).
    apply is_SE3_mul; [apply IH; intros i Hi; apply H; lia | apply H; lia].
Qed.

(** The adjoint map of the inverse of a rigid transform sends only the
    zero twist to zero. *)
Lemma Adjoint_TransInv_injective (T : Mat4 R) (s : Vec6 R) :
  is_SE3 T -> m6vec (Adjoint (TransInv T)) s = v6zero -> s = v6zero.
Proof.
  intros (_ & Hinv & _) H.
  assert (Hker : forall w, m3vec (m3trans (rot T)) w = v3zero -> w = v3zero).
  { intros w Hw. rewrite <- (m3vec_id w), <- Hinv, m3vec_mul, Hw. apply m3vec_zero. }
  destruct s as [w v].
  assert (Hang : m3vec (m3trans (rot T)) w = v3zero).
  { transitivity (ang (m6vec (Adjoint (TransInv T)) (mkVec6 w v)));
      [| rewrite H; reflexivity].
    destruct T as [Rm p b c]. clear. record_ring. }
  apply Hker in Hang. subst w.
  assert (Hlin : m3vec (m3trans (rot T)) v = v3zero).
  { transitivity (lin (m6vec (Adjoint (TransInv T)) (mkVec6 v3zero v)));
      [| rewrite H; reflexivity].
    destruct T as [Rm p b c]. clear. record_ring. }
  apply Hker in Hlin. subst v. reflexivity.
Qed.

Lemma A_at_nonzero (Mlist : list (Mat4 R)) (Slist : list (Vec6 R)) (i : nat) :
  (forall j, (j <= i)%nat -> is_SE3 (nth j Mlist m4zero)) ->
  nth i Slist v6zero <> v6zero ->
  A_at Mlist Slist i <> v6zero.
Proof.
  intros HM HS HA. apply HS.
  apply (Adjoint_TransInv_injective (T := Mi_at Mlist (S i))); [| exact HA].
  apply is_SE3_Mi_at. intros j Hj. apply HM. lia.
Qed.

(** ** The mass matrix is symmetric and positive definite *)

Lemma v3_eq_dec (v : Vec3 R) : v = v3zero \/ v <> v3zero.
Proof.
  destruct v as [a b c].
  destruct (Req_dec a 0) as [-> | Ha]; [| right; intros H; injection H; tauto].
  destruct (Req_dec b 0) as [-> | Hb]; [| right; intros H; injection H; tauto].
  destruct (Req_dec c 0) as [-> | Hc]; [| right; intros H; injection H; tauto].
  left. reflexivity.
Qed.

Lemma v6_eq_dec (v : Vec6 R) : v = v6zero \/ v <> v6zero.
Proof.
  destruct v as [w u].
  destruct (v3_eq_dec w) as [-> | Hw]; [| right; intros H; injection H; tauto].
  destruct (v3_eq_dec u) as [-> | Hu]; [| right; intros H; injection H; tauto].
  left. reflexivity.
Qed.

Lemma v6scale_eq_zero (c : R) (v : Vec6 R) :
  v6scale c v = v6zero -> c = 0 \/ v = v6zero.
Proof.
  intros H. destruct (Req_dec c 0) as [Hc | Hc]; [now left | right].
  destruct v as [[a0 a1 a2] [b0 b1 b2]].
  unfold v6scale, v3scale, v6zero, v3zero in *; simpl in *.
  injection H; intros.
  repeat match goal with
         | E : c * ?a = 0 |- _ =>
             apply Rmult_integral in E; destruct E as [E | E]; [contradiction | subst a]
         end.
  reflexivity.
Qed.

Lemma dot6_comm (a b : Vec6 R) : dot6 a b = dot6 b a.
Proof. record_ring. Qed.

Lemma symmetric6_dot (G : Mat6 R) (a b : Vec6 R) :
  symmetric6 G -> dot6 (m6vec G a) b = dot6 (m6vec G b) a.
Proof.
  intros HG. unfold symmetric6 in HG. rewrite <- HG at 1.
  rewrite dot6_m6trans. apply dot6_comm.
Qed.

Lemma pos_def6_nonneg (G : Mat6 R) (v : Vec6 R) :
  pos_def6 G -> 0 <= dot6 (m6vec G v) v.
Proof.
  intros HG. destruct (v6_eq_dec v) as [-> | Hv].
  - rewrite m6vec_zero. right. record_ring.
  - left. rewrite dot6_comm. now apply HG.
Qed.

Lemma pos_def6_zero (G : Mat6 R) (v : Vec6 R) :
  pos_def6 G -> dot6 (m6vec G v) v = 0 -> v = v6zero.
Proof.
  intros HG H0. destruct (v6_eq_dec v) as [Hv | Hv]; [exact Hv |].
  apply HG in Hv. rewrite dot6_comm in Hv. lra.
Qed.

Lemma sum_from_delta_l (t : nat -> R) (n r : nat) :
  sum_from 0 n (fun i => delta r i * t i) = if (r <? n)%nat then t r else 0.
Proof.
  rewrite <- (sum_from_delta t n r). apply sum_from_ext.
  intros i _. rewrite delta_sym. ring.
Qed.

(** Filling the columns of a zero matrix one by one. *)
Lemma fold_upd_columns {B : Type} (col : nat -> B) (z d : B) (n : nat) :
  let M := fold_left (fun M i => upd i (col i) M) (seq 0 n) (repeat z n) in
  length M = n /\ forall c, (c < n)%nat -> nth c M d = col c.
Proof.
  assert (Hinv : forall k, (k <= n)%nat ->
            let Mk := fold_left (fun M i => upd i (col i) M) (seq 0 k) (repeat z n) in
            length Mk = n /\ forall c, (c < k)%nat -> nth c Mk d = col c).
  { induction k as [| k IH]; intros Hk; cbv zeta.
    - simpl. rewrite repeat_length. split; [reflexivity | intros c Hc; lia].
    - rewrite fold_left_seq_S. destruct IH as [IHl IHc]; [lia |].
      rewrite upd_length. split; [exact IHl |].
      intros c Hc. destruct (Nat.eq_dec c k) as [-> | Hne].
      + apply nth_upd_eq. lia.
      + rewrite nth_upd_neq by auto. apply IHc. lia. }
  exact (Hinv n (Nat.le_refl n)).
Qed.

Lemma MassMatrix_column (exp6 : Mat4 R -> Mat4 R) (thetalist : list R)
    (Mlist : list (Mat4 R)) (Glist : list (Mat6 R)) (Slist : list (Vec6 R)) (c : nat) :
  (c < length thetalist)%nat ->
  nth c (MassMatrix_over exp6 thetalist Mlist Glist Slist) []
  = InverseDynamics_over exp6 thetalist (vnzero (length thetalist))
      (unit_vector (length thetalist) c) v3zero v6zero Mlist Glist Slist.
Proof.
  intros Hc. unfold MassMatrix_over.
  exact (proj2 (fold_upd_columns
                  (fun i => InverseDynamics_over exp6 thetalist
                              (vnzero (length thetalist))
                              (unit_vector (length thetalist) i)
                              v3zero v6zero Mlist Glist Slist)
                  (vnzero (length thetalist)) [] (length thetalist)) c Hc).
Qed.

Section MassMatrixProperties.
Variable exp6 : Mat4 R -> Mat4 R.
Variable thetalist : list R.
Variable Mlist : list (Mat4 R).
Variable Glist : list (Mat6 R).
Variable Slist : list (Vec6 R).

Let n := length thetalist.
Let A := A_at Mlist Slist.
Let AdT := AdT_at exp6 thetalist Mlist Slist.
Let G := fun i => nth i Glist m6zero.
Let tL (x : nat -> R) := torque A AdT G zf x v3zero v6zero.
Let aL (x : nat -> R) := accel A AdT zf x v3zero.
Let M := MassMatrix_over exp6 thetalist Mlist Glist Slist.

Hypothesis G_sym : forall i, (i < n)%nat -> symmetric6 (G i).

Lemma MassMatrix_symmetric : symmetricN M.
Proof.
  intros r c Hr Hc.
  destruct (MassMatrix_columns exp6 thetalist Mlist Glist Slist) as [Hl _].
  fold M n in Hl. rewrite Hl in Hr, Hc.
  unfold M. rewrite !MassMatrix_entry by assumption. fold A AdT G.
  assert (E : forall x r', (r' < n)%nat ->
            torque A AdT G zf x v3zero v6zero n r'
            = sum_from 0 n (fun i => dot6 (m6vec (G i) (aL x (S i))) (aL (delta r') (S i)))).
  { intros x r' Hr'. unfold aL. rewrite <- energy_total.
    rewrite sum_from_delta_l. apply Nat.ltb_lt in Hr'. now rewrite Hr'. }
  change (torque A AdT G zf (delta c) v3zero v6zero n r
          = torque A AdT G zf (delta r) v3zero v6zero n c).
  rewrite (E (delta c) r Hr), (E (delta r) c Hc).
  apply sum_from_ext. intros i Hi. apply symmetric6_dot. apply G_sym. lia.
Qed.
End MassMatrixProperties.

Section MassMatrixPositive.
Variable exp6 : Mat4 R -> Mat4 R.
Variable thetalist : list R.
Variable Mlist : list (Mat4 R).
Variable Glist : list (Mat6 R).
Variable Slist : list (Vec6 R).

Let n := length thetalist.
Let A := A_at Mlist Slist.
Let AdT := AdT_at exp6 thetalist Mlist Slist.
Let G := fun i => nth i Glist m6zero.
Let aL (x : nat -> R) := accel A AdT zf x v3zero.
Let M := MassMatrix_over exp6 thetalist Mlist Glist Slist.

Hypothesis A_nonzero : forall i, (i < n)%nat -> A i <> v6zero.
Hypothesis G_pos : forall i, (i < n)%nat -> pos_def6 (G i).

(** If no link accelerates, no joint does. *)
Lemma accel_zero_joint_zero (x : nat -> R) :
  (forall i, (i < n)%nat -> aL x (S i) = v6zero) ->
  forall i, (i < n)%nat -> x i = 0.
Proof.
  intros Ha i Hi.
  assert (Hprev : aL x i = v6zero).
  { destruct i as [| i]; [unfold aL; simpl; record_ring | apply Ha; lia]. }
  pose proof (Ha i Hi) as HS. unfold aL in HS, Hprev.
  rewrite aL_S, Hprev, m6vec_zero in HS.
  assert (Hs : v6scale (x i) (A i) = v6zero).
  { rewrite <- HS. generalize (A i). record_ring. }
  destruct (v6scale_eq_zero Hs) as [H0 | H0]; [exact H0 |].
  exfalso. exact (A_nonzero Hi H0).
Qed.

Lemma MassMatrix_quadratic_form (x : list R) :
  length x = n ->
  vndot x (mat_vec M x)
  = sum_from 0 n (fun i => dot6 (m6vec (G i) (aL (at_ x) (S i))) (aL (at_ x) (S i))).
Proof.
  intros Hx. unfold M. rewrite MassMatrix_mat_vec. fold n A AdT G.
  rewrite <- Hx at 2. rewrite vndot_map_seq, Hx.
  unfold aL. rewrite <- energy_total.
  apply sum_from_ext. intros i Hi.
  rewrite Nat.sub_0_r. reflexivity.
Qed.

Lemma MassMatrix_positive_definite : pos_defN M.
Proof.
  intros x Hx Hnz.
  destruct (MassMatrix_columns exp6 thetalist Mlist Glist Slist) as [Hl _].
  fold M n in Hl. rewrite Hl in Hx, Hnz.
  rewrite (MassMatrix_quadratic_form x Hx).
  set (q := fun i => dot6 (m6vec (G i) (aL (at_ x) (S i))) (aL (at_ x) (S i))).
  assert (Hq : forall i, (0 <= i < 0 + n)%nat -> 0 <= q i).
  { intros i Hi. unfold q.
    apply (@pos_def6_nonneg (G i) (aL (at_ x) (S i))). apply G_pos. lia. }
  destruct (Rle_lt_or_eq_dec 0 (sum_from 0 n q) (@sum_from_nonneg 0 n q Hq))
    as [Hpos | Hzero]; [exact Hpos |].
  exfalso. apply Hnz.
  assert (Hx0 : forall i, (i < n)%nat -> at_ x i = 0).
  { apply accel_zero_joint_zero. intros i Hi.
    apply (@pos_def6_zero (G i) (aL (at_ x) (S i))); [apply G_pos; lia |].
    apply (@sum_from_nonneg_zero 0 n q Hq (eq_sym Hzero)). lia. }
  apply (nth_ext _ _ 0 0).
  - unfold vnzero. now rewrite repeat_length.
  - intros i Hi. rewrite Hx in Hi. fold (at_ x i). rewrite (Hx0 i Hi).
    symmetry. apply at_vnzero.
Qed.
End MassMatrixPositive.

Lemma pos_def6_m6id : pos_def6 m6id.
Proof.
  intros v Hv.
  assert (Hq : 0 <= dot6 v (m6vec m6id v)).
  { destruct v as [[a0 a1 a2] [b0 b1 b2]]. eval_algebra. unfold m6id. eval_algebra. nra. }
  destruct (Rle_lt_or_eq_dec _ _ Hq) as [Hpos | Hzero]; [exact Hpos |].
  exfalso. apply Hv.
  destruct v as [[a0 a1 a2] [b0 b1 b2]].
  unfold m6id in Hzero. cbv [m6vec dot6 dot3 v3add m3vec row0 row1 row2 m3id m3zero
    ang lin tl tr bl br v0 v1 v2 a00 a01 a02 a10 a11 a12 a20 a21 a22
    sadd smul s0 s1 R_scalar] in Hzero.
  assert (a0 = 0) by nra. assert (a1 = 0) by nra. assert (a2 = 0) by nra.
  assert (b0 = 0) by nra. assert (b1 = 0) by nra. assert (b2 = 0) by nra.
  subst. reflexivity.
Qed.

(** C7.  For a chain whose home transforms are in SE(3), whose screw
    axes are nonzero and whose spatial inertias are symmetric
    positive-definite, the matrix [MassMatrix] assembles, with column [c]
    the result of [InverseDynamics] on the unit acceleration of joint [c]
    (zero joint rates, gravity and tip wrench), is symmetric and
    positive-definite. *)
Theorem MassMatrix_symmetric_positive_definite (thetalist : list R)
    (Mlist : list (Mat4 R)) (Glist : list (Mat6 R)) (Slist : list (Vec6 R)) :
  (forall i, (i < length thetalist)%nat -> is_SE3 (nth i Mlist m4zero)) ->
  (forall i, (i < length thetalist)%nat -> nth i Slist v6zero <> v6zero) ->
  (forall i, (i < length thetalist)%nat ->
             symmetric6 (nth i Glist m6zero) /\ pos_def6 (nth i Glist m6zero)) ->
  let n := length thetalist in
  let M := MassMatrix thetalist Mlist Glist Slist in
  length M = n /\
  (forall c, (c < n)%nat ->
     nth c M [] = InverseDynamics thetalist (vnzero n) (unit_vector n c)
                    v3zero v6zero Mlist Glist Slist) /\
  symmetricN M /\ pos_defN M.
Proof.
  intros HM HS HG. cbv zeta. unfold MassMatrix, InverseDynamics.
  repeat apply conj.
  - apply MassMatrix_columns.
  - intros c Hc. now apply MassMatrix_column.
  - apply MassMatrix_symmetric. intros i Hi. apply HG. exact Hi.
  - apply MassMatrix_positive_definite.
    + intros i Hi. apply A_at_nonzero; [| apply HS; exact Hi].
      intros j Hj. apply HM. lia.
    + intros i Hi. apply HG. exact Hi.
Qed.

Lemma MassMatrix_symmetric_positive_definite_witness :
  symmetricN (MassMatrix [0.1] Mlist_1 Glist_1 Slist_1) /\
  pos_defN (MassMatrix [0.1] Mlist_1 Glist_1 Slist_1).
Proof.
  destruct (@MassMatrix_symmetric_positive_definite [0.1] Mlist_1 Glist_1 Slist_1)
    as (_ & _ & Hs & Hp).
  - intros i Hi. simpl in Hi. assert (i = 0%nat) as -> by lia. apply is_SE3_id.
  - intros i Hi. simpl in Hi. assert (i = 0%nat) as -> by lia.
    simpl. intros H. injection H. lra.
  - intros i Hi. simpl in Hi. assert (i = 0%nat) as -> by lia.
    simpl. split; [reflexivity | apply pos_def6_m6id].
  - split; assumption.
Defined.

(** * Further properties of the library *)

(** ** so(3) and se(3) *)

Lemma VecToso3_so3ToVec (so3mat : Mat3 R) :
  m3trans so3mat = m3scale (-1) so3mat -> VecToso3 (so3ToVec so3mat) = so3mat.
Proof.
  destruct so3mat as [b00 b01 b02 b10 b11 b12 b20 b21 b22].
  eval_algebra. intros H. injection H; intros.
  split_records; lra.
Qed.

(** X1.  [VecToso3] returns a skew-symmetric matrix that [so3ToVec] reads
    back, and [so3ToVec] followed by [VecToso3] rebuilds every
    skew-symmetric matrix. *)
Theorem so3_round_trip (omg : Vec3 R) (so3mat : Mat3 R) :
  so3ToVec (VecToso3 omg) = omg /\
  m3trans (VecToso3 omg) = m3scale (-1) (VecToso3 omg) /\
  (m3trans so3mat = m3scale (-1) so3mat -> VecToso3 (so3ToVec so3mat) = so3mat).
Proof.
  repeat apply conj.
  - record_ring.
  - record_ring.
  - apply VecToso3_so3ToVec.
Qed.

Lemma so3_round_trip_witness :
  VecToso3 (so3ToVec (mkMat3 0 (-3) 2 3 0 (-1) (-2) 1 0))
  = mkMat3 0 (-3) 2 3 0 (-1) (-2) 1 0.
Proof.
  apply (so3_round_trip v3zero (mkMat3 0 (-3) 2 3 0 (-1) (-2) 1 0)).
  eval_algebra. split_records; lra.
Defined.

Lemma se3_shape (m : Mat4 R) :
  m3trans (rot m) = m3scale (-1) (rot m) -> bot m = v3zero -> crn m = 0 ->
  VecTose3 (se3ToVec m) = m.
Proof.
  destruct m as [[b00 b01 b02 b10 b11 b12 b20 b21 b22] p b c].
  eval_algebra. intros H -> ->. injection H; intros.
  split_records; try reflexivity; lra.
Qed.

(** [VecTose3] and [se3ToVec] are inverse to each other on the matrices
    of se(3): a skew-symmetric block over a zero bottom row. *)
Theorem se3_round_trip (V : Vec6 R) (se3mat : Mat4 R) :
  se3ToVec (VecTose3 V) = V /\
  (m3trans (rot se3mat) = m3scale (-1) (rot se3mat) ->
   bot se3mat = v3zero -> crn se3mat = 0 ->
   VecTose3 (se3ToVec se3mat) = se3mat).
Proof.
  split.
  - record_ring.
  - apply se3_shape.
Qed.

Lemma se3_round_trip_witness :
  VecTose3 (se3ToVec (VecTose3 (mkVec6 (mkVec3 1 2 3) (mkVec3 4 5 6))))
  = VecTose3 (mkVec6 (mkVec3 1 2 3) (mkVec3 4 5 6)).
Proof.
  apply (se3_round_trip v6zero (VecTose3 (mkVec6 (mkVec3 1 2 3) (mkVec3 4 5 6))));
    try reflexivity.
  eval_algebra. split_records; lra.
Defined.

(** [RpToTrans] and [TransToRp] are inverse to each other on matrices
    with bottom row (0, 0, 0, 1). *)
Theorem Rp_round_trip (Rm : Mat3 R) (p : Vec3 R) (T : Mat4 R) :
  TransToRp (RpToTrans Rm p) = (Rm, p) /\
  (bot T = v3zero -> crn T = 1 ->
   RpToTrans (fst (TransToRp T)) (snd (TransToRp T)) = T).
Proof.
  split; [reflexivity |].
  destruct T as [Rt pt b c]. simpl. intros -> ->. reflexivity.
Qed.

(** ** Inverse of a rigid transform *)

Lemma m3mul_id_r (A : Mat3 R) : m3mul A m3id = A.
Proof. record_ring. Qed.

Lemma m3trans_involutive (A : Mat3 R) : m3trans (m3trans A) = A.
Proof. record_ring. Qed.

Lemma det3_trans (A : Mat3 R) : det3 (m3trans A) = det3 A.
Proof. intros; break_records; eval_algebra; ring. Qed.

Lemma TransInv_is_inverse (T : Mat4 R) :
  is_SE3 T ->
  is_SE3 (TransInv T) /\
  m4mul (TransInv T) T = m4id /\ m4mul T (TransInv T) = m4id /\
  TransInv (TransInv T) = T.
Proof.
  intros (H1 & H2 & H3 & H4 & H5).
  destruct T as [Rm p b c]. simpl in *. subst b c.
  assert (Hk : m3vec (m3mul Rm (m3trans Rm)) p = p) by (rewrite H2; apply m3vec_id).
  split; [| repeat apply conj].
  - unfold is_SE3, TransInv; cbn [TransToRp rot pos bot crn].
    rewrite m3trans_involutive, det3_trans. repeat apply conj; auto.
  - unfold TransInv, m4mul; cbn [TransToRp rot pos bot crn].
    unfold m4id. f_equal.
    + rewrite <- H1. clear. record_ring.
    + clear. record_ring.
    + clear. record_ring.
    + clear. record_ring.
  - unfold TransInv, m4mul; cbn [TransToRp rot pos bot crn].
    unfold m4id. f_equal.
    + rewrite <- H2. clear. record_ring.
    + rewrite <- Hk at 2. rewrite m3vec_mul. clear.
      generalize (m3vec (m3trans Rm) p). record_ring.
    + clear. record_ring.
    + clear. record_ring.
  - unfold TransInv; cbn [TransToRp rot pos bot crn].
    rewrite m3trans_involutive. f_equal.
    rewrite <- Hk at 2. rewrite m3vec_mul. clear.
    generalize (m3vec (m3trans Rm) p). record_ring.
Qed.

(** X2.  On SE(3), [TransInv] returns a transform of SE(3) that is the inverse
    on both sides, and applying it twice gives the transform back. *)
Theorem TransInv_inverse (T : Mat4 R) :
  is_SE3 T ->
  is_SE3 (TransInv T) /\
  m4mul (TransInv T) T = m4id /\ m4mul T (TransInv T) = m4id /\
  TransInv (TransInv T) = T.
Proof. apply TransInv_is_inverse. Qed.

Lemma TransInv_inverse_witness :
  m4mul (TransInv (RpToTrans m3id (mkVec3 1 2 3))) (RpToTrans m3id (mkVec3 1 2 3))
  = m4id.
Proof.
  apply (TransInv_inverse (T := RpToTrans m3id (mkVec3 1 2 3))).
  unfold is_SE3; simpl. repeat apply conj; try reflexivity.
  - eval_algebra. split_records; lra.
  - eval_algebra. split_records; lra.
  - eval_algebra. lra.
Defined.

(** ** The Lie bracket *)

(** X3.  [ad(V1) V2] is the Lie bracket of the twists: in matrix form it is
    the commutator [[V1][V2] - [V2][V1]]; it is antisymmetric and
    satisfies the Jacobi identity. *)
Theorem ad_Lie_bracket (V1 V2 V3 : Vec6 R) :
  VecTose3 (m6vec (ad V1) V2)
  = m4sub (m4mul (VecTose3 V1) (VecTose3 V2)) (m4mul (VecTose3 V2) (VecTose3 V1)) /\
  m6vec (ad V1) V2 = v6scale (-1) (m6vec (ad V2) V1) /\
  v6add (v6add (m6vec (ad V1) (m6vec (ad V2) V3)) (m6vec (ad V2) (m6vec (ad V3) V1)))
        (m6vec (ad V3) (m6vec (ad V1) V2))
  = v6zero.
Proof.
  repeat apply conj.
  - break_records. unfold m4sub. eval_algebra. split_records; ring.
  - record_ring.
  - record_ring.
Qed.

(** ** Screw axes *)

(** X4.  [ScrewToAxis] keeps the direction [s] as angular part, and the
    linear part [q x s + h s] has component [h |s|^2] along [s]: for a
    unit direction the pitch is read back as [s . v], and the part of [v]
    orthogonal to the pitch term is the moment [q x s] of the axis. *)
Theorem ScrewToAxis_pitch (q s : Vec3 R) (h : R) :
  ang (ScrewToAxis q s h) = s /\
  dot3 s (lin (ScrewToAxis q s h)) = h * dot3 s s /\
  v3sub (lin (ScrewToAxis q s h)) (v3scale h s) = cross3 q s /\
  dot3 q (cross3 q s) = 0.
Proof.
  repeat apply conj.
  - reflexivity.
  - break_records. eval_algebra. unfold ScrewToAxis. eval_algebra. ring.
  - break_records. unfold ScrewToAxis. eval_algebra. split_records; ring.
  - break_records. eval_algebra. ring.
Qed.

(** ** The logarithm returns a matrix of so(3) *)

Lemma MatrixLog3_is_skew (Rm : Mat3 R) :
  m3trans (MatrixLog3 Rm) = m3scale (-1) (MatrixLog3 Rm).
Proof.
  unfold MatrixLog3.
  destruct (Rleb 1 ((trace3 Rm - 1) / 2)); [record_ring |].
  destruct (Rleb ((trace3 Rm - 1) / 2) (-1)).
  - generalize (if negb (NearZero (1 + a22 Rm))
                then v3scale (1 / sqrt (2 * (1 + a22 Rm)))
                       (mkVec3 (a02 Rm) (a12 Rm) (1 + a22 Rm))
                else if negb (NearZero (1 + a11 Rm))
                     then v3scale (1 / sqrt (2 * (1 + a11 Rm)))
                            (mkVec3 (a01 Rm) (1 + a11 Rm) (a21 Rm))
                     else v3scale (1 / sqrt (2 * (1 + a00 Rm)))
                            (mkVec3 (1 + a00 Rm) (a10 Rm) (a20 Rm))).
    generalize M_PI. clear. record_ring.
  - generalize (acos ((trace3 Rm - 1) / 2) / 2 / sin (acos ((trace3 Rm - 1) / 2))).
    clear. record_ring.
Qed.

(** ** Axis and angle *)

Lemma norm3_scale (k : R) (v : Vec3 R) : 0 <= k -> norm3 (v3scale k v) = k * norm3 v.
Proof.
  intros Hk. unfold norm3.
  replace (dot3 (v3scale k v) (v3scale k v)) with (k * k * dot3 v v)
    by (destruct v; eval_algebra; ring).
  rewrite sqrt_mult by (try apply dot3_nonneg; nra).
  rewrite sqrt_square by assumption. reflexivity.
Qed.

Lemma norm3_pos (v : Vec3 R) : v <> v3zero -> 0 < norm3 v.
Proof.
  intros Hv. destruct (Rle_lt_or_eq_dec _ _ (norm3_nonneg v)) as [H | H]; [exact H |].
  exfalso. apply Hv. apply norm3_eq_0. now symmetry.
Qed.

(** X6.  For a nonzero vector [AxisAng3] returns a unit axis and the norm, and
    axis times angle is the vector again. *)
Theorem AxisAng3_round_trip (expc3 : Vec3 R) :
  expc3 <> v3zero ->
  norm3 (fst (AxisAng3 expc3)) = 1 /\
  snd (AxisAng3 expc3) = norm3 expc3 /\
  v3scale (snd (AxisAng3 expc3)) (fst (AxisAng3 expc3)) = expc3.
Proof.
  intros Hv. pose proof (norm3_pos Hv) as Hn.
  assert (Hd : 0 < dot3 expc3 expc3).
  { destruct (Rle_lt_or_eq_dec _ _ (dot3_nonneg expc3)) as [H | H]; [exact H |].
    exfalso. unfold norm3 in Hn. rewrite <- H, sqrt_0 in Hn. lra. }
  unfold AxisAng3, Normalize. cbn [fst snd].
  apply Rltb_true in Hd. rewrite Hd.
  repeat apply conj.
  - rewrite norm3_scale by (left; now apply Rinv_0_lt_compat). field. lra.
  - reflexivity.
  - generalize dependent (norm3 expc3). intros t Ht.
    destruct expc3. eval_algebra. split_records; field; lra.
Qed.

Lemma AxisAng3_round_trip_witness :
  v3scale (snd (AxisAng3 (mkVec3 1 2 3))) (fst (AxisAng3 (mkVec3 1 2 3)))
  = mkVec3 1 2 3.
Proof.
  apply (AxisAng3_round_trip (expc3 := mkVec3 1 2 3)).
  intros H. injection H. lra.
Defined.

(** X7.  When the divisor [theta] of [AxisAng6] is not zero, the returned
    axis times [theta] is the input again; the axis has a unit angular
    part when the angular norm is at least 1e-6, and a unit linear part
    otherwise. *)
Theorem AxisAng6_round_trip (expc6 : Vec6 R) :
  snd (AxisAng6 expc6) <> 0 ->
  v6scale (snd (AxisAng6 expc6)) (fst (AxisAng6 expc6)) = expc6 /\
  (0.000001 <= norm3 (ang expc6) -> norm3 (ang (fst (AxisAng6 expc6))) = 1) /\
  (norm3 (ang expc6) < 0.000001 -> norm3 (lin (fst (AxisAng6 expc6))) = 1).
Proof.
  unfold AxisAng6. cbn [fst snd].
  destruct (NearZero (norm3 (ang expc6))) eqn:Hnz; intros Ht.
  - apply NearZero_true in Hnz.
    rewrite Rabs_pos_eq in Hnz by apply norm3_nonneg.
    pose proof (norm3_nonneg (lin expc6)) as Hp.
    repeat apply conj.
    + remember (norm3 (lin expc6)) as t eqn:Et. clear Et Hnz Hp.
      destruct expc6 as [[] []]. eval_algebra. split_records; field; exact Ht.
    + intros Hbig. lra.
    + intros _. cbn [lin].
      replace (mkVec3 (v0 (lin expc6) / norm3 (lin expc6))
                (v1 (lin expc6) / norm3 (lin expc6))
                (v2 (lin expc6) / norm3 (lin expc6)))
        with (v3scale (/ norm3 (lin expc6)) (lin expc6))
        by (destruct (lin expc6); eval_algebra; split_records; field; lra).
      rewrite norm3_scale by (left; apply Rinv_0_lt_compat; lra). field. lra.
  - apply NearZero_false in Hnz.
    rewrite Rabs_pos_eq in Hnz by apply norm3_nonneg.
    repeat apply conj.
    + remember (norm3 (ang expc6)) as t eqn:Et. clear Et Hnz.
      destruct expc6 as [[] []]. eval_algebra. split_records; field; exact Ht.
    + intros _. cbn [ang].
      replace (mkVec3 (v0 (ang expc6) / norm3 (ang expc6))
                (v1 (ang expc6) / norm3 (ang expc6))
                (v2 (ang expc6) / norm3 (ang expc6)))
        with (v3scale (/ norm3 (ang expc6)) (ang expc6))
        by (destruct (ang expc6); eval_algebra; split_records; field; lra).
      rewrite norm3_scale by (left; apply Rinv_0_lt_compat; lra). field. lra.
    + intros Hsmall. lra.
Qed.

Lemma AxisAng6_round_trip_witness :
  v6scale (snd (AxisAng6 (mkVec6 v3zero (mkVec3 0 2 0))))
          (fst (AxisAng6 (mkVec6 v3zero (mkVec3 0 2 0))))
  = mkVec6 v3zero (mkVec3 0 2 0).
Proof.
  apply (AxisAng6_round_trip (mkVec6 v3zero (mkVec3 0 2 0))).
  unfold AxisAng6. cbn [fst snd ang lin].
  rewrite norm3_zero, NearZero_0.
  intros H. apply norm3_eq_0 in H. injection H. lra.
Defined.

(** ** The exponentials are rigid transforms *)

Module Groebner.
Import NsatzTactic RNsatz.

Lemma rodrigues_rotation (x y z t s c : R) : rodrigues_rotation_statement x y z t s c.
Proof.
  unfold rodrigues_rotation_statement, rodrigues. intros Hu Hsc. repeat apply conj.
  - eval_algebra. split_records; nsatz.
  - eval_algebra. split_records; nsatz.
  - eval_algebra. nsatz.
Qed.
End Groebner.

Lemma MatrixExp3_is_rotation (omg : Vec3 R) :
  let Rm := MatrixExp3 (VecToso3 omg) in
  m3mul (m3trans Rm) Rm = m3id /\ m3mul Rm (m3trans Rm) = m3id /\ det3 Rm = 1.
Proof.
  cbv zeta. unfold MatrixExp3.
  destruct (NearZero (fnorm3 (VecToso3 omg))) eqn:Hnz.
  - repeat apply conj; [record_ring | record_ring | eval_algebra; ring].
  - apply NearZero_false in Hnz.
    rewrite Rabs_pos_eq in Hnz by apply fnorm3_nonneg.
    replace (so3ToVec (VecToso3 omg)) with omg by (destruct omg; reflexivity).
    unfold AxisAng3. cbn [snd].
    assert (Hd : 0 < dot3 omg omg).
    { destruct (Rle_lt_or_eq_dec _ _ (dot3_nonneg omg)) as [H | H]; [exact H |].
      exfalso. unfold fnorm3 in Hnz.
      replace (dot3 (row0 (VecToso3 omg)) (row0 (VecToso3 omg))
               + dot3 (row1 (VecToso3 omg)) (row1 (VecToso3 omg))
               + dot3 (row2 (VecToso3 omg)) (row2 (VecToso3 omg)))
        with (2 * dot3 omg omg) in Hnz by (destruct omg; eval_algebra; ring).
      rewrite <- H, Rmult_0_r, sqrt_0 in Hnz. lra. }
    assert (Hn : 0 < norm3 omg) by (unfold norm3; now apply sqrt_lt_R0).
    assert (Hsq : norm3 omg * norm3 omg = dot3 omg omg)
      by (unfold norm3; apply sqrt_sqrt; lra).
    destruct omg as [x y z].
    apply (@Groebner.rodrigues_rotation x y z (1 / norm3 (mkVec3 x y z))
             (sin (norm3 (mkVec3 x y z))) (cos (norm3 (mkVec3 x y z)))).
    + change (x * x + y * y + z * z) with (dot3 (mkVec3 x y z) (mkVec3 x y z)).
      rewrite <- Hsq. field. lra.
    + pose proof (sin2_cos2 (norm3 (mkVec3 x y z))) as H. unfold Rsqr in H. exact H.
Qed.

(** X8.  [MatrixExp3] sends every skew-symmetric matrix [VecToso3 omg] to a
    rotation matrix: orthonormal, with determinant 1. *)
Theorem MatrixExp3_rotation (omg : Vec3 R) :
  let Rm := MatrixExp3 (VecToso3 omg) in
  m3mul (m3trans Rm) Rm = m3id /\ m3mul Rm (m3trans Rm) = m3id /\ det3 Rm = 1.
Proof. apply MatrixExp3_is_rotation. Qed.


Lemma MatrixExp6_is_SE3 (V : Vec6 R) : is_SE3 (MatrixExp6 (VecTose3 V)).
Proof.
  - unfold MatrixExp6.
    replace (so3ToVec (rot (VecTose3 V))) with (ang V)
      by (destruct V as [[] ?]; reflexivity).
    destruct (NearZero (norm3 (ang V))).
    + unfold is_SE3; cbn [rot pos bot crn].
      repeat apply conj; try reflexivity; try record_ring.
    + unfold is_SE3; cbn [rot pos bot crn].
      change (rot (VecTose3 V)) with (VecToso3 (ang V)).
      destruct (MatrixExp3_is_rotation (ang V)) as (H1 & H2 & H3).
      repeat apply conj; auto.
Qed.

(** X9.  [MatrixExp6] sends every twist matrix [VecTose3 V] to a transform of
    SE(3); for a twist without angular part it is the translation by the
    linear part. *)
Theorem MatrixExp6_rigid (V : Vec6 R) :
  is_SE3 (MatrixExp6 (VecTose3 V)) /\
  (ang V = v3zero -> MatrixExp6 (VecTose3 V) = RpToTrans m3id (lin V)).
Proof.
  split; [apply MatrixExp6_is_SE3 |].
  intros H. rewrite MatrixExp6_no_rotation.
  - reflexivity.
  - destruct V as [[] ?]. simpl in H. rewrite H. reflexivity.
Qed.

Lemma joint_exp_rigid (Slist : list (Vec6 R)) (thetaList : list R) (i : nat) :
  is_SE3 (joint_exp Slist thetaList i).
Proof. unfold joint_exp. apply MatrixExp6_is_SE3. Qed.

Lemma fold_left_poe (E : nat -> Mat4 R) (l : list nat) :
  forall M, fold_left (fun T i => m4mul T (E i)) l M
            = m4mul M (fold_right (fun i P => m4mul (E i) P) m4id l).
Proof.
  induction l as [| i l IH]; intros M; simpl.
  - now rewrite m4mul_id_r.
  - now rewrite IH, m4mul_assoc.
Qed.

Lemma FKinSpace_poe (M : Mat4 R) (axes : list (Vec6 R)) (thetaList : list R) :
  FKinSpace M axes thetaList = m4mul (poe_first_leftmost axes thetaList) M.
Proof.
  unfold FKinSpace, poe_first_leftmost.
  rewrite <- fold_left_rev_right, rev_involutive.
  apply (fold_right_poe (joint_exp axes thetaList)).
Qed.

Lemma FKinBody_poe (M : Mat4 R) (axes : list (Vec6 R)) (thetaList : list R) :
  FKinBody M axes thetaList = m4mul M (poe_first_leftmost axes thetaList).
Proof. apply (fold_left_poe (joint_exp axes thetaList)). Qed.

(** X10.  [FKinBody(M, Blist, thetaList)] is
    [M exp([B_1] theta_1) ... exp([B_n] theta_n)], and both forward
    kinematics routines return a transform of SE(3) when the home pose
    [M] is one. *)
Theorem FKin_rigid (M : Mat4 R) (axes : list (Vec6 R)) (thetaList : list R) :
  FKinBody M axes thetaList = m4mul M (poe_first_leftmost axes thetaList) /\
  (is_SE3 M -> is_SE3 (FKinSpace M axes thetaList) /\ is_SE3 (FKinBody M axes thetaList)).
Proof.
  assert (HP : is_SE3 (poe_first_leftmost axes thetaList)).
  { unfold poe_first_leftmost. induction (seq 0 (length thetaList)) as [| i l IH]; simpl.
    - apply is_SE3_id.
    - apply is_SE3_mul; [apply joint_exp_rigid | exact IH]. }
  assert (HB := FKinBody_poe M axes thetaList).
  split; [exact HB |].
  intros HM. split.
  - rewrite FKinSpace_poe. now apply is_SE3_mul.
  - rewrite HB. now apply is_SE3_mul.
Qed.

Lemma FKin_rigid_witness :
  is_SE3 (FKinSpace m4id Slist_PR thetalist_PR) /\
  is_SE3 (FKinBody m4id Slist_PR thetalist_PR).
Proof.
  apply (FKin_rigid m4id Slist_PR thetalist_PR). apply is_SE3_id.
Defined.

Lemma joint_exp_zero (Slist : list (Vec6 R)) (n i : nat) :
  joint_exp Slist (vnzero n) i = m4id.
Proof.
  unfold joint_exp. rewrite at_vnzero.
  replace (v6scale 0 (col Slist i)) with (@v6zero R _)
    by (generalize (col Slist i); record_ring).
  rewrite MatrixExp6_no_rotation by reflexivity. reflexivity.
Qed.

(** X11.  With all joint angles zero both forward kinematics routines return
    the home pose, whatever the screw axes. *)
Theorem FKin_home (M : Mat4 R) (axes : list (Vec6 R)) (n : nat) :
  FKinSpace M axes (vnzero n) = M /\ FKinBody M axes (vnzero n) = M.
Proof.
  assert (HP : poe_first_leftmost axes (vnzero n) = m4id).
  { unfold poe_first_leftmost.
    induction (seq 0 (length (vnzero n))) as [| i l IH]; simpl; [reflexivity |].
    now rewrite IH, joint_exp_zero, m4mul_id_l. }
  split.
  - now rewrite FKinSpace_poe, HP, m4mul_id_l.
  - now rewrite FKinBody_poe, HP, m4mul_id_r.
Qed.

(** ** The equation of motion and its terms *)

Section ForceTerms.
Variables (A : nat -> Vec6 R) (AdT : nat -> Mat6 R) (G : nat -> Mat6 R).

Ltac gen_opaque :=
  repeat match goal with
         | |- context [wrench ?a ?b ?c ?d ?e ?f ?g ?k ?j] =>
             generalize (wrench a b c d e f g k j); intro
         | |- context [accel ?a ?b ?c ?d ?e ?i] => generalize (accel a b c d e i); intro
         | |- context [twist ?a ?b ?c ?i] => generalize (twist a b c i); intro
         | |- context [AdT ?i] => generalize (AdT i); intro
         | |- context [G ?i] => generalize (G i); intro
         | |- context [A ?i] => generalize (A i); intro
         end.

Ltac vec_ring := gen_opaque; record_ring.

(** Scaling the joint rates scales the twists. *)
Lemma twist_scale (k : R) (dth : nat -> R) (i : nat) :
  twist A AdT (fun j => k * dth j) i = v6scale k (twist A AdT dth i).
Proof.
  induction i as [| i IH]; simpl; [record_ring |].
  rewrite IH. vec_ring.
Qed.

(** Without joint accelerations and gravity the link accelerations are
    quadratic in the joint rates. *)
Lemma accel_quadratic (k : R) (dth : nat -> R) (i : nat) :
  accel A AdT (fun j => k * dth j) zf v3zero i
  = v6scale (k * k) (accel A AdT dth zf v3zero i).
Proof.
  induction i as [| i IH]; [simpl; record_ring |].
  cbn [accel]. rewrite IH, twist_scale. unfold zf. vec_ring.
Qed.

Lemma wrench_quadratic (k : R) (dth : nat -> R) (m j : nat) :
  wrench A AdT G (fun j => k * dth j) zf v3zero v6zero m j
  = v6scale (k * k) (wrench A AdT G dth zf v3zero v6zero m j).
Proof.
  revert j; induction m as [| m IH]; intros j; [simpl; record_ring |].
  cbn [wrench]. rewrite IH, accel_quadratic, twist_scale. vec_ring.
Qed.

Lemma torque_quadratic (k : R) (dth : nat -> R) (n i : nat) :
  torque A AdT G (fun j => k * dth j) zf v3zero v6zero n i
  = k * k * torque A AdT G dth zf v3zero v6zero n i.
Proof. unfold torque. rewrite wrench_quadratic. vec_ring. Qed.

(** At rest the link accelerations are linear in the gravity vector. *)
Lemma accel_gravity_linear (a b : R) (g1 g2 : Vec3 R) (i : nat) :
  accel A AdT zf zf (v3add (v3scale a g1) (v3scale b g2)) i
  = v6add (v6scale a (accel A AdT zf zf g1 i)) (v6scale b (accel A AdT zf zf g2 i)).
Proof.
  induction i as [| i IH]; [simpl; record_ring |].
  cbn [accel]. rewrite IH, twist_zf. unfold zf. vec_ring.
Qed.

Lemma wrench_gravity_linear (a b : R) (g1 g2 : Vec3 R) (m j : nat) :
  wrench A AdT G zf zf (v3add (v3scale a g1) (v3scale b g2)) v6zero m j
  = v6add (v6scale a (wrench A AdT G zf zf g1 v6zero m j))
          (v6scale b (wrench A AdT G zf zf g2 v6zero m j)).
Proof.
  revert j; induction m as [| m IH]; intros j; [simpl; record_ring |].
  cbn [wrench]. rewrite IH, accel_gravity_linear, twist_zf. vec_ring.
Qed.

Lemma torque_gravity_linear (a b : R) (g1 g2 : Vec3 R) (n i : nat) :
  torque A AdT G zf zf (v3add (v3scale a g1) (v3scale b g2)) v6zero n i
  = a * torque A AdT G zf zf g1 v6zero n i + b * torque A AdT G zf zf g2 v6zero n i.
Proof. unfold torque. rewrite wrench_gravity_linear. vec_ring. Qed.

(** At rest and without gravity the wrenches are linear in the tip wrench. *)
Lemma wrench_tip_linear (a b : R) (F1 F2 : Vec6 R) (m j : nat) :
  wrench A AdT G zf zf v3zero (v6add (v6scale a F1) (v6scale b F2)) m j
  = v6add (v6scale a (wrench A AdT G zf zf v3zero F1 m j))
          (v6scale b (wrench A AdT G zf zf v3zero F2 m j)).
Proof.
  revert j; induction m as [| m IH]; intros j; [reflexivity |].
  cbn [wrench]. rewrite IH, accel_zf, twist_zf. vec_ring.
Qed.

Lemma torque_tip_linear (a b : R) (F1 F2 : Vec6 R) (n i : nat) :
  torque A AdT G zf zf v3zero (v6add (v6scale a F1) (v6scale b F2)) n i
  = a * torque A AdT G zf zf v3zero F1 n i + b * torque A AdT G zf zf v3zero F2 n i.
Proof. unfold torque. rewrite wrench_tip_linear. vec_ring. Qed.
End ForceTerms.

Lemma at_vnscale (k : R) (x : list R) (j : nat) : at_ (vnscale k x) j = k * at_ x j.
Proof.
  unfold at_, vnscale. revert j.
  induction x as [| a x IH]; intros [| j]; simpl; try apply IH;
    change (@smul R R_scalar) with Rmult; ring.
Qed.

Section EquationOfMotion.
Variable thetalist : list R.
Variable Mlist : list (Mat4 R).
Variable Glist : list (Mat6 R).
Variable Slist : list (Vec6 R).

Let n := length thetalist.
Let A := A_at Mlist Slist.
Let AdT := AdT_at MatrixExp6 thetalist Mlist Slist.
Let G := fun i => nth i Glist m6zero.

Lemma VelQuadraticForces_recurrence (dthetalist : list R) :
  VelQuadraticForces thetalist dthetalist Mlist Glist Slist
  = map (torque A AdT G (at_ dthetalist) zf v3zero v6zero n) (seq 0 n).
Proof.
  unfold VelQuadraticForces, VelQuadraticForces_over.
  rewrite InverseDynamics_recurrence. fold n A AdT G.
  apply map_ext_in. intros i Hi. apply in_seq in Hi.
  apply torque_ext; [lia | reflexivity |].
  intros j _. apply at_vnzero.
Qed.

Lemma GravityForces_recurrence (g : Vec3 R) :
  GravityForces thetalist g Mlist Glist Slist
  = map (torque A AdT G zf zf g v6zero n) (seq 0 n).
Proof.
  unfold GravityForces, GravityForces_over.
  rewrite InverseDynamics_recurrence. fold n A AdT G.
  apply map_ext_in. intros i Hi. apply in_seq in Hi.
  apply torque_ext; [lia | |]; intros j _; apply at_vnzero.
Qed.

Lemma EndEffectorForces_recurrence (Ftip : Vec6 R) :
  EndEffectorForces thetalist Ftip Mlist Glist Slist
  = map (torque A AdT G zf zf v3zero Ftip n) (seq 0 n).
Proof.
  unfold EndEffectorForces, EndEffectorForces_over.
  rewrite InverseDynamics_recurrence. fold n A AdT G.
  apply map_ext_in. intros i Hi. apply in_seq in Hi.
  apply torque_ext; [lia | |]; intros j _; apply at_vnzero.
Qed.

(** X12.  The equation of motion.  The torques [InverseDynamics] returns are
    [M(theta) ddtheta + c(theta, dtheta) + g(theta) + J^T(theta) Ftip],
    with the four terms as [MassMatrix], [VelQuadraticForces],
    [GravityForces] and [EndEffectorForces] compute them. *)
Theorem InverseDynamics_equation_of_motion (dthetalist ddthetalist : list R)
    (g : Vec3 R) (Ftip : Vec6 R) :
  InverseDynamics thetalist dthetalist ddthetalist g Ftip Mlist Glist Slist
  = vnadd (vnadd (vnadd
      (mat_vec (MassMatrix thetalist Mlist Glist Slist) ddthetalist)
      (VelQuadraticForces thetalist dthetalist Mlist Glist Slist))
      (GravityForces thetalist g Mlist Glist Slist))
      (EndEffectorForces thetalist Ftip Mlist Glist Slist).
Proof.
  rewrite VelQuadraticForces_recurrence, GravityForces_recurrence,
    EndEffectorForces_recurrence.
  unfold MassMatrix. rewrite MassMatrix_mat_vec.
  unfold InverseDynamics. rewrite InverseDynamics_recurrence. fold n A AdT G.
  unfold vnadd. rewrite !map2_map_seq.
  apply map_ext_in. intros i Hi.
  rewrite (torque_split A AdT G (at_ dthetalist) (at_ ddthetalist) g Ftip).
  change (@sadd R R_scalar) with Rplus. ring.
Qed.

(** X13.  The Coriolis and centripetal torques are quadratic in the joint
    rates: scaling the rates by [k] scales them by [k^2]; in particular
    they vanish at rest. *)
Theorem VelQuadraticForces_quadratic (k : R) (dthetalist : list R) :
  VelQuadraticForces thetalist (vnscale k dthetalist) Mlist Glist Slist
  = vnscale (k * k) (VelQuadraticForces thetalist dthetalist Mlist Glist Slist) /\
  VelQuadraticForces thetalist (vnzero (length thetalist)) Mlist Glist Slist
  = vnzero (length thetalist).
Proof.
  fold n. split.
  - rewrite !VelQuadraticForces_recurrence. unfold vnscale. rewrite map_map.
    apply map_ext_in. intros i Hi. apply in_seq in Hi.
    rewrite <- torque_quadratic.
    apply torque_ext; [lia | | reflexivity].
    intros j _. apply at_vnscale.
  - rewrite VelQuadraticForces_recurrence.
    unfold vnzero. apply (nth_ext _ _ 0 0).
    + now rewrite length_map, length_seq, repeat_length.
    + intros i Hi. rewrite length_map, length_seq in Hi.
      rewrite nth_repeat_same.
      rewrite (nth_indep _ 0 (torque A AdT G (at_ (vnzero n)) zf v3zero v6zero n 0))
        by (rewrite length_map, length_seq; lia).
      rewrite map_nth, seq_nth by lia. cbn [Nat.add].
      rewrite (torque_ext A AdT G (at_ (vnzero n)) zf zf zf v3zero v6zero (n := n) (i := i))
        by (try lia; try reflexivity; intros; apply at_vnzero).
      apply (tL_zf A AdT G).
Qed.

(** X14.  The gravity torques are linear in the gravity vector, and the
    torques that balance a tip wrench are linear in the wrench. *)
Theorem GravityForces_EndEffectorForces_linear (a b : R) (g1 g2 : Vec3 R)
    (F1 F2 : Vec6 R) :
  GravityForces thetalist (v3add (v3scale a g1) (v3scale b g2)) Mlist Glist Slist
  = vnadd (vnscale a (GravityForces thetalist g1 Mlist Glist Slist))
          (vnscale b (GravityForces thetalist g2 Mlist Glist Slist)) /\
  EndEffectorForces thetalist (v6add (v6scale a F1) (v6scale b F2)) Mlist Glist Slist
  = vnadd (vnscale a (EndEffectorForces thetalist F1 Mlist Glist Slist))
          (vnscale b (EndEffectorForces thetalist F2 Mlist Glist Slist)).
Proof.
  split.
  - rewrite !GravityForces_recurrence. unfold vnadd, vnscale.
    rewrite !map_map, map2_map_seq.
    apply map_ext. intros i. apply torque_gravity_linear.
  - rewrite !EndEffectorForces_recurrence. unfold vnadd, vnscale.
    rewrite !map_map, map2_map_seq.
    apply map_ext. intros i. apply torque_tip_linear.
Qed.
End EquationOfMotion.

(** ** The Jacobians, column by column *)

Lemma Adjoint_id_vec (v : Vec6 R) : m6vec (Adjoint m4id) v = v.
Proof. record_ring. Qed.

Lemma poe_upto_S (Slist : list (Vec6 R)) (thetaList : list R) (i : nat) :
  poe_upto Slist thetaList (S i)
  = m4mul (poe_upto Slist thetaList i) (joint_exp Slist thetaList i).
Proof. unfold poe_upto. now rewrite fold_left_seq_S. Qed.

(** What the loop of [JacobianSpace] has done after its iterations
    [1 .. k]. *)
Lemma JacobianSpace_inv (Slist : list (Vec6 R)) (thetaList : list R) (k : nat) :
  let st := fold_left
      (fun (st : Mat4 R * list (Vec6 R)) i =>
         let sListTemp := v6scale (at_ thetaList (i - 1)) (col Slist (i - 1)) in
         let T := m4mul (fst st) (MatrixExp6 (VecTose3 sListTemp)) in
         (T, upd i (m6vec (Adjoint T) (col Slist i)) (snd st)))
      (seq 1 k) (m4id, Slist) in
  fst st = poe_upto Slist thetaList k /\
  length (snd st) = length Slist /\
  forall i, col (snd st) i
            = if (i <=? k)%nat then m6vec (Adjoint (poe_upto Slist thetaList i)) (col Slist i)
              else col Slist i.
Proof.
  induction k as [| k IH]; cbv zeta.
  - simpl. repeat apply conj; [reflexivity | reflexivity |].
    intros [| i]; simpl; [| reflexivity].
    unfold poe_upto. simpl. now rewrite Adjoint_id_vec.
  - rewrite seq_S, fold_left_app. cbn [fold_left Nat.add].
    cbv zeta in IH. destruct IH as (HT & HL & HC).
    set (st := fold_left _ (seq 1 k) (m4id, Slist)) in *.
    cbn [fst snd].
    replace (S k - 1)%nat with k by lia.
    assert (HT' : m4mul (fst st)
                    (MatrixExp6 (VecTose3 (v6scale (at_ thetaList k) (col Slist k))))
                  = poe_upto Slist thetaList (S k))
      by (rewrite poe_upto_S, HT; reflexivity).
    rewrite HT'. repeat apply conj; [reflexivity | now rewrite upd_length |].
    intros i. unfold col at 1.
    destruct (Nat.eq_dec i (S k)) as [-> | Hne].
    + rewrite Nat.leb_refl.
      destruct (Nat.lt_ge_cases (S k) (length Slist)) as [Hlt | Hge].
      * apply nth_upd_eq. now rewrite HL.
      * rewrite nth_overflow by (rewrite upd_length, HL; lia).
        unfold col. rewrite nth_overflow by lia. record_ring.
    + rewrite nth_upd_neq by auto. fold (col (snd st) i). rewrite HC.
      destruct (Nat.leb_spec i k), (Nat.leb_spec i (S k)); try lia; reflexivity.
Qed.

Lemma JacobianSpace_spec (Slist : list (Vec6 R)) (thetaList : list R) :
  length (JacobianSpace Slist thetaList) = length Slist /\
  forall i, col (JacobianSpace Slist thetaList) i
            = if (i <? length thetaList)%nat
              then m6vec (Adjoint (poe_upto Slist thetaList i)) (col Slist i)
              else col Slist i.
Proof.
  destruct (JacobianSpace_inv Slist thetaList (length thetaList - 1)) as (_ & HL & HC).
  fold (JacobianSpace Slist thetaList) in HL, HC.
  split; [exact HL |].
  intros i. rewrite HC.
  destruct (Nat.leb_spec i (length thetaList - 1)), (Nat.ltb_spec i (length thetaList));
    try lia; try reflexivity.
  assert (i = 0%nat) as -> by lia.
  unfold poe_upto. simpl. apply Adjoint_id_vec.
Qed.

(** X15.  Column [i] of the space Jacobian is the screw axis of joint [i]
    carried by the joints before it:
    [Ad(exp([S_0] theta_0) ... exp([S_(i-1)] theta_(i-1))) S_i];
    the result has the columns of [Slist], the first one unchanged. *)
Theorem JacobianSpace_columns (Slist : list (Vec6 R)) (thetaList : list R) :
  length (JacobianSpace Slist thetaList) = length Slist /\
  col (JacobianSpace Slist thetaList) 0 = col Slist 0 /\
  forall i, (i < length thetaList)%nat ->
    col (JacobianSpace Slist thetaList) i
    = m6vec (Adjoint (poe_upto Slist thetaList i)) (col Slist i).
Proof.
  destruct (JacobianSpace_spec Slist thetaList) as [HL HC].
  repeat apply conj; [exact HL | |].
  - rewrite HC. destruct (0 <? length thetaList)%nat; [| reflexivity].
    unfold poe_upto. simpl. apply Adjoint_id_vec.
  - intros i Hi. rewrite HC.
    apply Nat.ltb_lt in Hi. now rewrite Hi.
Qed.

Lemma poe_down_to_step (Blist : list (Vec6 R)) (thetaList : list R) (i : nat) :
  (S i < length thetaList)%nat ->
  poe_down_to Blist thetaList i
  = m4mul (poe_down_to Blist thetaList (S i)) (joint_exp_back Blist thetaList (i + 1)).
Proof.
  intros Hi. unfold poe_down_to.
  replace (length thetaList - 1 - i)%nat with (S (length thetaList - 1 - S i)) by lia.
  cbn [seq rev]. now rewrite fold_left_app.
Qed.

Lemma poe_down_to_last (Blist : list (Vec6 R)) (thetaList : list R) (i : nat) :
  (length thetaList <= S i)%nat -> poe_down_to Blist thetaList i = m4id.
Proof.
  intros Hi. unfold poe_down_to.
  replace (length thetaList - 1 - i)%nat with 0%nat by lia. reflexivity.
Qed.

(** What the loop of [JacobianBody] has done after its iterations
    [n - 2 .. m]. *)
Lemma JacobianBody_inv (Blist : list (Vec6 R)) (thetaList : list R) (d m : nat) :
  (m + d = length thetaList - 1)%nat ->
  let st := fold_left
      (fun (st : Mat4 R * list (Vec6 R)) i =>
         let bListTemp := v6scale (at_ thetaList (i + 1)) (col Blist (i + 1)) in
         let T := m4mul (fst st) (MatrixExp6 (VecTose3 (v6scale (-1) bListTemp))) in
         (T, upd i (m6vec (Adjoint T) (col Blist i)) (snd st)))
      (rev (seq m d)) (m4id, Blist) in
  fst st = poe_down_to Blist thetaList m /\
  length (snd st) = length Blist /\
  forall i, col (snd st) i
            = if (m <=? i)%nat then m6vec (Adjoint (poe_down_to Blist thetaList i)) (col Blist i)
              else col Blist i.
Proof.
  revert m; induction d as [| d IH]; intros m Hm; cbv zeta.
  - simpl. repeat apply conj; [| reflexivity |].
    + symmetry. apply poe_down_to_last. lia.
    + intros i. destruct (Nat.leb_spec m i); [| reflexivity].
      rewrite poe_down_to_last by lia. now rewrite Adjoint_id_vec.
  - cbn [seq rev]. rewrite fold_left_app. cbn [fold_left].
    specialize (IH (S m)). cbv zeta in IH. destruct IH as (HT & HL & HC); [lia |].
    set (st := fold_left _ (rev (seq (S m) d)) (m4id, Blist)) in *.
    cbn [fst snd].
    assert (HT' : m4mul (fst st)
                    (MatrixExp6 (VecTose3 (v6scale (-1)
                       (v6scale (at_ thetaList (m + 1)) (col Blist (m + 1))))))
                  = poe_down_to Blist thetaList m)
      by (rewrite poe_down_to_step, HT by lia; reflexivity).
    rewrite HT'. repeat apply conj; [reflexivity | now rewrite upd_length |].
    intros i. unfold col at 1.
    destruct (Nat.eq_dec i m) as [-> | Hne].
    + rewrite Nat.leb_refl.
      destruct (Nat.lt_ge_cases m (length Blist)) as [Hlt | Hge].
      * apply nth_upd_eq. now rewrite HL.
      * rewrite nth_overflow by (rewrite upd_length, HL; lia).
        unfold col. rewrite nth_overflow by lia. record_ring.
    + rewrite nth_upd_neq by auto. fold (col (snd st) i). rewrite HC.
      destruct (Nat.leb_spec (S m) i), (Nat.leb_spec m i); try lia; reflexivity.
Qed.

Lemma JacobianBody_spec (Blist : list (Vec6 R)) (thetaList : list R) :
  length (JacobianBody Blist thetaList) = length Blist /\
  forall i, col (JacobianBody Blist thetaList) i
            = m6vec (Adjoint (poe_down_to Blist thetaList i)) (col Blist i).
Proof.
  destruct (@JacobianBody_inv Blist thetaList (length thetaList - 1) 0) as (_ & HL & HC);
    [lia |].
  fold (JacobianBody Blist thetaList) in HL, HC.
  split; [exact HL |].
  intros i. rewrite HC. reflexivity.
Qed.

(** X16.  Column [i] of the body Jacobian is the screw axis of joint [i]
    carried back by the joints after it:
    [Ad(exp(-[B_(n-1)] theta_(n-1)) ... exp(-[B_(i+1)] theta_(i+1))) B_i];
    the result has the columns of [Blist], the last one unchanged. *)
Theorem JacobianBody_columns (Blist : list (Vec6 R)) (thetaList : list R) :
  length (JacobianBody Blist thetaList) = length Blist /\
  col (JacobianBody Blist thetaList) (length thetaList - 1)
  = col Blist (length thetaList - 1) /\
  forall i, col (JacobianBody Blist thetaList) i
            = m6vec (Adjoint (poe_down_to Blist thetaList i)) (col Blist i).
Proof.
  destruct (JacobianBody_spec Blist thetaList) as [HL HC].
  repeat apply conj; [exact HL | | exact HC].
  rewrite HC, poe_down_to_last by lia. apply Adjoint_id_vec.
Qed.

Lemma joint_exp_back_zero (Blist : list (Vec6 R)) (n i : nat) :
  joint_exp_back Blist (vnzero n) i = m4id.
Proof.
  unfold joint_exp_back. rewrite at_vnzero.
  replace (v6scale (-1) (v6scale 0 (col Blist i))) with (@v6zero R _)
    by (generalize (col Blist i); record_ring).
  rewrite MatrixExp6_no_rotation by reflexivity. reflexivity.
Qed.

Lemma poe_upto_zero (Slist : list (Vec6 R)) (n i : nat) :
  poe_upto Slist (vnzero n) i = m4id.
Proof.
  induction i as [| i IH]; [reflexivity |].
  now rewrite poe_upto_S, IH, joint_exp_zero, m4mul_id_l.
Qed.

Lemma poe_down_to_zero (Blist : list (Vec6 R)) (n i : nat) :
  poe_down_to Blist (vnzero n) i = m4id.
Proof.
  unfold poe_down_to.
  induction (rev (seq i (length (vnzero n) - 1 - i))) as [| j l IH] using rev_ind;
    [reflexivity |].
  now rewrite fold_left_app, IH; cbn [fold_left]; rewrite joint_exp_back_zero, m4mul_id_l.
Qed.

(** X17.  With all joint angles zero the Jacobians are the screw axes
    themselves. *)
Theorem Jacobian_home (axes : list (Vec6 R)) (n : nat) :
  JacobianSpace axes (vnzero n) = axes /\ JacobianBody axes (vnzero n) = axes.
Proof.
  destruct (JacobianSpace_spec axes (vnzero n)) as [HLs HCs].
  destruct (JacobianBody_spec axes (vnzero n)) as [HLb HCb].
  split; apply (nth_ext _ _ v6zero v6zero); auto; intros i _.
  - fold (col (JacobianSpace axes (vnzero n)) i). rewrite HCs.
    destruct (i <? length (vnzero n))%nat; [| reflexivity].
    now rewrite poe_upto_zero, Adjoint_id_vec.
  - fold (col (JacobianBody axes (vnzero n)) i). rewrite HCb.
    now rewrite poe_down_to_zero, Adjoint_id_vec.
Qed.

(** ** Membership tests *)

Lemma fnorm3_eq_0 (A : Mat3 R) : fnorm3 A = 0 -> A = m3zero.
Proof.
  intros Hn. unfold fnorm3 in Hn.
  destruct A as [b00 b01 b02 b10 b11 b12 b20 b21 b22].
  unfold dot3, row0, row1, row2 in Hn; simpl in Hn.
  apply sqrt_eq_0 in Hn; [| nra].
  assert (b00 = 0) by nra. assert (b01 = 0) by nra. assert (b02 = 0) by nra.
  assert (b10 = 0) by nra. assert (b11 = 0) by nra. assert (b12 = 0) by nra.
  assert (b20 = 0) by nra. assert (b21 = 0) by nra. assert (b22 = 0) by nra.
  subst. reflexivity.
Qed.

Lemma fnorm3_zero : fnorm3 m3zero = 0.
Proof.
  unfold fnorm3, dot3, row0, row1, row2; simpl.
  replace (0 * 0 + 0 * 0 + 0 * 0 + (0 * 0 + 0 * 0 + 0 * 0) + (0 * 0 + 0 * 0 + 0 * 0))
    with 0 by ring.
  apply sqrt_0.
Qed.

Lemma m3sub_self (A : Mat3 R) : m3sub A A = m3zero.
Proof. record_ring. Qed.

Lemma m3sub_eq_zero (A B : Mat3 R) : m3sub A B = m3zero -> A = B.
Proof.
  destruct A, B. eval_algebra. intros H. injection H; intros.
  split_records; lra.
Qed.

Lemma det3_id : det3 (@m3id R _) = 1.
Proof. eval_algebra. ring. Qed.

(** X18.  [DistanceToSO3] is zero exactly on the rotation matrices: the
    matrices with [Mt M = I] and determinant 1. *)
Theorem DistanceToSO3_zero_iff_rotation (M : Mat3 R) :
  DistanceToSO3 M = 0 <-> m3mul (m3trans M) M = m3id /\ det3 M = 1.
Proof.
  unfold DistanceToSO3. split.
  - destruct (Rltb 0 (det3 M)) eqn:Hd; [| lra].
    apply Rltb_true in Hd. intros Hn.
    apply fnorm3_eq_0, m3sub_eq_zero in Hn.
    split; [exact Hn |].
    assert (Hsq : det3 M * det3 M = 1)
      by (rewrite <- (det3_trans M) at 1; rewrite <- det3_mul, Hn; apply det3_id).
    nra.
  - intros [Ho Hd].
    assert (Hp : Rltb 0 (det3 M) = true) by (apply Rltb_true; lra).
    rewrite Hp, Ho, m3sub_self. apply fnorm3_zero.
Qed.

Lemma DistanceToSE3_of_SE3 (T : Mat4 R) : is_SE3 T -> DistanceToSE3 T = 0.
Proof.
  intros (Ho & _ & Hd & Hb & Hc). unfold DistanceToSE3.
  assert (Hp : Rltb 0 (det3 (rot T)) = true) by (apply Rltb_true; lra).
  rewrite Hp, Ho, m3sub_self, Hb, Hc. unfold fnorm4. cbn [rot pos bot crn].
  unfold dot3, row0, row1, row2; simpl.
  match goal with |- sqrt ?x = 0 => replace x with 0 by ring end.
  apply sqrt_0.
Qed.

(** X19.  On a transform of SE(3) [DistanceToSE3] is zero and [TestIfSE3]
    holds. *)
Theorem TestIfSE3_accepts_SE3 (T : Mat4 R) :
  is_SE3 T -> DistanceToSE3 T = 0 /\ TestIfSE3 T = true.
Proof.
  intros H. apply DistanceToSE3_of_SE3 in H. split; [exact H |].
  unfold TestIfSE3. rewrite H, Rabs_R0. apply Rltb_true. lra.
Qed.

Lemma TestIfSE3_accepts_SE3_witness :
  DistanceToSE3 (RpToTrans m3id (mkVec3 1 2 3)) = 0 /\
  TestIfSE3 (RpToTrans m3id (mkVec3 1 2 3)) = true.
Proof.
  apply (@TestIfSE3_accepts_SE3 (RpToTrans m3id (mkVec3 1 2 3))).
  unfold is_SE3, RpToTrans. cbn [rot pos bot crn].
  repeat apply conj; try reflexivity; try record_ring.
Defined.

(** X20.  [TestIfSO3] accepts every matrix [MatrixExp3] returns on a
    skew-symmetric matrix, and [TestIfSE3] every matrix [MatrixExp6]
    returns on a twist matrix. *)
Theorem TestIf_accepts_exponentials (omg : Vec3 R) (V : Vec6 R) :
  TestIfSO3 (MatrixExp3 (VecToso3 omg)) = true /\
  TestIfSE3 (MatrixExp6 (VecTose3 V)) = true.
Proof.
  split.
  - destruct (MatrixExp3_is_rotation omg) as (Ho & _ & Hd). cbv zeta in Ho, Hd.
    unfold TestIfSO3, DistanceToSO3.
    assert (Hp : Rltb 0 (det3 (MatrixExp3 (VecToso3 omg))) = true)
      by (apply Rltb_true; lra).
    rewrite Hp, Ho, m3sub_self, fnorm3_zero, Rabs_R0. apply Rltb_true. lra.
  - unfold TestIfSE3. rewrite (DistanceToSE3_of_SE3 (MatrixExp6_is_SE3 V)), Rabs_R0.
    apply Rltb_true. lra.
Qed.

(** ** Time scaling along the motion *)

Lemma cubic_poly_range (x : R) : 0 <= x -> x <= 1 -> 0 <= 3 * x ^ 2 - 2 * x ^ 3 <= 1.
Proof.
  intros Hx0 Hx1. split.
  - replace (3 * x ^ 2 - 2 * x ^ 3) with (x * x * (3 - 2 * x)) by ring.
    apply Rmult_le_pos; nra.
  - replace (3 * x ^ 2 - 2 * x ^ 3) with (1 - (1 - x) * (1 - x) * (1 + 2 * x)) by ring.
    assert (0 <= (1 - x) * (1 - x) * (1 + 2 * x)) by (apply Rmult_le_pos; nra). lra.
Qed.

Lemma quintic_poly_range (x : R) :
  0 <= x -> x <= 1 -> 0 <= 10 * x ^ 3 - 15 * x ^ 4 + 6 * x ^ 5 <= 1.
Proof.
  intros Hx0 Hx1. split.
  - replace (10 * x ^ 3 - 15 * x ^ 4 + 6 * x ^ 5)
      with (x * x * x * (6 * (x - 5 / 4) * (x - 5 / 4) + 5 / 8)) by field.
    apply Rmult_le_pos; [apply Rmult_le_pos; nra | nra].
  - replace (10 * x ^ 3 - 15 * x ^ 4 + 6 * x ^ 5)
      with (1 - (1 - x) * (1 - x) * (1 - x)
                * (6 * (x + 1 / 4) * (x + 1 / 4) + 5 / 8)) by field.
    assert (0 <= (1 - x) * (1 - x) * (1 - x) * (6 * (x + 1 / 4) * (x + 1 / 4) + 5 / 8))
      by (apply Rmult_le_pos; [apply Rmult_le_pos; nra | nra]).
    lra.
Qed.

Lemma timeratio_range (Tf t : R) :
  0 < Tf -> 0 <= t -> t <= Tf -> 0 <= 1.0 * t / Tf <= 1.
Proof.
  intros HTf H0 H1.
  replace (1.0 * t / Tf) with (t / Tf) by lra.
  assert (Hi : 0 < / Tf) by now apply Rinv_0_lt_compat.
  split.
  - apply Rmult_le_pos; lra.
  - replace 1 with (Tf / Tf) by (field; lra).
    apply Rmult_le_compat_r; lra.
Qed.

Lemma time_scaling_range (Tf t : R) :
  0 < Tf -> 0 <= t -> t <= Tf ->
  0 <= CubicTimeScaling Tf t <= 1 /\ 0 <= QuinticTimeScaling Tf t <= 1.
Proof.
  intros HTf H0 H1. destruct (timeratio_range HTf H0 H1).
  unfold CubicTimeScaling, QuinticTimeScaling. cbv zeta.
  split; [now apply cubic_poly_range | now apply quintic_poly_range].
Qed.

(** X21.  For [Tf > 0] and [0 <= t1 <= t2 <= Tf] both time scalings stay in
    [0, 1] and do not decrease from [t1] to [t2], and they are symmetric
    about the middle of the motion: [s(Tf - t) = 1 - s(t)]. *)
Theorem time_scaling_monotone (Tf t1 t2 : R) :
  0 < Tf -> 0 <= t1 -> t1 <= t2 -> t2 <= Tf ->
  (0 <= CubicTimeScaling Tf t1 /\ CubicTimeScaling Tf t1 <= CubicTimeScaling Tf t2
   /\ CubicTimeScaling Tf t2 <= 1) /\
  (0 <= QuinticTimeScaling Tf t1 /\ QuinticTimeScaling Tf t1 <= QuinticTimeScaling Tf t2
   /\ QuinticTimeScaling Tf t2 <= 1) /\
  CubicTimeScaling Tf (Tf - t1) = 1 - CubicTimeScaling Tf t1 /\
  QuinticTimeScaling Tf (Tf - t1) = 1 - QuinticTimeScaling Tf t1.
Proof.
  intros HTf H1 H12 H2.
  destruct (@time_scaling_range Tf t1) as [[Hc1 _] [Hq1 _]]; try lra.
  destruct (@time_scaling_range Tf t2) as [[_ Hc2] [_ Hq2]]; try lra.
  destruct (@timeratio_range Tf t1) as [Ha Ha1]; try lra.
  destruct (@timeratio_range Tf t2) as [Hb0 Hb]; try lra.
  assert (Hab : 1.0 * t1 / Tf <= 1.0 * t2 / Tf).
  { apply Rmult_le_compat_r; [left; now apply Rinv_0_lt_compat | lra]. }
  assert (Hs : 1.0 * (Tf - t1) / Tf = 1 - 1.0 * t1 / Tf).
  { replace (1.0 * (Tf - t1)) with (Tf - t1) by lra.
    replace (1.0 * t1) with t1 by lra. field. lra. }
  repeat apply conj; try assumption;
    unfold CubicTimeScaling, QuinticTimeScaling; cbv zeta; rewrite ?Hs; try ring;
    clear Hs Hc1 Hc2 Hq1 Hq2;
    generalize dependent (1.0 * t2 / Tf); generalize dependent (1.0 * t1 / Tf);
    clear; intros a Ha Ha1 b Hb0 Hb Hab.
  - assert (H : 0 <= (b - a) * (3 * (a + b) - 2 * (a * a + a * b + b * b))).
    { apply Rmult_le_pos; [lra |].
      assert (0 <= a * (1 - a)) by (apply Rmult_le_pos; lra).
      assert (0 <= b * (1 - b)) by (apply Rmult_le_pos; lra).
      assert (0 <= a * (1 - b)) by (apply Rmult_le_pos; lra).
      assert (0 <= b * (1 - a)) by (apply Rmult_le_pos; lra).
      lra. }
    replace (3 * b ^ 2 - 2 * b ^ 3)
      with (3 * a ^ 2 - 2 * a ^ 3
            + (b - a) * (3 * (a + b) - 2 * (a * a + a * b + b * b))) by ring.
    lra.
  - (* the difference is (b - a) times the integral of 30 x^2 (1 - x)^2
       over the segment from a to b, written as a sum of squares *)
    set (c0 := a * (1 - a)). set (c1 := (b - a) * (1 - 2 * a)).
    set (c2 := - ((b - a) * (b - a))).
    assert (Hsos : 0 <= (c0 + c1 / 2 + c2 / 3) * (c0 + c1 / 2 + c2 / 3)
                        + (c1 + c2) * (c1 + c2) / 12 + c2 * c2 / 180).
    { generalize (Rle_0_sqr (c0 + c1 / 2 + c2 / 3)) (Rle_0_sqr (c1 + c2)) (Rle_0_sqr c2).
      unfold Rsqr. generalize ((c0 + c1 / 2 + c2 / 3) * (c0 + c1 / 2 + c2 / 3))
        ((c1 + c2) * (c1 + c2)) (c2 * c2). intros; lra. }
    replace (10 * b ^ 3 - 15 * b ^ 4 + 6 * b ^ 5)
      with (10 * a ^ 3 - 15 * a ^ 4 + 6 * a ^ 5
            + (b - a) * (30 * ((c0 + c1 / 2 + c2 / 3) * (c0 + c1 / 2 + c2 / 3)
                               + (c1 + c2) * (c1 + c2) / 12 + c2 * c2 / 180)))
      by (unfold c0, c1, c2; field).
    assert (0 <= (b - a) * (30 * ((c0 + c1 / 2 + c2 / 3) * (c0 + c1 / 2 + c2 / 3)
                               + (c1 + c2) * (c1 + c2) / 12 + c2 * c2 / 180)))
      by (apply Rmult_le_pos; lra).
    lra.
Qed.

Lemma time_scaling_monotone_witness :
  CubicTimeScaling 2 0.5 <= CubicTimeScaling 2 1.5 /\
  QuinticTimeScaling 2 0.5 <= QuinticTimeScaling 2 1.5.
Proof.
  destruct (@time_scaling_monotone 2 0.5 1.5) as ((_ & A & _) & (_ & B & _) & _);
    [lra | lra | lra | lra |].
  split; assumption.
Defined.

(** ** Inverse kinematics from a solution *)

(** X22.  When the initial guess is already within the tolerances, [IKinBody]
    and [IKinSpace] return true at once and leave the joint angles as
    they are, without a Newton-Raphson step. *)
Theorem IKin_already_solved (solve : list (Vec6 R) -> Vec6 R -> list R)
    (axes : list (Vec6 R)) (M T : Mat4 R) (eomg ev : R) (thetalist0 : list R) :
  (within_tolerance (Vb_of axes M T thetalist0) eomg ev ->
   IKinBody solve axes M T eomg ev thetalist0 = (true, thetalist0)) /\
  (within_tolerance (Vs_of axes M T thetalist0) eomg ev ->
   IKinSpace solve axes M T eomg ev thetalist0 = (true, thetalist0)).
Proof.
  split; intros H; apply twist_err_false in H.
  - unfold IKinBody, IKinBody_final, maxiterations, IKinBody_start.
    cbn [IKinBody_loop ik_err]. rewrite H. reflexivity.
  - unfold IKinSpace, IKinSpace_final, maxiterations, IKinSpace_start.
    cbn [IKinSpace_loop ik_err]. rewrite H. reflexivity.
Qed.

Lemma MatrixLog3_id : MatrixLog3 m3id = m3zero.
Proof.
  unfold MatrixLog3.
  assert (H : Rleb 1 ((trace3 (@m3id R _) - 1) / 2) = true).
  { apply Rleb_true. eval_algebra. lra. }
  now rewrite H.
Qed.

Lemma MatrixLog6_id : MatrixLog6 m4id = m4zero.
Proof.
  unfold MatrixLog6. cbn [TransToRp fst snd m4id rot pos].
  rewrite MatrixLog3_id, fnorm3_zero, NearZero_0. reflexivity.
Qed.

(** ** Logarithm of an exponential *)

Lemma rodrigues_trace (x y z t s c : R) :
  trace3 (rodrigues x y z t s c) = 3 - 2 * (1 - c) * (t * t * (x * x + y * y + z * z)).
Proof. unfold rodrigues. eval_algebra. ring. Qed.

Lemma rodrigues_skew_part (x y z t s c : R) :
  m3sub (rodrigues x y z t s c) (m3trans (rodrigues x y z t s c))
  = m3scale (2 * s * t) (VecToso3 (mkVec3 x y z)).
Proof. unfold rodrigues. eval_algebra. split_records; ring. Qed.

Lemma fnorm3_VecToso3 (omg : Vec3 R) : fnorm3 (VecToso3 omg) = sqrt 2 * norm3 omg.
Proof.
  unfold fnorm3, norm3. rewrite <- sqrt_mult by (try apply dot3_nonneg; lra).
  f_equal. destruct omg. eval_algebra. ring.
Qed.

Lemma MatrixLog3_of_MatrixExp3 (omg : Vec3 R) :
  0.000001 <= norm3 omg -> norm3 omg < PI ->
  MatrixLog3 (MatrixExp3 (VecToso3 omg)) = VecToso3 omg.
Proof.
  intros Hlo Hhi.
  assert (Hs2 : 1 <= sqrt 2).
  { rewrite <- sqrt_1 at 1. apply sqrt_le_1; lra. }
  assert (Hnz : NearZero (fnorm3 (VecToso3 omg)) = false).
  { apply NearZero_false. rewrite Rabs_pos_eq by apply fnorm3_nonneg.
    rewrite fnorm3_VecToso3. nra. }
  unfold MatrixExp3. rewrite Hnz.
  replace (so3ToVec (VecToso3 omg)) with omg by (destruct omg; reflexivity).
  unfold AxisAng3. cbn [snd].
  remember (norm3 omg) as th eqn:Eth.
  assert (Hsq : th * th = dot3 omg omg)
    by (subst th; unfold norm3; apply sqrt_sqrt, dot3_nonneg).
  destruct omg as [x y z].
  change (m3add (m3add m3id (m3scale (sin th) (m3scale (1 / th) (VecToso3 (mkVec3 x y z)))))
            (m3scale (1 - cos th)
               (m3mul (m3scale (1 / th) (VecToso3 (mkVec3 x y z)))
                      (m3scale (1 / th) (VecToso3 (mkVec3 x y z))))))
    with (rodrigues x y z (1 / th) (sin th) (cos th)).
  assert (Hu : 1 / th * (1 / th) * (x * x + y * y + z * z) = 1).
  { change (x * x + y * y + z * z) with (dot3 (mkVec3 x y z) (mkVec3 x y z)).
    rewrite <- Hsq. field. lra. }
  assert (Hsin : 0 < sin th) by (apply sin_gt_0; lra).
  assert (Hsc : sin th * sin th + cos th * cos th = 1)
    by (pose proof (sin2_cos2 th) as H; unfold Rsqr in H; exact H).
  assert (Hc1 : cos th < 1) by nra.
  assert (Hc2 : -1 < cos th) by nra.
  unfold MatrixLog3.
  rewrite rodrigues_trace, Hu.
  replace ((3 - 2 * (1 - cos th) * 1 - 1) / 2) with (cos th) by lra.
  assert (H1 : Rleb 1 (cos th) = false) by (apply Rleb_false; lra).
  assert (H2 : Rleb (cos th) (-1) = false) by (apply Rleb_false; lra).
  rewrite H1, H2, rodrigues_skew_part, acos_cos by lra.
  generalize (VecToso3 (mkVec3 x y z)). intros K.
  destruct K. eval_algebra. split_records; field; lra.
Qed.

Lemma PI_above_3 : 3 < PI.
Proof. pose proof PI2_3_2. lra. Qed.

(** X23.  [MatrixLog3] undoes [MatrixExp3] on the rotation vectors of
    length between 0.1 and 3, away from the identity and from the half
    turn. *)
Theorem MatrixLog3_MatrixExp3 (omg : Vec3 R) :
  0.1 <= norm3 omg <= 3 ->
  MatrixLog3 (MatrixExp3 (VecToso3 omg)) = VecToso3 omg.
Proof.
  intros [Hlo Hhi]. pose proof PI_above_3.
  apply MatrixLog3_of_MatrixExp3; lra.
Qed.

Lemma MatrixLog3_MatrixExp3_witness :
  MatrixLog3 (MatrixExp3 (VecToso3 (mkVec3 0 0 1))) = VecToso3 (mkVec3 0 0 1).
Proof.
  assert (Hn : norm3 (mkVec3 0 0 1) = 1).
  { unfold norm3. replace (dot3 (mkVec3 0 0 1) (mkVec3 0 0 1)) with 1
      by (eval_algebra; ring). apply sqrt_1. }
  apply (@MatrixLog3_MatrixExp3 (mkVec3 0 0 1)); rewrite Hn. lra.
Defined.

(** ** Trajectories *)

Lemma timegap_last (Tf : R) (N : nat) :
  (2 <= N)%nat -> Tf / IZR (Z.of_nat N - 1) * INR (N - 1) = Tf.
Proof.
  intros HN. rewrite INR_IZR_INZ.
  replace (Z.of_nat (N - 1)) with (Z.of_nat N - 1)%Z by lia.
  field. apply not_0_IZR. lia.
Qed.

Lemma timegap_range (Tf : R) (N i : nat) :
  0 < Tf -> (2 <= N)%nat -> (i < N)%nat ->
  0 <= Tf / IZR (Z.of_nat N - 1) * INR i <= Tf.
Proof.
  intros HTf HN Hi.
  assert (Hd : 0 < IZR (Z.of_nat N - 1)) by (apply IZR_lt; lia).
  assert (Hi0 : 0 <= INR i) by apply pos_INR.
  assert (Hi1 : INR i <= IZR (Z.of_nat N - 1)).
  { rewrite INR_IZR_INZ. apply IZR_le. lia. }
  assert (Hg : 0 < Tf / IZR (Z.of_nat N - 1)) by (apply Rdiv_lt_0_compat; lra).
  split; [apply Rmult_le_pos; lra |].
  replace Tf with (Tf / IZR (Z.of_nat N - 1) * IZR (Z.of_nat N - 1)) at 2 by (field; lra).
  apply Rmult_le_compat_l; lra.
Qed.

Lemma time_scaling_at_0 (Tf : R) :
  CubicTimeScaling Tf 0 = 0 /\ QuinticTimeScaling Tf 0 = 0.
Proof.
  unfold CubicTimeScaling, QuinticTimeScaling. cbv zeta.
  replace (1.0 * 0 / Tf) with 0 by (unfold Rdiv; lra). split; ring.
Qed.

Lemma time_scaling_at_Tf (Tf : R) :
  Tf <> 0 -> CubicTimeScaling Tf Tf = 1 /\ QuinticTimeScaling Tf Tf = 1.
Proof.
  intros H. unfold CubicTimeScaling, QuinticTimeScaling. cbv zeta.
  replace (1.0 * Tf / Tf) with 1 by (replace (1.0 * Tf) with Tf by lra; field; exact H).
  split; ring.
Qed.

Lemma blend_0 (a b : list R) :
  length a = length b -> vnadd (vnscale 0 b) (vnscale (1 - 0) a) = a.
Proof.
  unfold vnadd, vnscale.
  revert b; induction a as [| x a IH]; intros [| y b] Hl; simpl in *; try lia; auto.
  rewrite IH by lia. f_equal.
  change (@sadd R R_scalar) with Rplus. change (@smul R R_scalar) with Rmult. ring.
Qed.

Lemma blend_1 (a b : list R) :
  length a = length b -> vnadd (vnscale 1 b) (vnscale (1 - 1) a) = b.
Proof.
  unfold vnadd, vnscale.
  revert b; induction a as [| x a IH]; intros [| y b] Hl; simpl in *; try lia; auto.
  rewrite IH by lia. f_equal.
  change (@sadd R R_scalar) with Rplus. change (@smul R R_scalar) with Rmult. ring.
Qed.

Lemma at_blend (s : R) (a b : list R) (j : nat) :
  length a = length b ->
  at_ (vnadd (vnscale s b) (vnscale (1 - s) a)) j = s * at_ b j + (1 - s) * at_ a j.
Proof.
  unfold at_, vnadd, vnscale.
  revert b j; induction a as [| x a IH]; intros [| y b] [| j] Hl;
    simpl in *; try lia; try ring; try reflexivity.
  apply IH. lia.
Qed.

(** X24.  A joint trajectory has [N] points, starts at [thetastart], ends at
    [thetaend], and in between every joint angle stays between its
    start and end values. *)
Theorem JointTrajectory_endpoints (thetastart thetaend : list R) (Tf : R) (N : nat)
    (method : Z) :
  0 < Tf -> (2 <= N)%nat -> length thetastart = length thetaend ->
  let traj := JointTrajectory thetastart thetaend Tf N method in
  length traj = N /\
  nth 0 traj [] = thetastart /\
  nth (N - 1) traj [] = thetaend /\
  forall i j, (i < N)%nat ->
    Rmin (at_ thetastart j) (at_ thetaend j) <= at_ (nth i traj []) j
    <= Rmax (at_ thetastart j) (at_ thetaend j).
Proof.
  intros HTf HN Hl. cbv zeta. unfold JointTrajectory.
  set (row := fun i : nat => _).
  assert (Hrow : forall i, (i < N)%nat -> nth i (map row (seq 0 N)) [] = row i).
  { intros i Hi. rewrite (nth_indep _ [] (row 0%nat)) by (rewrite length_map, length_seq; lia).
    rewrite map_nth, seq_nth by lia. reflexivity. }
  repeat apply conj.
  - now rewrite length_map, length_seq.
  - rewrite Hrow by lia. unfold row. cbn [INR]. rewrite Rmult_0_r.
    destruct (time_scaling_at_0 Tf) as [-> ->].
    destruct (method =? 3)%Z; now apply blend_0.
  - rewrite Hrow by lia. unfold row. rewrite timegap_last by lia.
    destruct (@time_scaling_at_Tf Tf) as [-> ->]; [lra |].
    destruct (method =? 3)%Z; now apply blend_1.
  - intros i j Hi. rewrite Hrow by lia. unfold row.
    destruct (@timegap_range Tf N i) as [Hg0 Hg1]; try lia; try lra.
    destruct (@time_scaling_range Tf (Tf / IZR (Z.of_nat N - 1) * INR i))
      as [Hc Hq]; try lra.
    assert (Hs : 0 <= (if (method =? 3)%Z
                       then CubicTimeScaling Tf (Tf / IZR (Z.of_nat N - 1) * INR i)
                       else QuinticTimeScaling Tf (Tf / IZR (Z.of_nat N - 1) * INR i)) <= 1)
      by (destruct (method =? 3)%Z; assumption).
    revert Hs. generalize (if (method =? 3)%Z
                       then CubicTimeScaling Tf (Tf / IZR (Z.of_nat N - 1) * INR i)
                       else QuinticTimeScaling Tf (Tf / IZR (Z.of_nat N - 1) * INR i)).
    intros s Hs. rewrite at_blend by exact Hl.
    generalize (at_ thetastart j) (at_ thetaend j). intros a b.
    unfold Rmin, Rmax. destruct (Rle_dec a b); nra.
Qed.

Lemma JointTrajectory_endpoints_witness :
  nth 0 (JointTrajectory [0; 1] [2; -1] 5 4 3) [] = [0; 1] /\
  nth 3 (JointTrajectory [0; 1] [2; -1] 5 4 3) [] = [2; -1].
Proof.
  destruct (@JointTrajectory_endpoints [0; 1] [2; -1] 5 4 3) as (_ & A & B & _);
    [lra | lia | reflexivity |].
  split; [exact A | exact B].
Defined.

Lemma m3scale_skew (k : R) (A : Mat3 R) :
  m3trans A = m3scale (-1) A -> m3trans (m3scale k A) = m3scale (-1) (m3scale k A).
Proof.
  destruct A. eval_algebra. intros H. injection H; intros.
  split_records; nra.
Qed.

(** A scaled logarithm is the matrix of a twist. *)
Lemma MatrixLog6_scaled_se3 (k : R) (T : Mat4 R) :
  exists V, m4scale k (MatrixLog6 T) = VecTose3 V.
Proof.
  exists (se3ToVec (m4scale k (MatrixLog6 T))). symmetry. apply se3_shape.
  - unfold MatrixLog6. destruct (NearZero _); cbn [m4scale rot].
    + record_ring.
    + apply m3scale_skew, MatrixLog3_is_skew.
  - unfold MatrixLog6. destruct (NearZero _); cbn [m4scale bot]; record_ring.
  - unfold MatrixLog6. destruct (NearZero _); cbn [m4scale crn];
      change (@smul R R_scalar) with Rmult; change (@s0 R R_scalar) with 0; ring.
Qed.

Lemma MatrixLog3_scaled_so3 (k : R) (Rm : Mat3 R) :
  m3scale k (MatrixLog3 Rm) = VecToso3 (so3ToVec (m3scale k (MatrixLog3 Rm))).
Proof. symmetry. apply VecToso3_so3ToVec, m3scale_skew, MatrixLog3_is_skew. Qed.

(** Over the reals every point of a screw trajectory and of a Cartesian
    trajectory is a transform of SE(3) when [Xstart] is one. *)
Lemma trajectory_points_rigid (Xstart Xend : Mat4 R) (Tf : R) (N : nat) (method : Z) :
  is_SE3 Xstart ->
  Forall is_SE3 (ScrewTrajectory Xstart Xend Tf N method) /\
  Forall is_SE3 (CartesianTrajectory Xstart Xend Tf N method).
Proof.
  intros HX. split; apply Forall_forall; intros X HIn; apply in_map_iff in HIn;
    destruct HIn as (i & <- & _); cbv zeta.
  - apply is_SE3_mul; [exact HX |].
    match goal with |- is_SE3 (MatrixExp6 (m4scale ?k (MatrixLog6 ?T))) =>
      destruct (MatrixLog6_scaled_se3 k T) as [V ->] end.
    apply MatrixExp6_is_SE3.
  - destruct HX as (Ho & Ho' & Hd & _).
    cbn [TransToRp fst snd].
    match goal with |- context [MatrixExp3 (m3scale ?k (MatrixLog3 ?A))] =>
      rewrite (MatrixLog3_scaled_so3 k A);
      destruct (MatrixExp3_is_rotation (so3ToVec (m3scale k (MatrixLog3 A))))
        as (H1 & H2 & H3); cbv zeta in H1, H2, H3;
      set (E := MatrixExp3 (VecToso3 (so3ToVec (m3scale k (MatrixLog3 A))))) in *
    end.
    unfold is_SE3. cbn [rot pos bot crn].
    repeat apply conj; try reflexivity.
    + rewrite m3trans_mul, m3mul_assoc, <- (m3mul_assoc (m3trans (rot Xstart))), Ho,
        m3mul_id_l. exact H1.
    + rewrite m3trans_mul, m3mul_assoc, <- (m3mul_assoc E), H2, m3mul_id_l. exact Ho'.
    + rewrite det3_mul, Hd, H3. ring.
Qed.

Lemma MatrixExp3_zero (A : Mat3 R) : MatrixExp3 (m3scale 0 A) = m3id.
Proof.
  unfold MatrixExp3.
  replace (m3scale 0 A) with (@m3zero R _) by (destruct A; eval_algebra; split_records; ring).
  now rewrite fnorm3_zero, NearZero_0.
Qed.

Lemma MatrixExp6_zero (A : Mat4 R) : MatrixExp6 (m4scale 0 A) = m4id.
Proof.
  rewrite MatrixExp6_no_rotation.
  - destruct A as [Ar [] Ab Ac]. eval_algebra. split_records; try reflexivity; ring.
  - destruct A as [[] Ap Ab Ac]. eval_algebra. split_records; ring.
Qed.

(** Both Cartesian trajectories have [N] points and start at [Xstart]
    (for [CartesianTrajectory], when the bottom row of [Xstart] is
    [0 0 0 1]). *)
Lemma trajectory_first_point (Xstart Xend : Mat4 R) (Tf : R) (N : nat) (method : Z) :
  0 < Tf -> (2 <= N)%nat ->
  length (ScrewTrajectory Xstart Xend Tf N method) = N /\
  length (CartesianTrajectory Xstart Xend Tf N method) = N /\
  nth 0 (ScrewTrajectory Xstart Xend Tf N method) m4zero = Xstart /\
  (bot Xstart = v3zero -> crn Xstart = 1 ->
   nth 0 (CartesianTrajectory Xstart Xend Tf N method) m4zero = Xstart).
Proof.
  intros HTf HN. unfold ScrewTrajectory, CartesianTrajectory.
  rewrite !length_map, !length_seq.
  destruct N as [| N]; [lia |]. cbn [seq map nth INR]. rewrite Rmult_0_r.
  destruct (time_scaling_at_0 Tf) as [-> ->].
  replace (if (method =? 3)%Z then 0 else 0) with 0 by (destruct (method =? 3)%Z; reflexivity).
  repeat apply conj; try reflexivity.
  - now rewrite MatrixExp6_zero, m4mul_id_r.
  - intros Hb Hc. rewrite MatrixExp3_zero, m3mul_id_r.
    destruct Xstart as [Xr Xp Xb Xc]. cbn [TransToRp fst snd rot pos bot crn] in *.
    subst. f_equal. destruct Xp, (pos Xend). eval_algebra. split_records; ring.
Qed.

(** ** Exponential of a logarithm *)

Module GroebnerSO3.
Import NsatzTactic RNsatz.

Lemma rotation_skew_part (Rm : Mat3 R) : rotation_skew_part_statement Rm.
Proof.
  unfold rotation_skew_part_statement.
  destruct Rm as [r00 r01 r02 r10 r11 r12 r20 r21 r22].
  eval_algebra. intros H1 H3.
  injection H1; intros. clear H1.
  repeat apply conj; [split_records; nsatz | split_records; nsatz | nsatz].
Qed.
End GroebnerSO3.

Lemma m3scale_scale (a b : R) (A : Mat3 R) : m3scale a (m3scale b A) = m3scale (a * b) A.
Proof. record_ring. Qed.

Lemma m3mul_scale (a : R) (A : Mat3 R) :
  m3mul (m3scale a A) (m3scale a A) = m3scale (a * a) (m3mul A A).
Proof. record_ring. Qed.

Lemma so3ToVec_scale (a : R) (A : Mat3 R) : so3ToVec (m3scale a A) = v3scale a (so3ToVec A).
Proof. record_ring. Qed.

Lemma transpose_inverse (Rm : Mat3 R) :
  m3mul (m3trans Rm) Rm = m3id -> det3 Rm = 1 -> m3mul Rm (m3trans Rm) = m3id.
Proof.
  intros Ho Hd. destruct (GroebnerSO3.rotation_skew_part Ho Hd) as (H & _).
  now rewrite m3trans_involutive in H.
Qed.

Lemma MatrixExp3_of_MatrixLog3 (Rm : Mat3 R) :
  m3mul (m3trans Rm) Rm = m3id -> det3 Rm = 1 ->
  -1 < trace3 Rm < 3 ->
  NearZero (fnorm3 (MatrixLog3 Rm)) = false ->
  MatrixExp3 (MatrixLog3 Rm) = Rm.
Proof.
  intros Ho Hd Htr Hnz.
  destruct (GroebnerSO3.rotation_skew_part Ho Hd) as (_ & Hsq & Hlen).
  set (ci := (trace3 Rm - 1) / 2) in *.
  assert (Hci : -1 < ci < 1) by (unfold ci; lra).
  assert (HL : MatrixLog3 Rm
               = m3scale (acos ci / 2 / sin (acos ci)) (m3sub Rm (m3trans Rm))).
  { unfold MatrixLog3. fold ci.
    assert (H1 : Rleb 1 ci = false) by (apply Rleb_false; lra).
    assert (H2 : Rleb ci (-1) = false) by (apply Rleb_false; lra).
    now rewrite H1, H2. }
  assert (Hcos : cos (acos ci) = ci) by (apply cos_acos; lra).
  destruct (acos_bound_lt ci Hci) as [Hth0 Hth1].
  assert (Hsin : 0 < sin (acos ci)) by (apply sin_gt_0; lra).
  assert (Hsc : sin (acos ci) * sin (acos ci) + cos (acos ci) * cos (acos ci) = 1)
    by (pose proof (sin2_cos2 (acos ci)) as H; unfold Rsqr in H; exact H).
  rewrite Hcos in Hsc.
  unfold MatrixExp3. rewrite Hnz, HL. clear Hnz HL.
  unfold AxisAng3. cbn [snd].
  set (th := acos ci) in *. set (s := sin th) in *.
  set (D := m3sub Rm (m3trans Rm)) in *.
  assert (Hk : 0 <= th / 2 / s).
  { unfold Rdiv. apply Rmult_le_pos; [lra |]. left. now apply Rinv_0_lt_compat. }
  assert (Hn : norm3 (so3ToVec (m3scale (th / 2 / s) D)) = th).
  { rewrite so3ToVec_scale, norm3_scale by exact Hk.
    unfold norm3. rewrite Hlen.
    replace ((3 - trace3 Rm) * (1 + trace3 Rm)) with ((2 * s) * (2 * s))
      by (unfold ci in Hsc; nra).
    rewrite sqrt_square by lra. field. lra. }
  rewrite Hn, Hcos, !m3scale_scale, m3mul_scale, Hsq, !m3scale_scale.
  fold s.
  match goal with
  | |- m3add (m3add m3id (m3scale ?a _)) (m3scale ?b _) = _ =>
      replace a with (1 / 2) by (field; lra);
      replace b with (1 / 2)
  end.
  - unfold D. clear.
    destruct Rm as [r00 r01 r02 r10 r11 r12 r20 r21 r22].
    eval_algebra. split_records; field.
  - replace (trace3 Rm + 1) with (2 * (1 + ci)) by (unfold ci; lra).
    replace (1 / 2) with ((1 - ci * ci) / (2 * (s * s)))
      by (replace (1 - ci * ci) with (s * s) by lra; field; lra).
    field. lra.
Qed.

(** X27.  [MatrixExp3] undoes [MatrixLog3] on the rotation matrices whose
    trace lies strictly between -1 and 3 (rotation angle strictly
    between 0 and pi), unless the logarithm is so small that
    [MatrixExp3] takes it for zero. *)
Theorem MatrixExp3_MatrixLog3 (Rm : Mat3 R) :
  m3mul (m3trans Rm) Rm = m3id -> det3 Rm = 1 ->
  -1 < trace3 Rm < 3 ->
  NearZero (fnorm3 (MatrixLog3 Rm)) = false ->
  MatrixExp3 (MatrixLog3 Rm) = Rm.
Proof. apply MatrixExp3_of_MatrixLog3. Qed.

Lemma MatrixExp3_MatrixLog3_witness :
  MatrixExp3 (MatrixLog3 (mkMat3 0 (-1) 0 1 0 0 0 0 1)) = mkMat3 0 (-1) 0 1 0 0 0 0 1.
Proof.
  apply (@MatrixExp3_MatrixLog3 (mkMat3 0 (-1) 0 1 0 0 0 0 1)).
  - eval_algebra. split_records; ring.
  - eval_algebra. ring.
  - eval_algebra. lra.
  - unfold MatrixLog3.
    replace ((trace3 (mkMat3 0 (-1) 0 1 0 0 0 0 1) - 1) / 2) with 0
      by (eval_algebra; lra).
    assert (H1 : Rleb 1 0 = false) by (apply Rleb_false; lra).
    assert (H2 : Rleb 0 (-1) = false) by (apply Rleb_false; lra).
    rewrite H1, H2, acos_0, sin_PI2.
    apply NearZero_false. rewrite Rabs_pos_eq by apply fnorm3_nonneg.
    unfold fnorm3.
    replace (0.000001) with (sqrt (0.000001 * 0.000001)) by (apply sqrt_square; lra).
    apply sqrt_le_1_alt. eval_algebra.
    pose proof PI2_1. nra.
Defined.

(** ** Logarithm and exponential on SE(3) *)

Module GroebnerSE3.
Import NsatzTactic RNsatz.

Lemma expExpand_logExpand (w p : Vec3 R) (th ith s c t it h : R) :
  expExpand_logExpand_statement w p th ith s c t it h.
Proof.
  unfold expExpand_logExpand_statement, expExpand_of, logExpand_of.
  destruct w as [w1 w2 w3], p as [p1 p2 p3].
  eval_algebra. intros. split; split_records; nsatz.
Qed.
End GroebnerSE3.

(** The half-angle relations the two expansions rest on. *)
Lemma half_angle (th : R) :
  0 < th -> th < PI ->
  tan (th / 2) * / tan (th / 2) = 1 /\
  tan (th / 2) * sin th = 1 - cos th /\
  tan (th / 2) * (1 + cos th) = sin th.
Proof.
  intros H0 H1.
  assert (Hc : 0 < cos (th / 2)) by (apply cos_gt_0; lra).
  assert (Hs : 0 < sin (th / 2)) by (apply sin_gt_0; lra).
  assert (Hsc : sin (th / 2) * sin (th / 2) + cos (th / 2) * cos (th / 2) = 1)
    by (pose proof (sin2_cos2 (th / 2)) as H; unfold Rsqr in H; exact H).
  assert (Hth : th = 2 * (th / 2)) by lra.
  assert (Hsin : sin th = 2 * sin (th / 2) * cos (th / 2))
    by (rewrite Hth at 1; apply sin_2a).
  assert (Hcos : cos th = 1 - 2 * sin (th / 2) * sin (th / 2))
    by (rewrite Hth at 1; apply cos_2a_sin).
  assert (Ht : tan (th / 2) <> 0).
  { unfold tan, Rdiv. apply Rmult_integral_contrapositive_currified; [lra |].
    apply Rinv_neq_0_compat. lra. }
  repeat apply conj.
  - now apply Rinv_r.
  - rewrite Hsin, Hcos. unfold tan. field. lra.
  - rewrite Hsin, Hcos. unfold tan.
    replace (1 + (1 - 2 * sin (th / 2) * sin (th / 2)))
      with (2 * (cos (th / 2) * cos (th / 2))) by lra.
    field. lra.
Qed.

Lemma trace3_MatrixExp3 (omg : Vec3 R) :
  0.000001 <= norm3 omg ->
  trace3 (MatrixExp3 (VecToso3 omg)) = 1 + 2 * cos (norm3 omg).
Proof.
  intros Hlo.
  assert (Hs2 : 1 <= sqrt 2).
  { rewrite <- sqrt_1 at 1. apply sqrt_le_1; lra. }
  assert (Hnz : NearZero (fnorm3 (VecToso3 omg)) = false).
  { apply NearZero_false. rewrite Rabs_pos_eq by apply fnorm3_nonneg.
    rewrite fnorm3_VecToso3. nra. }
  unfold MatrixExp3. rewrite Hnz.
  replace (so3ToVec (VecToso3 omg)) with omg by (destruct omg; reflexivity).
  unfold AxisAng3. cbn [snd].
  remember (norm3 omg) as th eqn:Eth.
  assert (Hsq : th * th = dot3 omg omg)
    by (subst th; unfold norm3; apply sqrt_sqrt, dot3_nonneg).
  destruct omg as [x y z].
  change (m3add (m3add m3id (m3scale (sin th) (m3scale (1 / th) (VecToso3 (mkVec3 x y z)))))
            (m3scale (1 - cos th)
               (m3mul (m3scale (1 / th) (VecToso3 (mkVec3 x y z)))
                      (m3scale (1 / th) (VecToso3 (mkVec3 x y z))))))
    with (rodrigues x y z (1 / th) (sin th) (cos th)).
  assert (Hu : 1 / th * (1 / th) * (x * x + y * y + z * z) = 1).
  { change (x * x + y * y + z * z) with (dot3 (mkVec3 x y z) (mkVec3 x y z)).
    rewrite <- Hsq. field. lra. }
  rewrite rodrigues_trace, Hu. lra.
Qed.

(** The logarithm of a rotation of angle strictly between 0 and pi is
    the matrix of a rotation vector of that length. *)
Lemma norm3_MatrixLog3 (Rm : Mat3 R) :
  m3mul (m3trans Rm) Rm = m3id -> det3 Rm = 1 -> -1 < trace3 Rm < 3 ->
  norm3 (so3ToVec (MatrixLog3 Rm)) = acos ((trace3 Rm - 1) / 2) /\
  0 < acos ((trace3 Rm - 1) / 2) < PI.
Proof.
  intros Ho Hd Htr.
  destruct (GroebnerSO3.rotation_skew_part Ho Hd) as (_ & Hsq & Hlen).
  set (ci := (trace3 Rm - 1) / 2) in *.
  assert (Hci : -1 < ci < 1) by (unfold ci; lra).
  assert (HL : MatrixLog3 Rm
               = m3scale (acos ci / 2 / sin (acos ci)) (m3sub Rm (m3trans Rm))).
  { unfold MatrixLog3. fold ci.
    assert (H1 : Rleb 1 ci = false) by (apply Rleb_false; lra).
    assert (H2 : Rleb ci (-1) = false) by (apply Rleb_false; lra).
    now rewrite H1, H2. }
  assert (Hcos : cos (acos ci) = ci) by (apply cos_acos; lra).
  destruct (acos_bound_lt ci Hci) as [Hth0 Hth1].
  assert (Hsin : 0 < sin (acos ci)) by (apply sin_gt_0; lra).
  assert (Hsc : sin (acos ci) * sin (acos ci) + cos (acos ci) * cos (acos ci) = 1)
    by (pose proof (sin2_cos2 (acos ci)) as H; unfold Rsqr in H; exact H).
  rewrite Hcos in Hsc.
  split; [| split; assumption].
  rewrite HL.
  set (th := acos ci) in *. set (s := sin th) in *.
  assert (Hk : 0 <= th / 2 / s).
  { unfold Rdiv. apply Rmult_le_pos; [lra |]. left. now apply Rinv_0_lt_compat. }
  rewrite so3ToVec_scale, norm3_scale by exact Hk.
  unfold norm3. rewrite Hlen.
  replace ((3 - trace3 Rm) * (1 + trace3 Rm)) with ((2 * s) * (2 * s))
    by (unfold ci in Hsc; nra).
  rewrite sqrt_square by lra. field. lra.
Qed.

Lemma MatrixLog6_of_MatrixExp6 (V : Vec6 R) :
  0.000001 <= norm3 (ang V) -> norm3 (ang V) < PI ->
  MatrixLog6 (MatrixExp6 (VecTose3 V)) = VecTose3 V.
Proof.
  intros Hlo Hhi. destruct V as [w v]. cbn [ang lin] in *.
  assert (Hs2 : 1 <= sqrt 2).
  { rewrite <- sqrt_1 at 1. apply sqrt_le_1; lra. }
  assert (Hnz : NearZero (norm3 w) = false).
  { apply NearZero_false. rewrite Rabs_pos_eq by apply norm3_nonneg. exact Hlo. }
  assert (Hnz' : NearZero (fnorm3 (VecToso3 w)) = false).
  { apply NearZero_false. rewrite Rabs_pos_eq by apply fnorm3_nonneg.
    rewrite fnorm3_VecToso3. pose proof (norm3_nonneg w). nra. }
  unfold MatrixExp6. cbn [VecTose3 rot pos ang lin].
  replace (so3ToVec (VecToso3 w)) with w by (destruct w; reflexivity).
  rewrite Hnz. unfold AxisAng3. cbn [snd].
  unfold MatrixLog6. cbn [TransToRp fst snd rot pos].
  rewrite MatrixLog3_of_MatrixExp3, Hnz', trace3_MatrixExp3 by assumption.
  replace ((1 + 2 * cos (norm3 w) - 1) / 2) with (cos (norm3 w)) by lra.
  rewrite acos_cos by lra.
  set (th := norm3 w) in *.
  assert (Hsq : dot3 w w = th * th)
    by (unfold th, norm3; symmetry; apply sqrt_sqrt, dot3_nonneg).
  destruct (@half_angle th) as (Ht1 & Ht2 & Ht3); try lra.
  assert (Hsc : sin th * sin th + cos th * cos th = 1)
    by (pose proof (sin2_cos2 th) as H; unfold Rsqr in H; exact H).
  unfold VecTose3. cbn [ang lin]. f_equal.
  refine (proj2 (@GroebnerSE3.expExpand_logExpand w v th (/ th) (sin th) (cos th)
                   (tan (th / 2)) (/ tan (th / 2)) (/ 2) Hsq _ Ht1 _ Hsc Ht2 Ht3)).
  - apply Rinv_r. lra.
  - lra.
Qed.

(** X28.  [MatrixLog6] undoes [MatrixExp6] on the twists whose rotation
    vector has length between 0.1 and 3, away from the identity and from
    the half turn. *)
Theorem MatrixLog6_MatrixExp6 (V : Vec6 R) :
  0.1 <= norm3 (ang V) <= 3 ->
  MatrixLog6 (MatrixExp6 (VecTose3 V)) = VecTose3 V.
Proof.
  intros [Hlo Hhi]. pose proof PI_above_3.
  apply MatrixLog6_of_MatrixExp6; lra.
Qed.

Lemma MatrixLog6_MatrixExp6_witness :
  MatrixLog6 (MatrixExp6 (VecTose3 (mkVec6 (mkVec3 0 0 1) (mkVec3 1 2 3))))
  = VecTose3 (mkVec6 (mkVec3 0 0 1) (mkVec3 1 2 3)).
Proof.
  assert (Hn : norm3 (mkVec3 0 0 1) = 1).
  { unfold norm3. replace (dot3 (mkVec3 0 0 1) (mkVec3 0 0 1)) with 1
      by (eval_algebra; ring). apply sqrt_1. }
  apply (@MatrixLog6_MatrixExp6 (mkVec6 (mkVec3 0 0 1) (mkVec3 1 2 3)));
    cbn [ang]; rewrite Hn. lra.
Defined.

Lemma MatrixExp6_of_MatrixLog6 (T : Mat4 R) :
  is_SE3 T -> -1 < trace3 (rot T) < 3 ->
  NearZero (norm3 (so3ToVec (MatrixLog3 (rot T)))) = false ->
  MatrixExp6 (MatrixLog6 T) = T.
Proof.
  intros (Ho & _ & Hd & Hb & Hc) Htr Hnz.
  destruct T as [Rm p b c]. cbn [rot pos bot crn] in *. subst b c.
  destruct (norm3_MatrixLog3 Ho Hd Htr) as (Hn & Hth0 & Hth1).
  assert (Hskew : VecToso3 (so3ToVec (MatrixLog3 Rm)) = MatrixLog3 Rm)
    by apply VecToso3_so3ToVec, MatrixLog3_is_skew.
  assert (Hs2 : 1 <= sqrt 2).
  { rewrite <- sqrt_1 at 1. apply sqrt_le_1; lra. }
  assert (Hnz' : NearZero (fnorm3 (MatrixLog3 Rm)) = false).
  { apply NearZero_false. rewrite Rabs_pos_eq by apply fnorm3_nonneg.
    rewrite <- Hskew, fnorm3_VecToso3.
    apply NearZero_false in Hnz. rewrite Rabs_pos_eq in Hnz by apply norm3_nonneg.
    nra. }
  unfold MatrixLog6. cbn [TransToRp fst snd rot pos]. rewrite Hnz'.
  unfold MatrixExp6. cbn [rot pos]. rewrite Hnz.
  unfold AxisAng3. cbn [snd]. rewrite Hn.
  rewrite MatrixExp3_of_MatrixLog3 by assumption.
  set (th := acos ((trace3 Rm - 1) / 2)) in *.
  assert (Hsq : dot3 (so3ToVec (MatrixLog3 Rm)) (so3ToVec (MatrixLog3 Rm)) = th * th).
  { rewrite <- Hn. unfold norm3. symmetry. apply sqrt_sqrt, dot3_nonneg. }
  destruct (@half_angle th) as (Ht1 & Ht2 & Ht3); try lra.
  assert (Hsc : sin th * sin th + cos th * cos th = 1)
    by (pose proof (sin2_cos2 th) as H; unfold Rsqr in H; exact H).
  f_equal. rewrite <- Hskew.
  refine (proj1 (@GroebnerSE3.expExpand_logExpand (so3ToVec (MatrixLog3 Rm)) p th (/ th)
                   (sin th) (cos th) (tan (th / 2)) (/ tan (th / 2)) (/ 2)
                   Hsq _ Ht1 _ Hsc Ht2 Ht3)).
  - apply Rinv_r. lra.
  - lra.
Qed.

(** X29.  [MatrixExp6] undoes [MatrixLog6] on the transforms of SE(3) whose
    rotation has trace strictly between -1 and 3 (angle strictly between
    0 and pi), unless the rotation vector is so short that [MatrixExp6]
    takes it for zero. *)
Theorem MatrixExp6_MatrixLog6 (T : Mat4 R) :
  is_SE3 T -> -1 < trace3 (rot T) < 3 ->
  NearZero (norm3 (so3ToVec (MatrixLog3 (rot T)))) = false ->
  MatrixExp6 (MatrixLog6 T) = T.
Proof. apply MatrixExp6_of_MatrixLog6. Qed.

Lemma quarter_turn_rotation :
  m3mul (m3trans R_quarter_turn) R_quarter_turn = m3id /\
  m3mul R_quarter_turn (m3trans R_quarter_turn) = m3id /\
  det3 R_quarter_turn = 1 /\ -1 < trace3 R_quarter_turn < 3.
Proof.
  unfold R_quarter_turn. repeat apply conj; eval_algebra; try lra; try ring;
    split_records; ring.
Qed.

Lemma quarter_turn_log :
  NearZero (norm3 (so3ToVec (MatrixLog3 R_quarter_turn))) = false.
Proof.
  destruct quarter_turn_rotation as (Ho & _ & Hd & Htr).
  destruct (norm3_MatrixLog3 Ho Hd Htr) as (Hn & _).
  rewrite Hn.
  replace ((trace3 R_quarter_turn - 1) / 2) with 0
    by (unfold R_quarter_turn; eval_algebra; lra).
  rewrite acos_0. apply NearZero_false.
  pose proof PI2_1. rewrite Rabs_pos_eq; lra.
Qed.

Lemma MatrixExp6_MatrixLog6_witness :
  MatrixExp6 (MatrixLog6 (RpToTrans R_quarter_turn (mkVec3 1 2 3)))
  = RpToTrans R_quarter_turn (mkVec3 1 2 3).
Proof.
  destruct quarter_turn_rotation as (Ho & Ho' & Hd & Htr).
  apply (@MatrixExp6_MatrixLog6 (RpToTrans R_quarter_turn (mkVec3 1 2 3))).
  - unfold is_SE3, RpToTrans. cbn [rot pos bot crn]. repeat apply conj; auto.
  - exact Htr.
  - exact quarter_turn_log.
Defined.

(** ** Where the Cartesian trajectories end *)

Lemma m4scale_1 (A : Mat4 R) : m4scale 1 A = A.
Proof. record_ring. Qed.

Lemma m3scale_1 (A : Mat3 R) : m3scale 1 A = A.
Proof. record_ring. Qed.

Lemma NearZero_fnorm3_skew (W : Mat3 R) :
  m3trans W = m3scale (-1) W ->
  NearZero (norm3 (so3ToVec W)) = false -> NearZero (fnorm3 W) = false.
Proof.
  intros Hs Hnz.
  assert (Hs2 : 1 <= sqrt 2).
  { rewrite <- sqrt_1 at 1. apply sqrt_le_1; lra. }
  apply NearZero_false. rewrite Rabs_pos_eq by apply fnorm3_nonneg.
  rewrite <- (VecToso3_so3ToVec Hs), fnorm3_VecToso3.
  apply NearZero_false in Hnz. rewrite Rabs_pos_eq in Hnz by apply norm3_nonneg.
  nra.
Qed.

(** X30.  Both Cartesian trajectories end at [Xend], for [Xstart] and [Xend]
    in SE(3) whose relative rotation has trace strictly between -1 and 3
    and a rotation vector that is not [NearZero]. *)
Theorem trajectory_end (Xstart Xend : Mat4 R) (Tf : R) (N : nat) (method : Z) :
  0 < Tf -> (2 <= N)%nat -> is_SE3 Xstart -> is_SE3 Xend ->
  -1 < trace3 (m3mul (m3trans (rot Xstart)) (rot Xend)) < 3 ->
  NearZero (norm3 (so3ToVec (MatrixLog3 (m3mul (m3trans (rot Xstart)) (rot Xend)))))
  = false ->
  nth (N - 1) (ScrewTrajectory Xstart Xend Tf N method) m4zero = Xend /\
  nth (N - 1) (CartesianTrajectory Xstart Xend Tf N method) m4zero = Xend.
Proof.
  intros HTf HN HS HE Htr Hnz.
  destruct (TransInv_is_inverse HS) as (HSi & _ & Hinv & _).
  assert (HQ : is_SE3 (m4mul (TransInv Xstart) Xend)) by now apply is_SE3_mul.
  assert (Hrot : rot (m4mul (TransInv Xstart) Xend)
                 = m3mul (m3trans (rot Xstart)) (rot Xend)).
  { destruct HSi as (_ & _ & _ & Hb & Hc), HE as (_ & _ & _ & Hb' & Hc').
    destruct (m4mul_rigid_blocks (TransInv Xstart) Xend Hb Hc Hb' Hc') as (-> & _).
    reflexivity. }
  assert (Hst : (if (method =? 3)%Z
                 then CubicTimeScaling Tf (Tf / IZR (Z.of_nat N - 1) * INR (N - 1))
                 else QuinticTimeScaling Tf (Tf / IZR (Z.of_nat N - 1) * INR (N - 1))) = 1).
  { rewrite timegap_last by lia.
    destruct (@time_scaling_at_Tf Tf) as [-> ->]; [lra |].
    now destruct (method =? 3)%Z. }
  split.
  - unfold ScrewTrajectory.
    match goal with |- nth _ (map ?f _) _ = _ =>
      rewrite (nth_indep _ _ (f 0%nat)) by (rewrite length_map, length_seq; lia);
      rewrite (map_nth f)
    end.
    rewrite seq_nth by lia. cbn [Nat.add]. cbv zeta. rewrite Hst, m4scale_1.
    rewrite MatrixExp6_of_MatrixLog6; [| exact HQ | now rewrite Hrot | now rewrite Hrot].
    now rewrite <- m4mul_assoc, Hinv, m4mul_id_l.
  - unfold CartesianTrajectory. cbv zeta.
    match goal with |- nth _ (map ?f _) _ = _ =>
      rewrite (nth_indep _ _ (f 0%nat)) by (rewrite length_map, length_seq; lia);
      rewrite (map_nth f)
    end.
    rewrite seq_nth by lia. cbn [Nat.add TransToRp fst snd]. rewrite Hst, m3scale_1.
    destruct HQ as (Ho & _ & Hd & _). rewrite Hrot in Ho, Hd.
    rewrite MatrixExp3_of_MatrixLog3;
      [| exact Ho | exact Hd | exact Htr
       | apply NearZero_fnorm3_skew; [apply MatrixLog3_is_skew | exact Hnz]].
    destruct HS as (_ & HSo & _), HE as (_ & _ & _ & Hb & Hc).
    rewrite <- m3mul_assoc, HSo, m3mul_id_l.
    destruct Xend as [Re pe be ce]. cbn [rot pos bot crn] in *. subst be ce.
    f_equal. generalize (pos Xstart). clear. record_ring.
Qed.

Lemma trajectory_end_witness :
  nth 2 (ScrewTrajectory m4id (RpToTrans R_quarter_turn (mkVec3 1 2 3)) 1 3 3) m4zero
  = RpToTrans R_quarter_turn (mkVec3 1 2 3) /\
  nth 2 (CartesianTrajectory m4id (RpToTrans R_quarter_turn (mkVec3 1 2 3)) 1 3 3) m4zero
  = RpToTrans R_quarter_turn (mkVec3 1 2 3).
Proof.
  destruct quarter_turn_rotation as (Ho & Ho' & Hd & Htr).
  assert (HQ : m3mul (m3trans (rot (@m4id R _)))
                 (rot (RpToTrans R_quarter_turn (mkVec3 1 2 3))) = R_quarter_turn)
    by (unfold R_quarter_turn; eval_algebra; split_records; ring).
  apply (@trajectory_end m4id (RpToTrans R_quarter_turn (mkVec3 1 2 3)) 1 3 3).
  - lra.
  - lia.
  - apply is_SE3_id.
  - unfold is_SE3, RpToTrans. cbn [rot pos bot crn]. repeat apply conj; auto.
  - rewrite HQ. exact Htr.
  - rewrite HQ. exact quarter_turn_log.
Defined.

(** ** Trajectories between two poses *)

(** X25.  For [Tf > 0], [N >= 2] and two poses of SE(3) whose relative
    rotation is clear of a half turn, [ScrewTrajectory] and
    [CartesianTrajectory] return [N] transforms, each of them in SE(3),
    the first of them [Xstart]. *)
Theorem trajectory_rigid (Xstart Xend : Mat4 R) (Tf : R) (N : nat) (method : Z) :
  0 < Tf -> (2 <= N)%nat -> is_SE3 Xstart -> is_SE3 Xend ->
  clear_of_half_turn (m3mul (m3trans (rot Xstart)) (rot Xend)) ->
  (length (ScrewTrajectory Xstart Xend Tf N method) = N /\
   Forall is_SE3 (ScrewTrajectory Xstart Xend Tf N method) /\
   nth 0 (ScrewTrajectory Xstart Xend Tf N method) m4zero = Xstart) /\
  (length (CartesianTrajectory Xstart Xend Tf N method) = N /\
   Forall is_SE3 (CartesianTrajectory Xstart Xend Tf N method) /\
   nth 0 (CartesianTrajectory Xstart Xend Tf N method) m4zero = Xstart).
Proof.
  intros HTf HN HS HE _.
  destruct (@trajectory_points_rigid Xstart Xend Tf N method HS) as [R1 R2].
  destruct (@trajectory_first_point Xstart Xend Tf N method HTf HN) as (L1 & L2 & S1 & S2).
  destruct HS as (_ & _ & _ & Hb & Hc).
  repeat apply conj; auto.
Qed.

Lemma trajectory_rigid_witness :
  (length (ScrewTrajectory (RpToTrans R_quarter_turn (mkVec3 1 2 3)) m4id 1 3 3) = 3%nat /\
   Forall is_SE3 (ScrewTrajectory (RpToTrans R_quarter_turn (mkVec3 1 2 3)) m4id 1 3 3) /\
   nth 0 (ScrewTrajectory (RpToTrans R_quarter_turn (mkVec3 1 2 3)) m4id 1 3 3) m4zero
   = RpToTrans R_quarter_turn (mkVec3 1 2 3)) /\
  (length (CartesianTrajectory (RpToTrans R_quarter_turn (mkVec3 1 2 3)) m4id 1 3 3) = 3%nat /\
   Forall is_SE3 (CartesianTrajectory (RpToTrans R_quarter_turn (mkVec3 1 2 3)) m4id 1 3 3) /\
   nth 0 (CartesianTrajectory (RpToTrans R_quarter_turn (mkVec3 1 2 3)) m4id 1 3 3) m4zero
   = RpToTrans R_quarter_turn (mkVec3 1 2 3)).
Proof.
  destruct quarter_turn_rotation as (Ho & Ho' & Hd & Htr).
  apply (@trajectory_rigid (RpToTrans R_quarter_turn (mkVec3 1 2 3)) m4id 1 3 3).
  - lra.
  - lia.
  - unfold is_SE3, RpToTrans. cbn [rot pos bot crn]. repeat apply conj; auto.
  - apply is_SE3_id.
  - unfold clear_of_half_turn, R_quarter_turn. eval_algebra. lra.
Defined.

(** ** The logarithm of a rotation matrix *)

Lemma rotation_diag_bounds (Rm : Mat3 R) :
  m3mul (m3trans Rm) Rm = m3id ->
  (-1 <= a00 Rm <= 1) /\ (-1 <= a11 Rm <= 1) /\ (-1 <= a22 Rm <= 1).
Proof.
  intros Ho. destruct Rm as [r00 r01 r02 r10 r11 r12 r20 r21 r22].
  pose proof (f_equal (@a00 R) Ho) as H0.
  pose proof (f_equal (@a11 R) Ho) as H1.
  pose proof (f_equal (@a22 R) Ho) as H2.
  revert H0 H1 H2. eval_algebra. intros H0 H1 H2.
  repeat split; nra.
Qed.

Lemma rotation_trace_lower (Rm : Mat3 R) :
  m3mul (m3trans Rm) Rm = m3id -> det3 Rm = 1 -> -1 <= trace3 Rm.
Proof.
  intros Ho Hd.
  destruct (GroebnerSO3.rotation_skew_part Ho Hd) as (_ & _ & Hlen).
  destruct (rotation_diag_bounds Ho) as (B0 & B1 & B2).
  assert (Hsq : 0 <= (3 - trace3 Rm) * (1 + trace3 Rm)).
  { rewrite <- Hlen. generalize (so3ToVec (m3sub Rm (m3trans Rm))).
    intros [x y z]. eval_algebra. nra. }
  assert (Htr : trace3 Rm = a00 Rm + a11 Rm + a22 Rm)
    by (destruct Rm; reflexivity).
  nra.
Qed.

Lemma rotation_MatrixLog3_in_domain (Rm : Mat3 R) :
  m3mul (m3trans Rm) Rm = m3id -> det3 Rm = 1 -> MatrixLog3_in_domain Rm.
Proof.
  intros Ho Hd _.
  destruct (rotation_diag_bounds Ho) as (B0 & B1 & B2).
  pose proof (rotation_trace_lower Ho Hd) as Ht.
  assert (Htr : trace3 Rm = a00 Rm + a11 Rm + a22 Rm)
    by (destruct Rm; reflexivity).
  unfold MatrixLog3_pivot.
  destruct (NearZero (1 + a22 Rm)) eqn:H2; cbn [negb].
  - destruct (NearZero (1 + a11 Rm)) eqn:H1; cbn [negb diag3].
    + apply NearZero_true in H1, H2.
      rewrite Rabs_pos_eq in H1, H2 by lra. lra.
    + apply NearZero_false in H1. rewrite Rabs_pos_eq in H1 by lra. lra.
  - cbn [diag3]. apply NearZero_false in H2. rewrite Rabs_pos_eq in H2 by lra. lra.
Qed.

(** X5.  For a rotation matrix the square root in the branch of
    [MatrixLog3] for a half turn is taken of a positive number, and
    [MatrixLog3] returns a skew-symmetric matrix, which
    [VecToso3 (so3ToVec .)] gives back. *)
Theorem MatrixLog3_skew (Rm : Mat3 R) :
  m3mul (m3trans Rm) Rm = m3id -> det3 Rm = 1 ->
  MatrixLog3_in_domain Rm /\
  m3trans (MatrixLog3 Rm) = m3scale (-1) (MatrixLog3 Rm) /\
  VecToso3 (so3ToVec (MatrixLog3 Rm)) = MatrixLog3 Rm.
Proof.
  intros Ho Hd.
  split; [now apply rotation_MatrixLog3_in_domain |].
  split; [apply MatrixLog3_is_skew |].
  apply VecToso3_so3ToVec, MatrixLog3_is_skew.
Qed.

Lemma MatrixLog3_skew_witness :
  MatrixLog3_in_domain R_half_turn /\
  m3trans (MatrixLog3 R_half_turn) = m3scale (-1) (MatrixLog3 R_half_turn) /\
  VecToso3 (so3ToVec (MatrixLog3 R_half_turn)) = MatrixLog3 R_half_turn.
Proof.
  apply (@MatrixLog3_skew R_half_turn).
  - unfold R_half_turn. eval_algebra. split_records; lra.
  - unfold R_half_turn. eval_algebra. lra.
Defined.

(** ** Inverse kinematics on concrete chains *)

Lemma FKin_one_joint (M : Mat4 R) (B : Vec6 R) (t : R) :
  FKinBody M [B] [t] = m4mul M (MatrixExp6 (VecTose3 (v6scale t B))) /\
  FKinSpace M [B] [t] = m4mul (MatrixExp6 (VecTose3 (v6scale t B))) M.
Proof. split; reflexivity. Qed.

Lemma MatrixExp6_slide (t : R) (d : Vec3 R) :
  MatrixExp6 (VecTose3 (v6scale t (mkVec6 v3zero d))) = RpToTrans m3id (v3scale t d).
Proof.
  rewrite MatrixExp6_no_rotation.
  - reflexivity.
  - eval_algebra. split_records; ring.
Qed.

Lemma MatrixExp6_at_zero (B : Vec6 R) : MatrixExp6 (VecTose3 (v6scale 0 B)) = m4id.
Proof.
  rewrite MatrixExp6_no_rotation.
  - destruct B as [[] []]. eval_algebra. split_records; ring.
  - destruct B as [[] []]. eval_algebra. split_records; ring.
Qed.

Lemma Tdiff_at_zero (B : Vec6 R) (T : Mat4 R) :
  Tdiff_body [B] m4id T [0] = T /\ Tdiff_space [B] m4id T [0] = T.
Proof.
  unfold Tdiff_body, Tdiff_space.
  destruct (FKin_one_joint m4id B 0) as [Hb Hs].
  rewrite Hb, Hs, MatrixExp6_at_zero, m4mul_id_l.
  assert (H : TransInv (@m4id R _) = m4id) by (eval_algebra; split_records; ring).
  rewrite H, m4mul_id_l. split; reflexivity.
Qed.

Lemma MatrixLog3_T_half_turn :
  MatrixLog3 (rot T_half_turn) = VecToso3 (v3scale M_PI (mkVec3 0 0 1)).
Proof.
  unfold MatrixLog3, T_half_turn. cbn [rot a00 a01 a02 a10 a11 a12 a20 a21 a22].
  assert (Ht : (trace3 (mkMat3 (-1) 0 0 0 (-1.0004) 0 0 0 1) - 1) / 2 = -1.0002)
    by (eval_algebra; lra).
  rewrite Ht.
  assert (H1 : Rleb 1 (-1.0002) = false) by (apply Rleb_false; lra).
  assert (H2 : Rleb (-1.0002) (-1) = true) by (apply Rleb_true; lra).
  assert (H3 : NearZero (1 + 1) = false).
  { apply NearZero_false. rewrite Rabs_pos_eq; lra. }
  rewrite H1, H2, H3. cbn [negb].
  replace (2 * (1 + 1)) with (2 * 2) by ring.
  rewrite sqrt_square by lra.
  f_equal. eval_algebra. split_records; field.
Qed.

(** C6.  A target that [TestIfSE3] accepts drives both routines outside
    the domain of [std::acos].  For the one-joint chain about z at
    [thetalist = (0)] the error transform is the target itself; its
    rotation block has [(trace - 1) / 2 = -1.0002], [MatrixLog3] takes
    its branch for a half turn and returns [pi z], which is not
    [NearZero], so [MatrixLog6] reaches [std::acos] with an argument
    below -1: the linear part of the error twist is not a number, while
    its angular part has norm [M_PI]. *)
Theorem IKin_half_turn_target :
  TestIfSE3 T_half_turn = true /\
  Tdiff_body Blist_revolute m4id T_half_turn [0] = T_half_turn /\
  Tdiff_space Blist_revolute m4id T_half_turn [0] = T_half_turn /\
  MatrixLog3 (rot T_half_turn) = VecToso3 (v3scale M_PI (mkVec3 0 0 1)) /\
  NearZero (fnorm3 (MatrixLog3 (rot T_half_turn))) = false /\
  (trace3 (rot T_half_turn) - 1) / 2 < -1 /\
  ~ clear_of_half_turn (rot T_half_turn) /\
  norm3 (ang (Vb_of Blist_revolute m4id T_half_turn [0])) = M_PI.
Proof.
  assert (Ht : (trace3 (rot T_half_turn) - 1) / 2 = -1.0002)
    by (unfold T_half_turn; eval_algebra; lra).
  assert (Hpi : 0 < M_PI) by (unfold M_PI; lra).
  assert (Hn : fnorm3 (VecToso3 (v3scale M_PI (mkVec3 0 0 1))) = sqrt 2 * M_PI).
  { unfold fnorm3. eval_algebra.
    replace (0 * 0 + - (M_PI * 1) * - (M_PI * 1) + M_PI * 0 * (M_PI * 0)
             + (M_PI * 1 * (M_PI * 1) + 0 * 0 + - (M_PI * 0) * - (M_PI * 0))
             + (- (M_PI * 0) * - (M_PI * 0) + M_PI * 0 * (M_PI * 0) + 0 * 0))
      with (2 * (M_PI * M_PI)) by ring.
    rewrite sqrt_mult by nra. now rewrite sqrt_square by lra. }
  destruct (Tdiff_at_zero (mkVec6 (mkVec3 0 0 1) v3zero) T_half_turn) as [Hb Hs].
  split; [| split; [exact Hb | split; [exact Hs | split; [apply MatrixLog3_T_half_turn |]]]].
  - unfold TestIfSE3, DistanceToSE3, T_half_turn. cbn [rot pos bot crn].
    assert (Hd : Rltb 0 (det3 (mkMat3 (-1) 0 0 0 (-1.0004) 0 0 0 1)) = true)
      by (apply Rltb_true; eval_algebra; lra).
    rewrite Hd. apply Rltb_true. unfold fnorm4. eval_algebra.
    match goal with
    | |- Rabs (sqrt ?x) < _ =>
        replace x with (0.00080016 * 0.00080016) by lra
    end.
    rewrite sqrt_square by lra. rewrite Rabs_pos_eq; lra.
  - split; [| split; [| split]].
    + rewrite MatrixLog3_T_half_turn, Hn. apply NearZero_false.
      assert (1 <= sqrt 2).
      { rewrite <- sqrt_1 at 1. apply sqrt_le_1_alt. lra. }
      rewrite Rabs_pos_eq by nra. unfold M_PI in *. nra.
    + rewrite Ht. lra.
    + unfold clear_of_half_turn. rewrite Ht. lra.
    + unfold Vb_of. fold (Tdiff_body Blist_revolute m4id T_half_turn [0]).
      unfold Blist_revolute. rewrite Hb.
      unfold MatrixLog6. cbn [TransToRp fst snd].
      assert (Hnz : NearZero (fnorm3 (MatrixLog3 (rot T_half_turn))) = false).
      { rewrite MatrixLog3_T_half_turn, Hn. apply NearZero_false.
        assert (1 <= sqrt 2).
        { rewrite <- sqrt_1 at 1. apply sqrt_le_1_alt. lra. }
        rewrite Rabs_pos_eq by nra. unfold M_PI in *. nra. }
      rewrite Hnz, MatrixLog3_T_half_turn.
      unfold norm3. eval_algebra.
      match goal with
      | |- sqrt ?x = _ => replace x with (M_PI * M_PI) by ring
      end.
      apply sqrt_square. lra.
Qed.

(** *** A one-joint prismatic chain *)

Lemma MatrixLog6_slide (p : Vec3 R) :
  MatrixLog6 (mkMat4 m3id p v3zero 1) = mkMat4 m3zero p v3zero 0.
Proof.
  unfold MatrixLog6. cbn [TransToRp fst snd rot pos].
  now rewrite MatrixLog3_id, fnorm3_zero, NearZero_0.
Qed.

Lemma Tdiff_prismatic (t : R) :
  Tdiff_body Blist_prismatic m4id T_slide [t] = mkMat4 m3id (mkVec3 (1 - t) 0 0) v3zero 1 /\
  Tdiff_space Blist_prismatic m4id T_slide [t] = mkMat4 m3id (mkVec3 (1 - t) 0 0) v3zero 1.
Proof.
  unfold Tdiff_body, Tdiff_space, Blist_prismatic, T_slide.
  destruct (FKin_one_joint m4id (mkVec6 v3zero (mkVec3 1 0 0)) t) as [Hb Hs].
  rewrite Hb, Hs, MatrixExp6_slide.
  split; eval_algebra; split_records; ring.
Qed.

Lemma V_prismatic (t : R) :
  Vb_of Blist_prismatic m4id T_slide [t] = mkVec6 v3zero (mkVec3 (1 - t) 0 0) /\
  Vs_of Blist_prismatic m4id T_slide [t] = mkVec6 v3zero (mkVec3 (1 - t) 0 0).
Proof.
  destruct (Tdiff_prismatic t) as [Hb Hs].
  unfold Tdiff_body, Tdiff_space in Hb, Hs. unfold Vb_of, Vs_of.
  rewrite Hb, Hs, MatrixLog6_slide.
  destruct (FKin_one_joint m4id (mkVec6 v3zero (mkVec3 1 0 0)) t) as [_ Hf].
  unfold Blist_prismatic. rewrite Hf, MatrixExp6_slide.
  split; eval_algebra; split_records; ring.
Qed.

Lemma norm3_along_x (x : R) : norm3 (mkVec3 x 0 0) = Rabs x.
Proof.
  unfold norm3. eval_algebra.
  replace (x * x + 0 * 0 + 0 * 0) with (Rsqr x) by (unfold Rsqr; ring).
  apply sqrt_Rsqr_abs.
Qed.

Lemma twist_err_prismatic (t : R) :
  twist_err (mkVec6 v3zero (mkVec3 (1 - t) 0 0)) 0.01 0.001 = Rltb 0.001 (Rabs (1 - t)).
Proof.
  unfold twist_err. cbn [ang lin]. rewrite norm3_zero, norm3_along_x.
  assert (H : Rltb 0.01 0 = false) by (apply Rltb_false; lra).
  now rewrite H.
Qed.

Lemma newton_prismatic (t : R) :
  newton_body solve_prismatic Blist_prismatic m4id T_slide [t] = [1] /\
  newton_space solve_prismatic Blist_prismatic m4id T_slide [t] = [1].
Proof.
  destruct (V_prismatic t) as [Hb Hs].
  unfold newton_body, newton_space. rewrite Hb, Hs.
  unfold solve_prismatic. cbn [lin v0].
  split; cbv [vnadd map2 sadd R_scalar]; f_equal; ring.
Qed.

Lemma iter_newton_prismatic (j : nat) :
  exists t,
    Nat.iter j (newton_body solve_prismatic Blist_prismatic m4id T_slide) [0] = [t] /\
    Nat.iter j (newton_space solve_prismatic Blist_prismatic m4id T_slide) [0] = [t].
Proof.
  destruct j as [| j]; [exists 0; split; reflexivity |].
  exists 1. simpl.
  induction j as [| j [IHb IHs]]; simpl.
  - apply (newton_prismatic 0).
  - rewrite IHb, IHs. apply (newton_prismatic 1).
Qed.

Lemma IKinBody_loop_stop solve Blist M T eomg ev (k : nat) (st : IKState) :
  ik_err st = false -> IKinBody_loop solve Blist M T eomg ev k st = st.
Proof. intros H. destruct k; simpl; [reflexivity | now rewrite H]. Qed.

Lemma IKinSpace_loop_stop solve Slist M T eomg ev (k : nat) (st : IKState) :
  ik_err st = false -> IKinSpace_loop solve Slist M T eomg ev k st = st.
Proof. intros H. destruct k; simpl; [reflexivity | now rewrite H]. Qed.

Lemma IKinBody_loop_go solve Blist M T eomg ev (k : nat) (st : IKState) :
  ik_err st = true ->
  IKinBody_loop solve Blist M T eomg ev (S k) st
  = IKinBody_loop solve Blist M T eomg ev k (IKinBody_step solve Blist M T eomg ev st).
Proof. intros H. simpl. now rewrite H. Qed.

Lemma IKinSpace_loop_go solve Slist M T eomg ev (k : nat) (st : IKState) :
  ik_err st = true ->
  IKinSpace_loop solve Slist M T eomg ev (S k) st
  = IKinSpace_loop solve Slist M T eomg ev k (IKinSpace_step solve Slist M T eomg ev st).
Proof. intros H. simpl. now rewrite H. Qed.

Lemma IKin_prismatic_run :
  (IKinBody solve_prismatic Blist_prismatic m4id T_slide 0.01 0.001 [0] = (true, [1]) /\
   ik_i (IKinBody_final solve_prismatic Blist_prismatic m4id T_slide 0.01 0.001 [0]) = 1%nat) /\
  (IKinSpace solve_prismatic Blist_prismatic m4id T_slide 0.01 0.001 [0] = (true, [1]) /\
   ik_i (IKinSpace_final solve_prismatic Blist_prismatic m4id T_slide 0.01 0.001 [0]) = 1%nat).
Proof.
  assert (E0 : Rltb 0.001 (Rabs (1 - 0)) = true).
  { apply Rltb_true. rewrite Rabs_pos_eq; lra. }
  assert (E1 : Rltb 0.001 (Rabs (1 - 1)) = false).
  { apply Rltb_false. replace (1 - 1) with 0 by ring. rewrite Rabs_R0. lra. }
  destruct (V_prismatic 0) as [Vb0 Vs0]. destruct (V_prismatic 1) as [Vb1 Vs1].
  destruct (newton_prismatic 0) as [Nb Ns].
  split.
  - unfold IKinBody, IKinBody_final, maxiterations.
    set (st0 := IKinBody_start Blist_prismatic m4id T_slide 0.01 0.001 [0]).
    assert (H0 : ik_err st0 = true).
    { unfold st0, IKinBody_start. cbn [ik_err]. rewrite Vb0, twist_err_prismatic. exact E0. }
    rewrite (IKinBody_loop_go solve_prismatic Blist_prismatic m4id T_slide 0.01 0.001 19 st0 H0).
    assert (H1 : IKinBody_step solve_prismatic Blist_prismatic m4id T_slide 0.01 0.001 st0
                 = mkIKState [1] (mkVec6 v3zero (mkVec3 (1 - 1) 0 0)) false 1).
    { unfold IKinBody_step, st0, IKinBody_start. cbn [ik_thetalist ik_V ik_i].
      change (vnadd [0] (solve_prismatic (JacobianBody Blist_prismatic [0])
                           (Vb_of Blist_prismatic m4id T_slide [0])))
        with (newton_body solve_prismatic Blist_prismatic m4id T_slide [0]).
      rewrite Nb, Vb1, twist_err_prismatic, E1. reflexivity. }
    rewrite H1, IKinBody_loop_stop by reflexivity. split; reflexivity.
  - unfold IKinSpace, IKinSpace_final, maxiterations.
    set (st0 := IKinSpace_start Blist_prismatic m4id T_slide 0.01 0.001 [0]).
    assert (H0 : ik_err st0 = true).
    { unfold st0, IKinSpace_start. cbn [ik_err]. rewrite Vs0, twist_err_prismatic. exact E0. }
    rewrite (IKinSpace_loop_go solve_prismatic Blist_prismatic m4id T_slide 0.01 0.001 19 st0 H0).
    assert (H1 : IKinSpace_step solve_prismatic Blist_prismatic m4id T_slide 0.01 0.001 st0
                 = mkIKState [1] (mkVec6 v3zero (mkVec3 (1 - 1) 0 0)) false 1).
    { unfold IKinSpace_step, st0, IKinSpace_start. cbn [ik_thetalist ik_V ik_i].
      change (vnadd [0] (solve_prismatic (JacobianSpace Blist_prismatic [0])
                           (Vs_of Blist_prismatic m4id T_slide [0])))
        with (newton_space solve_prismatic Blist_prismatic m4id T_slide [0]).
      rewrite Ns, Vs1, twist_err_prismatic, E1. reflexivity. }
    rewrite H1, IKinSpace_loop_stop by reflexivity. split; reflexivity.
Qed.

(** X26.  On a run whose error transforms all have a rotation block clear
    of a half turn, [IKinBody] and [IKinSpace] make k <= 20 Newton-Raphson
    updates [theta <- theta + solve(J, V)]; the in/out parameter holds
    the k-th iterate on return, whatever the flag; the flag is true
    exactly when the error twist of that iterate has angular norm at most
    [eomg] and linear norm at most [ev]; and a false flag means all 20
    updates were made. *)
Theorem IKin_contract (solve : list (Vec6 R) -> Vec6 R -> list R)
    (axes : list (Vec6 R)) (M T : Mat4 R) (eomg ev : R) (thetalist0 : list R) :
  (let k := ik_i (IKinBody_final solve axes M T eomg ev thetalist0) in
   let r := IKinBody solve axes M T eomg ev thetalist0 in
   (forall j, (j <= k)%nat ->
      clear_of_half_turn
        (rot (Tdiff_body axes M T (Nat.iter j (newton_body solve axes M T) thetalist0)))) ->
   (k <= 20)%nat /\
   snd r = Nat.iter k (newton_body solve axes M T) thetalist0 /\
   (fst r = true <-> within_tolerance (Vb_of axes M T (snd r)) eomg ev) /\
   (fst r = false -> k = 20%nat)) /\
  (let k := ik_i (IKinSpace_final solve axes M T eomg ev thetalist0) in
   let r := IKinSpace solve axes M T eomg ev thetalist0 in
   (forall j, (j <= k)%nat ->
      clear_of_half_turn
        (rot (Tdiff_space axes M T (Nat.iter j (newton_space solve axes M T) thetalist0)))) ->
   (k <= 20)%nat /\
   snd r = Nat.iter k (newton_space solve axes M T) thetalist0 /\
   (fst r = true <-> within_tolerance (Vs_of axes M T (snd r)) eomg ev) /\
   (fst r = false -> k = 20%nat)).
Proof.
  destruct (IKin_run solve axes M T eomg ev thetalist0) as [Hb Hs].
  split; cbv zeta; intros _; [apply Hb | apply Hs].
Qed.

Lemma clear_of_half_turn_id : clear_of_half_turn (@m3id R _).
Proof. unfold clear_of_half_turn. eval_algebra. lra. Qed.

Lemma IKin_contract_witness :
  (IKinBody solve_prismatic Blist_prismatic m4id T_slide 0.01 0.001 [0] = (true, [1]) /\
   within_tolerance (Vb_of Blist_prismatic m4id T_slide [1]) 0.01 0.001) /\
  (IKinSpace solve_prismatic Blist_prismatic m4id T_slide 0.01 0.001 [0] = (true, [1]) /\
   within_tolerance (Vs_of Blist_prismatic m4id T_slide [1]) 0.01 0.001).
Proof.
  destruct IKin_prismatic_run as [[Rb Kb] [Rs Ks]].
  destruct (IKin_contract solve_prismatic Blist_prismatic m4id T_slide 0.01 0.001 [0])
    as [Hb Hs].
  cbv zeta in Hb, Hs. split.
  - destruct Hb as (_ & _ & Hflag & _).
    + intros j _. destruct (iter_newton_prismatic j) as (t & Ht & _).
      rewrite Ht. destruct (Tdiff_prismatic t) as [E _]. rewrite E.
      apply clear_of_half_turn_id.
    + split; [exact Rb |]. rewrite Rb in Hflag. now apply Hflag.
  - destruct Hs as (_ & _ & Hflag & _).
    + intros j _. destruct (iter_newton_prismatic j) as (t & _ & Ht).
      rewrite Ht. destruct (Tdiff_prismatic t) as [_ E]. rewrite E.
      apply clear_of_half_turn_id.
    + split; [exact Rs |]. rewrite Rs in Hflag. now apply Hflag.
Defined.

Lemma IKin_already_solved_witness :
  IKinBody (fun _ _ => [5]) Blist_prismatic m4id T_slide 0.01 0.001 [1] = (true, [1]) /\
  IKinSpace (fun _ _ => [5]) Blist_prismatic m4id T_slide 0.01 0.001 [1] = (true, [1]).
Proof.
  assert (H : within_tolerance (mkVec6 v3zero (mkVec3 (1 - 1) 0 0)) 0.01 0.001).
  { unfold within_tolerance. cbn [ang lin]. rewrite norm3_zero, norm3_along_x.
    replace (1 - 1) with 0 by ring. rewrite Rabs_R0. lra. }
  destruct (V_prismatic 1) as [Vb Vs].
  destruct (IKin_already_solved (fun _ _ => [5]) Blist_prismatic m4id T_slide 0.01 0.001 [1])
    as [Hb Hs].
  split; [apply Hb; now rewrite Vb | apply Hs; now rewrite Vs].
Defined.

(** * The test fixture of [InverseDynamics] *)

Unset Implicit Arguments.

(** ** Soundness of the interval operations *)

Lemma scale_pos : 0 < IZR scale.
Proof. apply IZR_lt. reflexivity. Qed.

Lemma floor_div (a b : Z) : (0 < b)%Z -> IZR (a / b) * IZR b <= IZR a.
Proof.
  intros Hb. rewrite <- mult_IZR. apply IZR_le.
  rewrite Z.mul_comm. now apply Z.mul_div_le.
Qed.

Lemma ceil_div (a b : Z) : (0 < b)%Z -> IZR a <= IZR (cdiv a b) * IZR b.
Proof.
  intros Hb. unfold cdiv. rewrite opp_IZR.
  pose proof (floor_div (- a) b Hb) as H. rewrite opp_IZR in H. lra.
Qed.

Lemma encloses_Z (z : Z) : encloses (iZ z) (IZR z).
Proof. unfold encloses, iZ; simpl. rewrite mult_IZR. lra. Qed.

Lemma encloses_Q (q : QArith_base.Q) : encloses (iQ q) (Q2R q).
Proof.
  destruct q as [n d]. unfold encloses, iQ, Q2R; simpl.
  assert (Hd : (0 < Z.pos d)%Z) by reflexivity.
  assert (Hd' : 0 < IZR (Z.pos d)) by now apply IZR_lt.
  pose proof (floor_div (n * scale) (Z.pos d) Hd) as Hl.
  pose proof (ceil_div (n * scale) (Z.pos d) Hd) as Hu.
  rewrite mult_IZR in Hl, Hu.
  replace (IZR n * / IZR (Z.pos d) * IZR scale)
    with (IZR n * IZR scale / IZR (Z.pos d)) by (field; lra).
  split.
  - apply Rmult_le_reg_r with (IZR (Z.pos d)); [exact Hd' |].
    replace (IZR n * IZR scale / IZR (Z.pos d) * IZR (Z.pos d))
      with (IZR n * IZR scale) by (field; lra).
    exact Hl.
  - apply Rmult_le_reg_r with (IZR (Z.pos d)); [exact Hd' |].
    replace (IZR n * IZR scale / IZR (Z.pos d) * IZR (Z.pos d))
      with (IZR n * IZR scale) by (field; lra).
    exact Hu.
Qed.

Lemma encloses_add (x y : itv) (a b : R) :
  encloses x a -> encloses y b -> encloses (iadd x y) (a + b).
Proof.
  unfold encloses, iadd; simpl. intros Ha Hb.
  rewrite !plus_IZR, Rmult_plus_distr_r. lra.
Qed.

Lemma encloses_sub (x y : itv) (a b : R) :
  encloses x a -> encloses y b -> encloses (isub x y) (a - b).
Proof.
  unfold encloses, isub; simpl. intros Ha Hb.
  rewrite !minus_IZR.
  replace ((a - b) * IZR scale) with (a * IZR scale - b * IZR scale) by ring. lra.
Qed.

Lemma encloses_opp (x : itv) (a : R) : encloses x a -> encloses (iopp x) (- a).
Proof.
  unfold encloses, iopp; simpl. intros Ha.
  rewrite !opp_IZR, <- Ropp_mult_distr_l. lra.
Qed.

(** A product lies between the smallest and the largest of the four
    products of the bounds. *)
Lemma product_corners (A B C D u v : R) :
  A <= u <= B -> C <= v <= D ->
  (A * C <= u * v \/ A * D <= u * v \/ B * C <= u * v \/ B * D <= u * v) /\
  (u * v <= A * C \/ u * v <= A * D \/ u * v <= B * C \/ u * v <= B * D).
Proof.
  intros Hu Hv. split.
  - destruct (Rle_lt_dec 0 v) as [Hv0 | Hv0].
    + destruct (Rle_lt_dec 0 A) as [HA | HA].
      * left. nra.
      * right; left. nra.
    + destruct (Rle_lt_dec 0 B) as [HB | HB].
      * right; right; left. nra.
      * right; right; right. nra.
  - destruct (Rle_lt_dec 0 v) as [Hv0 | Hv0].
    + destruct (Rle_lt_dec 0 B) as [HB | HB].
      * right; right; right. nra.
      * right; right; left. nra.
    + destruct (Rle_lt_dec 0 A) as [HA | HA].
      * right; left. nra.
      * left. nra.
Qed.

Lemma encloses_mul (x y : itv) (a b : R) :
  encloses x a -> encloses y b -> encloses (imul x y) (a * b).
Proof.
  unfold encloses, imul; cbv zeta; simpl. intros Ha Hb.
  pose proof scale_pos as Hs.
  assert (Hsz : (0 < scale)%Z) by reflexivity.
  set (p1 := (ilo x * ilo y)%Z). set (p2 := (ilo x * ihi y)%Z).
  set (p3 := (ihi x * ilo y)%Z). set (p4 := (ihi x * ihi y)%Z).
  set (mn := Z.min (Z.min p1 p2) (Z.min p3 p4)).
  set (mx := Z.max (Z.max p1 p2) (Z.max p3 p4)).
  destruct (product_corners _ _ _ _ _ _ Ha Hb) as [Hlow Hupp].
  rewrite <- !mult_IZR in Hlow, Hupp. fold p1 p2 p3 p4 in Hlow, Hupp.
  assert (Hmn : IZR mn <= a * IZR scale * (b * IZR scale)).
  { assert (IZR mn <= IZR p1) by (apply IZR_le; unfold mn; lia).
    assert (IZR mn <= IZR p2) by (apply IZR_le; unfold mn; lia).
    assert (IZR mn <= IZR p3) by (apply IZR_le; unfold mn; lia).
    assert (IZR mn <= IZR p4) by (apply IZR_le; unfold mn; lia).
    destruct Hlow as [K | [K | [K | K]]]; lra. }
  assert (Hmx : a * IZR scale * (b * IZR scale) <= IZR mx).
  { assert (IZR p1 <= IZR mx) by (apply IZR_le; unfold mx; lia).
    assert (IZR p2 <= IZR mx) by (apply IZR_le; unfold mx; lia).
    assert (IZR p3 <= IZR mx) by (apply IZR_le; unfold mx; lia).
    assert (IZR p4 <= IZR mx) by (apply IZR_le; unfold mx; lia).
    destruct Hupp as [K | [K | [K | K]]]; lra. }
  pose proof (floor_div mn scale Hsz) as Hl.
  pose proof (ceil_div mx scale Hsz) as Hu.
  replace (a * IZR scale * (b * IZR scale)) with (a * b * IZR scale * IZR scale)
    in Hmn, Hmx by ring.
  split; apply Rmult_le_reg_r with (IZR scale); lra.
Qed.

Lemma encloses_inv (x : itv) (a : R) :
  (0 < ilo x)%Z -> encloses x a -> encloses (iinv x) (/ a).
Proof.
  unfold encloses, iinv; simpl. intros Hlo [Ha Hb].
  pose proof scale_pos as Hs.
  assert (Hl : 0 < IZR (ilo x)) by now apply IZR_lt.
  assert (Hh : (0 < ihi x)%Z) by (apply lt_IZR; lra).
  assert (Hpos : 0 < a).
  { destruct (Rle_lt_dec a 0) as [H | H]; [| exact H]. exfalso.
    assert (a * IZR scale <= 0) by (rewrite <- (Rmult_0_l (IZR scale)); apply Rmult_le_compat_r; lra). lra. }
  pose proof (floor_div (scale * scale) (ihi x) Hh) as Hf.
  pose proof (ceil_div (scale * scale) (ilo x) Hlo) as Hc.
  rewrite mult_IZR in Hf, Hc.
  assert (Hf0 : (0 <= scale * scale / ihi x)%Z) by (apply Z.div_pos; [unfold scale; lia | lia]).
  apply IZR_le in Hf0.
  assert (Hc0 : 0 <= IZR (cdiv (scale * scale) (ilo x))).
  { destruct (Rle_lt_dec 0 (IZR (cdiv (scale * scale) (ilo x)))) as [H | H]; [exact H |].
    exfalso.
    assert (IZR (cdiv (scale * scale) (ilo x)) * IZR (ilo x) < 0)
      by (apply Ropp_lt_cancel; rewrite Ropp_0, Ropp_mult_distr_l;
          apply Rmult_lt_0_compat; lra).
    assert (0 < IZR scale * IZR scale) by (apply Rmult_lt_0_compat; lra).
    lra. }
  assert (Hinv : / a * IZR scale * (a * IZR scale) = IZR scale * IZR scale)
    by (field; lra).
  assert (Has : 0 < a * IZR scale) by lra.
  split.
  - apply Rmult_le_reg_r with (a * IZR scale); [exact Has |]. rewrite Hinv.
    apply Rle_trans with (IZR (scale * scale / ihi x) * IZR (ihi x)); [| exact Hf].
    apply Rmult_le_compat_l; assumption.
  - apply Rmult_le_reg_r with (a * IZR scale); [exact Has |]. rewrite Hinv.
    apply Rle_trans with (IZR (cdiv (scale * scale) (ilo x)) * IZR (ilo x)); [exact Hc |].
    apply Rmult_le_compat_l; assumption.
Qed.

Lemma encloses_sqrt (x : itv) (a : R) : encloses x a -> encloses (isqrt x) (sqrt a).
Proof.
  unfold encloses, isqrt; simpl. intros [Ha Hb].
  pose proof scale_pos as Hs.
  assert (Hsz : (0 < scale)%Z) by reflexivity.
  set (L := Z.sqrt (Z.max 0 (ilo x) * scale)).
  set (U := Z.sqrt (ihi x * scale)).
  assert (HL0 : (0 <= L)%Z) by apply Z.sqrt_nonneg.
  assert (HU0 : (0 <= U)%Z) by apply Z.sqrt_nonneg.
  apply IZR_le in HL0, HU0.
  destruct (Rle_lt_dec 0 a) as [Hpos | Hneg].
  - assert (Hsq : sqrt a * IZR scale = sqrt (a * IZR scale * IZR scale)).
    { rewrite Rmult_assoc, sqrt_mult, sqrt_square by nra. reflexivity. }
    rewrite Hsq. split.
    + assert (HLs : (L * L <= Z.max 0 (ilo x) * scale)%Z).
      { apply (Z.sqrt_spec (Z.max 0 (ilo x) * scale)). lia. }
      apply IZR_le in HLs. rewrite !mult_IZR in HLs.
      assert (Hm : IZR (Z.max 0 (ilo x)) <= a * IZR scale).
      { destruct (Z.max_spec 0 (ilo x)) as [[_ ->] | [_ ->]]; [exact Ha | nra]. }
      rewrite <- (sqrt_square (IZR L)) by exact HL0.
      apply sqrt_le_1_alt. nra.
    + assert (Hh : (0 <= ihi x * scale)%Z).
      { assert (0 <= IZR (ihi x)) by nra. apply le_IZR in H. lia. }
      assert (HUs : (ihi x * scale < (Z.succ U) * (Z.succ U))%Z)
        by (apply (Z.sqrt_spec (ihi x * scale)); exact Hh).
      apply IZR_lt in HUs. rewrite !mult_IZR, succ_IZR in HUs.
      rewrite plus_IZR.
      rewrite <- (sqrt_square (IZR U + 1)) by lra.
      apply sqrt_le_1_alt. nra.
  - rewrite sqrt_neg_0 by lra. rewrite Rmult_0_l. split.
    + assert (Hz : L = 0%Z).
      { unfold L. assert (IZR (ilo x) < 0) by nra. apply lt_IZR in H.
        rewrite Z.max_l by lia. reflexivity. }
      rewrite Hz. lra.
    + rewrite plus_IZR. lra.
Qed.

(** ** Sine and cosine *)

Lemma sin_bounds_poly (a : R) :
  sin_lb a
  = a * (1 - a * a * (Q2R (QArith_base.Qmake 1 6)
         - a * a * (Q2R (QArith_base.Qmake 1 120)
         - a * a * Q2R (QArith_base.Qmake 1 5040)))) /\
  sin_ub a
  = a * (1 - a * a * (Q2R (QArith_base.Qmake 1 6)
         - a * a * (Q2R (QArith_base.Qmake 1 120)
         - a * a * (Q2R (QArith_base.Qmake 1 5040)
         - a * a * Q2R (QArith_base.Qmake 1 362880))))).
Proof.
  unfold sin_lb, sin_ub, sin_approx. cbn [sum_f_R0]. unfold sin_term.
  cbn [Nat.mul Nat.add]. rewrite !INR_IZR_INZ.
  replace (Z.of_nat (fact 1)) with 1%Z by (vm_compute; reflexivity).
  replace (Z.of_nat (fact 3)) with 6%Z by (vm_compute; reflexivity).
  replace (Z.of_nat (fact 5)) with 120%Z by (vm_compute; reflexivity).
  replace (Z.of_nat (fact 7)) with 5040%Z by (vm_compute; reflexivity).
  replace (Z.of_nat (fact 9)) with 362880%Z by (vm_compute; reflexivity).
  unfold Q2R. cbn [QArith_base.Qnum QArith_base.Qden].
  split; field.
Qed.

Lemma cos_bounds_poly (a : R) :
  cos_lb a
  = 1 - a * a * (Q2R (QArith_base.Qmake 1 2)
         - a * a * (Q2R (QArith_base.Qmake 1 24)
         - a * a * Q2R (QArith_base.Qmake 1 720))) /\
  cos_ub a
  = 1 - a * a * (Q2R (QArith_base.Qmake 1 2)
         - a * a * (Q2R (QArith_base.Qmake 1 24)
         - a * a * (Q2R (QArith_base.Qmake 1 720)
         - a * a * Q2R (QArith_base.Qmake 1 40320)))).
Proof.
  unfold cos_lb, cos_ub, cos_approx. cbn [sum_f_R0]. unfold cos_term.
  cbn [Nat.mul Nat.add]. rewrite !INR_IZR_INZ.
  replace (Z.of_nat (fact 0)) with 1%Z by (vm_compute; reflexivity).
  replace (Z.of_nat (fact 2)) with 2%Z by (vm_compute; reflexivity).
  replace (Z.of_nat (fact 4)) with 24%Z by (vm_compute; reflexivity).
  replace (Z.of_nat (fact 6)) with 720%Z by (vm_compute; reflexivity).
  replace (Z.of_nat (fact 8)) with 40320%Z by (vm_compute; reflexivity).
  unfold Q2R. cbn [QArith_base.Qnum QArith_base.Qden].
  split; field.
Qed.

Ltac enc_prim :=
  repeat lazymatch goal with
    | |- encloses (iadd _ _) (_ + _) => apply encloses_add
    | |- encloses (isub _ _) (_ - _) => apply encloses_sub
    | |- encloses (imul _ _) (_ * _) => apply encloses_mul
    | |- encloses (iopp _) (- _) => apply encloses_opp
    | |- encloses (iZ _) (IZR _) => apply encloses_Z
    | |- encloses (iQ _) (Q2R _) => apply encloses_Q
    | |- encloses (ifrac _) (Q2R _) => apply encloses_Q
    | |- encloses _ _ => assumption
    end.

Lemma unit_range (x : itv) (a : R) :
  (0 <= ilo x)%Z -> (ihi x <= scale)%Z -> encloses x a -> 0 <= a <= 1.
Proof.
  intros Hl Hh [Ha Hb]. pose proof scale_pos as Hs.
  apply IZR_le in Hl, Hh.
  split.
  - apply Rmult_le_reg_r with (IZR scale); [exact Hs |]. lra.
  - apply Rmult_le_reg_r with (IZR scale); [exact Hs |]. lra.
Qed.

(** A real number between two enclosed bounds is enclosed by the outer
    ends of their intervals. *)
Lemma encloses_between (xl xu : itv) (rl ru r : R) :
  encloses xl rl -> encloses xu ru -> rl <= r <= ru ->
  encloses (mkItv (ilo xl) (ihi xu)) r.
Proof.
  intros [Hl _] [_ Hu] [H1 H2]. pose proof scale_pos as Hs.
  unfold encloses; cbn [ilo ihi]. split.
  - apply Rle_trans with (rl * IZR scale); [exact Hl |].
    apply Rmult_le_compat_r; lra.
  - apply Rle_trans with (ru * IZR scale); [| exact Hu].
    apply Rmult_le_compat_r; lra.
Qed.

Lemma encloses_sin (x : itv) (a : R) :
  (0 <= ilo x)%Z -> (ihi x <= scale)%Z -> encloses x a -> encloses (isin x) (sin a).
Proof.
  intros Hl Hh Hx. destruct (unit_range _ _ Hl Hh Hx) as [Ha0 Ha1].
  pose proof PI2_1 as Hpi.
  destruct (sin_bounds_poly a) as [El Eu].
  unfold isin. apply encloses_between with (rl := sin_lb a) (ru := sin_ub a).
  - rewrite El. unfold isin_lb. enc_prim.
  - rewrite Eu. unfold isin_ub. enc_prim.
  - apply SIN; lra.
Qed.

Lemma encloses_cos (x : itv) (a : R) :
  (0 <= ilo x)%Z -> (ihi x <= scale)%Z -> encloses x a -> encloses (icos x) (cos a).
Proof.
  intros Hl Hh Hx. destruct (unit_range _ _ Hl Hh Hx) as [Ha0 Ha1].
  pose proof PI2_1 as Hpi.
  destruct (cos_bounds_poly a) as [El Eu].
  unfold icos. apply encloses_between with (rl := cos_lb a) (ru := cos_ub a).
  - rewrite El. unfold icos_lb. enc_prim.
  - rewrite Eu. unfold icos_ub. enc_prim.
  - apply COS; lra.
Qed.

(** ** The algebra on intervals encloses the algebra on the reals *)

Ltac enc_eval :=
  cbv beta iota zeta delta
    [enc3 encM3 enc6 encM6 encM4
     m4mul m4id m4zero m4scale m6vec m6trans m6zero v6add v6sub v6scale
     v6zero dot6 m3mul m3vec vec3m outer3 m3add m3sub m3scale m3trans m3id
     m3zero row0 row1 row2 col0 col1 col2 v3add v3sub v3opp v3scale v3zero
     dot3 cross3 VecToso3 so3ToVec VecTose3 se3ToVec Adjoint ad
     TransInv TransToRp RpToTrans
     rot pos bot crn v0 v1 v2 a00 a01 a02 a10 a11 a12 a20 a21 a22
     ang lin tl tr bl br fst snd sadd ssub smul sopp s0 s1 R_scalar itv_scalar] in *.

Ltac enc_records :=
  repeat match goal with
         | x : Vec3 _ |- _ => destruct x
         | x : Mat3 _ |- _ => destruct x
         | x : Vec6 _ |- _ => destruct x
         | x : Mat6 _ |- _ => destruct x
         | x : Mat4 _ |- _ => destruct x
         end.

Ltac enc_op :=
  intros; enc_records; enc_eval;
  repeat match goal with H : _ /\ _ |- _ => destruct H end;
  repeat match goal with |- _ /\ _ => split end; enc_prim.

Lemma enc3_zero : enc3 v3zero v3zero.
Proof. enc_op. Qed.

Lemma enc3_add xI yI x y : enc3 xI x -> enc3 yI y -> enc3 (v3add xI yI) (v3add x y).
Proof. enc_op. Qed.

Lemma enc3_sub xI yI x y : enc3 xI x -> enc3 yI y -> enc3 (v3sub xI yI) (v3sub x y).
Proof. enc_op. Qed.

Lemma enc3_opp xI x : enc3 xI x -> enc3 (v3opp xI) (v3opp x).
Proof. enc_op. Qed.

Lemma enc3_scale kI k xI x :
  encloses kI k -> enc3 xI x -> enc3 (v3scale kI xI) (v3scale k x).
Proof. enc_op. Qed.

Lemma enc_dot3 xI yI x y : enc3 xI x -> enc3 yI y -> encloses (dot3 xI yI) (dot3 x y).
Proof. enc_op. Qed.

Lemma encM3_zero : encM3 m3zero m3zero.
Proof. enc_op. Qed.

Lemma encM3_id : encM3 m3id m3id.
Proof. enc_op. Qed.

Lemma encM3_add AI BI A B : encM3 AI A -> encM3 BI B -> encM3 (m3add AI BI) (m3add A B).
Proof. enc_op. Qed.

Lemma encM3_scale kI k AI A :
  encloses kI k -> encM3 AI A -> encM3 (m3scale kI AI) (m3scale k A).
Proof. enc_op. Qed.

Lemma encM3_trans AI A : encM3 AI A -> encM3 (m3trans AI) (m3trans A).
Proof. enc_op. Qed.

Lemma encM3_mul AI BI A B : encM3 AI A -> encM3 BI B -> encM3 (m3mul AI BI) (m3mul A B).
Proof. enc_op. Qed.

Lemma enc3_m3vec AI A xI x : encM3 AI A -> enc3 xI x -> enc3 (m3vec AI xI) (m3vec A x).
Proof. enc_op. Qed.

Lemma encM3_VecToso3 xI x : enc3 xI x -> encM3 (VecToso3 xI) (VecToso3 x).
Proof. enc_op. Qed.

Lemma enc3_so3ToVec AI A : encM3 AI A -> enc3 (so3ToVec AI) (so3ToVec A).
Proof. enc_op. Qed.

Lemma enc3_rows AI A :
  encM3 AI A -> enc3 (row0 AI) (row0 A) /\ enc3 (row1 AI) (row1 A) /\ enc3 (row2 AI) (row2 A).
Proof. intros H. exact H. Qed.

Lemma enc6_zero : enc6 v6zero v6zero.
Proof. enc_op. Qed.

Lemma enc6_add xI yI x y : enc6 xI x -> enc6 yI y -> enc6 (v6add xI yI) (v6add x y).
Proof. enc_op. Qed.

Lemma enc6_sub xI yI x y : enc6 xI x -> enc6 yI y -> enc6 (v6sub xI yI) (v6sub x y).
Proof. enc_op. Qed.

Lemma enc6_scale kI k xI x :
  encloses kI k -> enc6 xI x -> enc6 (v6scale kI xI) (v6scale k x).
Proof. enc_op. Qed.

Lemma enc_dot6 xI yI x y : enc6 xI x -> enc6 yI y -> encloses (dot6 xI yI) (dot6 x y).
Proof. enc_op. Qed.

Lemma encM6_zero : encM6 m6zero m6zero.
Proof. enc_op. Qed.

Lemma encM6_trans AI A : encM6 AI A -> encM6 (m6trans AI) (m6trans A).
Proof. enc_op. Qed.

Lemma enc6_m6vec AI A xI x : encM6 AI A -> enc6 xI x -> enc6 (m6vec AI xI) (m6vec A x).
Proof. enc_op. Qed.

Lemma encM6_ad VI V : enc6 VI V -> encM6 (ad VI) (ad V).
Proof. enc_op. Qed.

Lemma encM6_Adjoint TI T : encM4 TI T -> encM6 (Adjoint TI) (Adjoint T).
Proof. enc_op. Qed.

Lemma encM4_id : encM4 m4id m4id.
Proof. enc_op. Qed.

Lemma encM4_zero : encM4 m4zero m4zero.
Proof. enc_op. Qed.

Lemma encM4_mul AI BI A B : encM4 AI A -> encM4 BI B -> encM4 (m4mul AI BI) (m4mul A B).
Proof. enc_op. Qed.

Lemma encM4_TransInv TI T : encM4 TI T -> encM4 (TransInv TI) (TransInv T).
Proof. enc_op. Qed.

Lemma encM4_VecTose3 VI V : enc6 VI V -> encM4 (VecTose3 VI) (VecTose3 V).
Proof. enc_op. Qed.

Lemma enc_nth {X Y : Type} (P : X -> Y -> Prop) (lI : list X) (l : list Y)
    (dI : X) (d : Y) (i : nat) :
  Forall2 P lI l -> P dI d -> P (nth i lI dI) (nth i l d).
Proof.
  intros H Hd. revert i. induction H as [| a b lI l Hab H IH]; intros [| i]; simpl; auto.
Qed.

(** One step of a stagewise enclosure proof. *)
Ltac enc_step :=
  lazymatch goal with
  | |- enc3 v3zero v3zero => apply enc3_zero
  | |- enc3 (v3add _ _) (v3add _ _) => apply enc3_add
  | |- enc3 (v3sub _ _) (v3sub _ _) => apply enc3_sub
  | |- enc3 (v3opp _) (v3opp _) => apply enc3_opp
  | |- enc3 (v3scale _ _) (v3scale _ _) => apply enc3_scale
  | |- enc3 (m3vec _ _) (m3vec _ _) => apply enc3_m3vec
  | |- enc3 (so3ToVec _) (so3ToVec _) => apply enc3_so3ToVec
  | |- encloses (dot3 _ _) (dot3 _ _) => apply enc_dot3
  | |- encloses (dot6 _ _) (dot6 _ _) => apply enc_dot6
  | |- encM3 m3zero m3zero => apply encM3_zero
  | |- encM3 m3id m3id => apply encM3_id
  | |- encM3 (m3add _ _) (m3add _ _) => apply encM3_add
  | |- encM3 (m3scale _ _) (m3scale _ _) => apply encM3_scale
  | |- encM3 (m3trans _) (m3trans _) => apply encM3_trans
  | |- encM3 (m3mul _ _) (m3mul _ _) => apply encM3_mul
  | |- encM3 (VecToso3 _) (VecToso3 _) => apply encM3_VecToso3
  | |- enc6 v6zero v6zero => apply enc6_zero
  | |- enc6 (v6add _ _) (v6add _ _) => apply enc6_add
  | |- enc6 (v6sub _ _) (v6sub _ _) => apply enc6_sub
  | |- enc6 (v6scale _ _) (v6scale _ _) => apply enc6_scale
  | |- enc6 (m6vec _ _) (m6vec _ _) => apply enc6_m6vec
  | |- encM6 m6zero m6zero => apply encM6_zero
  | |- encM6 (m6trans _) (m6trans _) => apply encM6_trans
  | |- encM6 (ad _) (ad _) => apply encM6_ad
  | |- encM6 (Adjoint _) (Adjoint _) => apply encM6_Adjoint
  | |- encM4 m4id m4id => apply encM4_id
  | |- encM4 m4zero m4zero => apply encM4_zero
  | |- encM4 (m4mul _ _) (m4mul _ _) => apply encM4_mul
  | |- encM4 (TransInv _) (TransInv _) => apply encM4_TransInv
  | |- encM4 (VecTose3 _) (VecTose3 _) => apply encM4_VecTose3
  | |- encloses (iadd _ _) (_ + _) => apply encloses_add
  | |- encloses (isub _ _) (_ - _) => apply encloses_sub
  | |- encloses (imul _ _) (_ * _) => apply encloses_mul
  | |- encloses (iopp _) (- _) => apply encloses_opp
  | |- encloses (iZ _) (IZR _) => apply encloses_Z
  | |- encloses (iQ _) (Q2R _) => apply encloses_Q
  | |- _ => solve [auto]
  end.

Ltac enc_auto := repeat enc_step.

(** ** The exponentials *)

Lemma not_NearZero (x : itv) (a : R) :
  (100000000000000 <= ilo x)%Z -> encloses x a -> NearZero a = false.
Proof.
  intros Hl [Ha _]. pose proof scale_pos as Hs.
  apply IZR_le in Hl.
  assert (Hsc : IZR scale = 100000000000000000000) by reflexivity.
  apply NearZero_false.
  assert (H : 0.000001 <= a).
  { apply Rmult_le_reg_r with (IZR scale); [exact Hs |]. rewrite Hsc in *. lra. }
  rewrite Rabs_pos_eq; lra.
Qed.

Lemma encloses_norm3 (vI : Vec3 itv) (v : Vec3 R) :
  enc3 vI v -> encloses (norm3I vI) (norm3 v).
Proof. intros H. unfold norm3I, norm3. apply encloses_sqrt. enc_auto. Qed.

Lemma encloses_fnorm3 (AI : Mat3 itv) (A : Mat3 R) :
  encM3 AI A -> encloses (fnorm3I AI) (fnorm3 A).
Proof.
  intros (H0 & H1 & H2). unfold fnorm3I, fnorm3. apply encloses_sqrt. enc_auto.
Qed.

Lemma MatrixExp6_enc (mI : Mat4 itv) (m : Mat4 R) :
  encM4 mI m -> exp6_ok mI = true -> encM4 (MatrixExp6I mI) (MatrixExp6 m).
Proof.
  intros Hm Hok. unfold exp6_ok in Hok. cbv zeta in Hok.
  apply andb_true_iff in Hok. destruct Hok as [Hok Hf].
  apply andb_true_iff in Hok. destruct Hok as [Hlo Hhi].
  apply Z.leb_le in Hlo, Hhi, Hf.
  destruct Hm as (Hrot & Hpos & Hbot & Hcrn).
  assert (Hw : enc3 (so3ToVec (rot mI)) (so3ToVec (rot m))) by enc_auto.
  pose proof (encloses_norm3 _ _ Hw) as Hth.
  pose proof (encloses_fnorm3 _ _ Hrot) as Hfn.
  pose proof (not_NearZero _ _ Hlo Hth) as Hnz.
  pose proof (not_NearZero _ _ Hf Hfn) as Hnz'.
  set (thI := norm3I (so3ToVec (rot mI))) in *.
  set (th := norm3 (so3ToVec (rot m))) in *.
  assert (Hinv : encloses (iinv thI) (/ th)) by (apply encloses_inv; [lia | exact Hth]).
  assert (Hsin : encloses (isin thI) (sin th)) by (apply encloses_sin; [lia | lia | exact Hth]).
  assert (Hcos : encloses (icos thI) (cos th)) by (apply encloses_cos; [lia | lia | exact Hth]).
  unfold MatrixExp6, MatrixExp6I, MatrixExp3, MatrixExp3I, AxisAng3. cbv zeta. cbn [snd].
  fold th thI. rewrite Hnz, Hnz'. unfold Rdiv.
  unfold encM4. cbn [rot pos bot crn]. repeat match goal with |- _ /\ _ => split end.
  - enc_auto.
  - enc_auto.
  - enc_auto.
  - apply (encloses_Z 1).
Qed.

(** ** The recurrences on intervals enclose the recurrences on the reals *)

Section RecurrenceEnc.
Variables (AI : nat -> Vec6 itv) (AdTI : nat -> Mat6 itv) (GI : nat -> Mat6 itv).
Variables (dthI ddthI : nat -> itv) (gI : Vec3 itv) (FtipI : Vec6 itv).
Variables (A : nat -> Vec6 R) (AdT : nat -> Mat6 R) (G : nat -> Mat6 R).
Variables (dth ddth : nat -> R) (g : Vec3 R) (Ftip : Vec6 R).
Hypothesis HA : forall j, enc6 (AI j) (A j).
Hypothesis HAdT : forall j, encM6 (AdTI j) (AdT j).
Hypothesis HG : forall j, encM6 (GI j) (G j).
Hypothesis Hdth : forall j, encloses (dthI j) (dth j).
Hypothesis Hddth : forall j, encloses (ddthI j) (ddth j).
Hypothesis Hg : enc3 gI g.
Hypothesis HFtip : enc6 FtipI Ftip.

Lemma twist_enc (i : nat) : enc6 (twistI AI AdTI dthI i) (twist A AdT dth i).
Proof. induction i as [| i IH]; cbn [twistI twist]; enc_auto. Qed.

Lemma accel_enc (i : nat) :
  enc6 (accelI AI AdTI dthI ddthI gI i) (accel A AdT dth ddth g i).
Proof.
  induction i as [| i IH]; cbn [accelI accel].
  - split; cbn [ang lin]; enc_auto.
  - pose proof (twist_enc (S i)) as HT. cbn [twistI twist] in HT. enc_auto.
Qed.

Lemma wrench_enc (k j : nat) :
  enc6 (wrenchI AI AdTI GI dthI ddthI gI FtipI k j) (wrench A AdT G dth ddth g Ftip k j).
Proof.
  revert j; induction k as [| k IH]; intros j; cbn [wrenchI wrench].
  - exact HFtip.
  - pose proof (twist_enc (j + 1)). pose proof (accel_enc (j + 1)).
    pose proof (IH (j + 1)%nat). enc_auto.
Qed.

Lemma torque_enc (n i : nat) :
  encloses (torqueI AI AdTI GI dthI ddthI gI FtipI n i) (torque A AdT G dth ddth g Ftip n i).
Proof. unfold torqueI, torque. pose proof (wrench_enc (n - i) i). enc_auto. Qed.
End RecurrenceEnc.

Lemma Mi_at_enc (MlistI : list (Mat4 itv)) (Mlist : list (Mat4 R)) (k : nat) :
  Forall2 encM4 MlistI Mlist -> encM4 (Mi_atI MlistI k) (Mi_at Mlist k).
Proof.
  intros HM. unfold Mi_atI, Mi_at. induction k as [| k IH]; [apply encM4_id |].
  rewrite !fold_left_seq_S. apply encM4_mul; [exact IH |].
  apply enc_nth; [exact HM | apply encM4_zero].
Qed.

Lemma A_at_enc (MlistI : list (Mat4 itv)) (SlistI : list (Vec6 itv))
    (Mlist : list (Mat4 R)) (Slist : list (Vec6 R)) (i : nat) :
  Forall2 encM4 MlistI Mlist -> Forall2 enc6 SlistI Slist ->
  enc6 (A_atI MlistI SlistI i) (A_at Mlist Slist i).
Proof.
  intros HM HS. unfold A_atI, A_at. pose proof (Mi_at_enc MlistI Mlist (S i) HM).
  assert (enc6 (nth i SlistI v6zero) (nth i Slist v6zero))
    by (apply enc_nth; [exact HS | apply enc6_zero]).
  enc_auto.
Qed.

Lemma AdT_joint_enc (tI : itv) (t : R) (aI : Vec6 itv) (a : Vec6 R)
    (MI : Mat4 itv) (M : Mat4 R) :
  encloses tI t -> enc6 aI a -> encM4 MI M ->
  exp6_ok (VecTose3 (v6scale (iopp tI) aI)) = true ->
  encM6 (Adjoint (m4mul (MatrixExp6I (VecTose3 (v6scale (iopp tI) aI))) (TransInv MI)))
        (Adjoint (m4mul (MatrixExp6 (VecTose3 (v6scale (- t) a))) (TransInv M))).
Proof.
  intros Ht Ha HM Hok.
  apply encM6_Adjoint, encM4_mul; [| apply encM4_TransInv, HM].
  apply MatrixExp6_enc; [| exact Hok].
  apply encM4_VecTose3, enc6_scale; [| exact Ha].
  apply encloses_opp, Ht.
Qed.

Lemma AdT_at_enc (thetalistI : list itv) (MlistI : list (Mat4 itv))
    (SlistI : list (Vec6 itv)) (thetalist : list R) (Mlist : list (Mat4 R))
    (Slist : list (Vec6 R)) (i : nat) :
  Forall2 encloses thetalistI thetalist ->
  Forall2 encM4 MlistI Mlist -> Forall2 enc6 SlistI Slist ->
  (forall i, (i < length thetalist)%nat ->
     exp6_ok (VecTose3 (v6scale (iopp (nth i thetalistI (iZ 0))) (A_atI MlistI SlistI i)))
     = true) ->
  encM6 (AdT_atI thetalistI MlistI SlistI i) (AdT_at MatrixExp6 thetalist Mlist Slist i).
Proof.
  intros Htheta HM HS Hok.
  assert (HMn : forall k, encM4 (nth k MlistI m4zero) (nth k Mlist m4zero))
    by (intros k; apply (enc_nth encM4); [exact HM | apply encM4_zero]).
  assert (Hth : encloses (nth i thetalistI (iZ 0)) (nth i thetalist 0))
    by (apply (enc_nth encloses); [exact Htheta | apply (encloses_Z 0)]).
  pose proof (Forall2_length Htheta) as Hlen.
  unfold AdT_atI, AdT_at. rewrite Hlen.
  destruct (Nat.ltb_spec i (length thetalist)) as [Hi | Hi].
  - apply AdT_joint_enc; auto. now apply A_at_enc.
  - destruct (i =? length thetalist)%nat.
    + apply encM6_Adjoint, encM4_TransInv, HMn.
    + apply encM6_zero.
Qed.

(** ** The fixture *)

Lemma nth_error_map_seq {X : Type} (f : nat -> X) (n i : nat) (x : X) :
  nth_error (map f (seq 0 n)) i = Some x -> x = f i.
Proof.
  intros H. rewrite nth_error_map in H.
  destruct (nth_error (seq 0 n) i) as [k |] eqn:E; [| discriminate].
  injection H as <-. f_equal.
  assert (Hi : (i < n)%nat).
  { rewrite <- (length_seq n 0). apply nth_error_Some. congruence. }
  apply (nth_error_nth _ _ 0%nat) in E. rewrite seq_nth in E by exact Hi.
  simpl in E. congruence.
Qed.

Lemma fixture_A_tab (i : nat) : FixtureI.A i = A_atI FixtureI.Mlist FixtureI.Slist i.
Proof.
  unfold FixtureI.A.
  destruct (nth_error FixtureI.A_tab i) as [x |] eqn:E; [| reflexivity].
  assert (Ht : FixtureI.A_tab = map (A_atI FixtureI.Mlist FixtureI.Slist) (seq 0 3))
    by (vm_compute; reflexivity).
  rewrite Ht in E. now apply nth_error_map_seq in E.
Qed.

Lemma fixture_AdT_tab (i : nat) :
  FixtureI.AdT i = AdT_atI FixtureI.thetalist FixtureI.Mlist FixtureI.Slist i.
Proof.
  unfold FixtureI.AdT.
  destruct (nth_error FixtureI.AdT_tab i) as [x |] eqn:E; [| reflexivity].
  assert (Ht : FixtureI.AdT_tab
               = map (AdT_atI FixtureI.thetalist FixtureI.Mlist FixtureI.Slist) (seq 0 4))
    by (vm_compute; reflexivity).
  rewrite Ht in E. now apply nth_error_map_seq in E.
Qed.

Ltac enc_fixture :=
  repeat lazymatch goal with
    | |- Forall2 _ [] [] => apply Forall2_nil
    | |- Forall2 _ (_ :: _) (_ :: _) => apply Forall2_cons
    | |- encloses (iZ _) (IZR _) => apply encloses_Z
    | |- encloses (iQ _) (Q2R _) => apply encloses_Q
    | |- _ /\ _ => split
    | |- _ =>
        progress (cbv beta iota delta
          [enc3 encM3 enc6 encM6 encM4 asDiagonal m3zero row0 row1 row2
           rot pos bot crn v0 v1 v2 a00 a01 a02 a10 a11 a12 a20 a21 a22
           ang lin tl tr bl br s0 s1 R_scalar itv_scalar])
    end.

Lemma fixture_thetalist_enc : Forall2 encloses FixtureI.thetalist fixture_thetalist.
Proof. unfold FixtureI.thetalist, fixture_thetalist. enc_fixture. Qed.

Lemma fixture_dthetalist_enc : Forall2 encloses FixtureI.dthetalist fixture_dthetalist.
Proof. unfold FixtureI.dthetalist, fixture_dthetalist. enc_fixture. Qed.

Lemma fixture_ddthetalist_enc : Forall2 encloses FixtureI.ddthetalist fixture_ddthetalist.
Proof. unfold FixtureI.ddthetalist, fixture_ddthetalist. enc_fixture. Qed.

Lemma fixture_g_enc : enc3 FixtureI.g fixture_g.
Proof. unfold FixtureI.g, fixture_g. enc_fixture. Qed.

Lemma fixture_Ftip_enc : enc6 FixtureI.Ftip fixture_Ftip.
Proof. unfold FixtureI.Ftip, fixture_Ftip. enc_fixture. Qed.

Lemma fixture_Mlist_enc : Forall2 encM4 FixtureI.Mlist fixture_Mlist.
Proof.
  unfold FixtureI.Mlist, fixture_Mlist, FixtureI.M01, FixtureI.M12, FixtureI.M23,
    FixtureI.M34, fixture_M01, fixture_M12, fixture_M23, fixture_M34.
  enc_fixture.
Qed.

Lemma fixture_Glist_enc : Forall2 encM6 FixtureI.Glist fixture_Glist.
Proof. unfold FixtureI.Glist, fixture_Glist. enc_fixture. Qed.

Lemma fixture_Slist_enc : Forall2 enc6 FixtureI.Slist fixture_Slist.
Proof. unfold FixtureI.Slist, fixture_Slist. enc_fixture. Qed.

Lemma fixture_exp6_ok (i : nat) :
  (i < length fixture_thetalist)%nat -> exp6_ok (FixtureI.exp6_arg i) = true.
Proof.
  intros Hi. destruct i as [| [| [| i]]]; [| | | simpl in Hi; lia];
    vm_compute; reflexivity.
Qed.

(** Each torque of the fixture lies in its interval. *)
Lemma fixture_tau_enc (i : nat) :
  encloses (FixtureI.tau i)
    (at_ (InverseDynamics fixture_thetalist fixture_dthetalist fixture_ddthetalist
            fixture_g fixture_Ftip fixture_Mlist fixture_Glist fixture_Slist) i)
  \/ (3 <= i)%nat.
Proof.
  destruct (Nat.lt_ge_cases i 3) as [Hi | Hi]; [left | right; exact Hi].
  unfold InverseDynamics. rewrite InverseDynamics_recurrence.
  change (length fixture_thetalist) with 3%nat.
  unfold at_.
  rewrite (nth_indep _ 0 (torque (A_at fixture_Mlist fixture_Slist)
             (AdT_at MatrixExp6 fixture_thetalist fixture_Mlist fixture_Slist)
             (fun i => nth i fixture_Glist m6zero)
             (at_ fixture_dthetalist) (at_ fixture_ddthetalist)
             fixture_g fixture_Ftip 3 0))
    by (rewrite length_map, length_seq; exact Hi).
  rewrite map_nth, seq_nth by exact Hi. cbn [Nat.add].
  unfold FixtureI.tau. apply torque_enc.
  - intros j. rewrite fixture_A_tab.
    apply A_at_enc; [apply fixture_Mlist_enc | apply fixture_Slist_enc].
  - intros j. rewrite fixture_AdT_tab.
    apply AdT_at_enc;
      [apply fixture_thetalist_enc | apply fixture_Mlist_enc | apply fixture_Slist_enc
      | exact fixture_exp6_ok].
  - intros j. apply enc_nth; [apply fixture_Glist_enc | apply encM6_zero].
  - intros j. apply enc_nth; [apply fixture_dthetalist_enc | apply (encloses_Z 0)].
  - intros j. apply enc_nth; [apply fixture_ddthetalist_enc | apply (encloses_Z 0)].
  - apply fixture_g_enc.
  - apply fixture_Ftip_enc.
Qed.

Lemma within_sound (c tol : Z) (x : itv) (r : R) :
  FixtureI.within c tol x = true -> encloses x r ->
  IZR c - IZR tol <= r * IZR scale <= IZR c + IZR tol.
Proof.
  unfold FixtureI.within. intros H [Hl Hu].
  apply andb_true_iff in H. destruct H as [H1 H2].
  apply Z.leb_le, IZR_le in H1. apply Z.leb_le, IZR_le in H2.
  rewrite minus_IZR in H1. rewrite plus_IZR in H2. lra.
Qed.

Lemma fixture_tau_within :
  FixtureI.within 7469620000000000000000 746962000000000000 (FixtureI.tau 0) = true /\
  FixtureI.within (-3306770000000000000000) 330677000000000000 (FixtureI.tau 1) = true /\
  FixtureI.within (-323057000000000000000) 32305700000000000 (FixtureI.tau 2) = true.
Proof. split; [| split]; vm_compute; reflexivity. Qed.

Lemma list_of_three (l : list R) :
  length l = 3%nat -> l = [at_ l 0; at_ l 1; at_ l 2].
Proof.
  destruct l as [| a [| b [| c [| d l]]]]; simpl; intros H; try discriminate.
  reflexivity.
Qed.

(** C2.  On the fixture of [MRTest.InverseDynamicsTest], [InverseDynamics]
    returns three torques, and each is within the relative tolerance
    1e-4 of the corresponding entry of [74.6962, -33.0677, -3.23057].
    The torques are those of the exact formulas, enclosed by interval
    arithmetic: 74.696161552..., -33.067660158... and -3.2305731378... *)
Theorem InverseDynamics_fixture :
  let taulist :=
    InverseDynamics fixture_thetalist fixture_dthetalist fixture_ddthetalist
      fixture_g fixture_Ftip fixture_Mlist fixture_Glist fixture_Slist in
  length taulist = 3%nat /\
  Forall2 (within_relative 1e-4) fixture_result taulist.
Proof.
  cbv zeta.
  set (taulist := InverseDynamics fixture_thetalist fixture_dthetalist
                    fixture_ddthetalist fixture_g fixture_Ftip fixture_Mlist
                    fixture_Glist fixture_Slist).
  assert (Hlen : length taulist = 3%nat).
  { unfold taulist, InverseDynamics. rewrite InverseDynamics_recurrence.
    now rewrite length_map, length_seq. }
  split; [exact Hlen |].
  rewrite (list_of_three taulist Hlen).
  destruct fixture_tau_within as (W0 & W1 & W2).
  destruct (fixture_tau_enc 0) as [E0 | E0]; [| lia].
  destruct (fixture_tau_enc 1) as [E1 | E1]; [| lia].
  destruct (fixture_tau_enc 2) as [E2 | E2]; [| lia].
  fold taulist in E0, E1, E2.
  pose proof (within_sound _ _ _ _ W0 E0) as B0.
  pose proof (within_sound _ _ _ _ W1 E1) as B1.
  pose proof (within_sound _ _ _ _ W2 E2) as B2.
  unfold scale in B0, B1, B2.
  unfold fixture_result, within_relative.
  repeat apply Forall2_cons; [| | | apply Forall2_nil].
  - rewrite (Rabs_pos_eq 74.6962) by lra. apply Rabs_le. lra.
  - rewrite (Rabs_left (-33.0677)) by lra. apply Rabs_le. lra.
  - rewrite (Rabs_left (-3.23057)) by lra. apply Rabs_le. lra.
Qed.
